(** * Chess-AI: board model, move generation, codecs and search

    A shallow embedding of [chess_ai/board.py] and [chess_ai/ai.py].

    Conventions of the embedding.
    - Python exceptions are values of [result]: [Raise ValueError] for the
      format errors of the codecs, [Raise IndexError] for a list subscript
      out of range, [Raise RecursionError] when the recursion budget of the
      search is used up.
    - Text is [string]; a character is a code point below 256 and the
      character classes ([isdigit], [isupper], [islower], whitespace) are
      Python's on that range.
    - Coordinates and depths are Python integers, here [Z].
    - Scores are floats in the source.  Every score the program computes is
      a multiple of 0.25 of small magnitude, or an infinity, so float
      arithmetic on them is exact; a finite score is kept as its number of
      quarter pawns ([Fin 4] is 1.0, [Fin 13] is 3.25). *)

From Stdlib Require Import ZArith List Bool Ascii String Lia.
Import ListNotations.
Local Open Scope Z_scope.

(* ------------------------------------------------------------------ *)
(** ** Exceptions as results *)

Inductive exn : Type := ValueError | IndexError | RecursionError.

Inductive result (A : Type) : Type :=
| Ok (a : A)
| Raise (e : exn).
Arguments Ok {A} a.
Arguments Raise {A} e.

Definition bind {A B : Type} (r : result A) (k : A -> result B) : result B :=
  match r with
  | Ok a => k a
  | Raise e => Raise e
  end.

Declare Scope result_scope.
Delimit Scope result_scope with result.
Notation "x <- r ;; k" := (bind r (fun x => k))
  (at level 61, r at next level, right associativity) : result_scope.
Local Open Scope result_scope.

(* ------------------------------------------------------------------ *)
(** ** Characters and strings, as Python sees them *)

Definition code (c : ascii) : Z := Z.of_nat (nat_of_ascii c).

Definition between (lo hi x : Z) : bool := (lo <=? x) && (x <=? hi).

(** [str.isdigit]: the decimal digits and the superscripts one, two, three. *)
Definition isdigit (c : ascii) : bool :=
  let n := code c in
  between 48 57 n || (n =? 178) || (n =? 179) || (n =? 185).

(** [int(ch)] for a one-character string: only the decimal digits convert. *)
Definition int_of_char (c : ascii) : result nat :=
  let n := code c in
  if between 48 57 n then Ok (Z.to_nat (n - 48)) else Raise ValueError.

Definition isupper (c : ascii) : bool :=
  let n := code c in
  between 65 90 n || between 192 214 n || between 216 222 n.

Definition islower (c : ascii) : bool :=
  let n := code c in
  between 97 122 n || (n =? 170) || (n =? 181) || (n =? 186)
  || between 223 246 n || between 248 255 n.

(** Whitespace removed by [str.strip()] and separating [str.split()]. *)
Definition isspace (c : ascii) : bool :=
  let n := code c in
  between 9 13 n || between 28 32 n || (n =? 133) || (n =? 160).

(** [str.upper] and [str.lower] on one character.  The program compares
    the result only with ASCII letters; outside a-z / A-Z Python's result
    is never an ASCII letter, and the character is left as it is here. *)
Definition upper (c : ascii) : ascii :=
  let n := code c in
  if between 97 122 n then ascii_of_nat (Z.to_nat (n - 32)) else c.

Definition lower (c : ascii) : ascii :=
  let n := code c in
  if between 65 90 n then ascii_of_nat (Z.to_nat (n + 32)) else c.

Definition chars (s : string) : list ascii := list_ascii_of_string s.
Definition text (l : list ascii) : string := string_of_list_ascii l.

(** [str.strip()] *)
Fixpoint lstrip (l : list ascii) : list ascii :=
  match l with
  | c :: t => if isspace c then lstrip t else l
  | [] => []
  end.

Definition strip (l : list ascii) : list ascii :=
  rev (lstrip (rev (lstrip l))).

(** [str.split()] with no argument: maximal runs of non-whitespace.
    [cur] is the word being read, most recent character first. *)
Fixpoint split_ws_from (l : list ascii) (cur : list ascii) : list (list ascii) :=
  match l with
  | [] => match cur with [] => [] | _ => [rev cur] end
  | c :: t =>
      if isspace c
      then match cur with
           | [] => split_ws_from t []
           | _ => rev cur :: split_ws_from t []
           end
      else split_ws_from t (c :: cur)
  end.

Definition split_ws (l : list ascii) : list (list ascii) := split_ws_from l [].

(** [str.split(sep)] for a one-character separator: every occurrence
    separates, empty fields are kept, the result is never empty. *)
Fixpoint split_on (sep : ascii) (l : list ascii) : list (list ascii) :=
  match l with
  | [] => [[]]
  | c :: t =>
      if Ascii.eqb c sep then [] :: split_on sep t
      else match split_on sep t with
           | w :: ws => (c :: w) :: ws
           | [] => [[c]]
           end
  end.

(** [sep.join(rows)] *)
Fixpoint join (sep : ascii) (rows : list (list ascii)) : list ascii :=
  match rows with
  | [] => []
  | [r] => r
  | r :: rs => r ++ sep :: join sep rs
  end.

(* ------------------------------------------------------------------ *)
(** ** Python list subscripts *)

(** The position a subscript [i] denotes in a list of length [n]:
    negative subscripts count from the end, anything else out of range
    raises [IndexError]. *)
Definition py_index (n : nat) (i : Z) : result nat :=
  if (0 <=? i) && (i <? Z.of_nat n) then Ok (Z.to_nat i)
  else if (- Z.of_nat n <=? i) && (i <? 0) then Ok (Z.to_nat (Z.of_nat n + i))
  else Raise IndexError.

Fixpoint set_nth {A : Type} (l : list A) (k : nat) (v : A) : list A :=
  match l, k with
  | [], _ => []
  | _ :: t, O => v :: t
  | x :: t, S k' => x :: set_nth t k' v
  end.

Definition py_get {A : Type} (l : list A) (i : Z) (d : A) : result A :=
  k <- py_index (List.length l) i ;; Ok (nth k l d).

Definition py_set {A : Type} (l : list A) (i : Z) (v : A) : result (list A) :=
  k <- py_index (List.length l) i ;; Ok (set_nth l k v).

(* ------------------------------------------------------------------ *)
(** ** Data model ([board.py]) *)

Inductive Color : Type := white | black.

Definition Piece : Type := ascii.
Definition Square : Type := (Z * Z)%type.

Record Move : Type := mkMove {
  from_sq : Square;
  to_sq : Square;
  promotion : option Piece
}.

Definition Grid : Type := list (list (option Piece)).

Record Board : Type := mkBoard {
  grid : Grid;
  turn : Color
}.

Record SearchResult (Score : Type) : Type := mkSearchResult {
  move : option Move;
  score : Score
}.
Arguments mkSearchResult {Score} move score.
Arguments move {Score} s.
Arguments score {Score} s.

Definition color_eqb (a b : Color) : bool :=
  match a, b with
  | white, white | black, black => true
  | _, _ => false
  end.

Definition square_eqb (a b : Square) : bool :=
  (fst a =? fst b) && (snd a =? snd b).

Definition is_none {A : Type} (o : option A) : bool :=
  match o with None => true | Some _ => false end.

Definition piece_eqb (o : option Piece) (p : Piece) : bool :=
  match o with Some q => Ascii.eqb q p | None => false end.

(** [range(8)] *)
Definition range8 : list Z := [0; 1; 2; 3; 4; 5; 6; 7].

(** Every board the program builds has 8 rows of 8 cells: [from_fen]
    checks it and [apply_move] keeps the shape. *)
Definition wf_grid (g : Grid) : bool :=
  (List.length g =? 8)%nat && forallb (fun row => (List.length row =? 8)%nat) g.

Definition wf_board (b : Board) : bool := wf_grid (grid b).

(** [Board.opposite] *)
Definition opposite (color : Color) : Color :=
  match color with white => black | black => white end.

(** [Board.is_on_board] *)
Definition is_on_board (square : Square) : bool :=
  let '(row, col) := square in
  (0 <=? row) && (row <? 8) && (0 <=? col) && (col <? 8).

(** [self._grid[row][col]] read at a place where the source has
    established [0 <= row < 8] and [0 <= col < 8] (a scan over [range(8)]
    or a preceding [is_on_board] test); on a well-formed board the
    subscript cannot raise there, see [cell_subscript]. *)
Definition cell (g : Grid) (row col : Z) : option Piece :=
  nth (Z.to_nat col) (nth (Z.to_nat row) g []) None.

(** [Board.piece_at] *)
Definition piece_at (b : Board) (square : Square) : option Piece :=
  let '(row, col) := square in cell (grid b) row col.

(* ------------------------------------------------------------------ *)
(** ** Coordinate and move-text codec *)

Definition char_in (c : ascii) (s : string) : bool :=
  existsb (Ascii.eqb c) (chars s).

(** [Board.square_to_str] *)
Definition square_to_str (square : Square) : list ascii :=
  let '(row, col) := square in
  [ascii_of_nat (Z.to_nat (97 + col)); ascii_of_nat (Z.to_nat (48 + (8 - row)))].

(** [Board.str_to_square] *)
Definition str_to_square (s : list ascii) : result Square :=
  match s with
  | [file_char; rank_char] =>
      if negb (char_in file_char "abcdefgh") || negb (char_in rank_char "12345678")
      then Raise ValueError
      else
        let col := code file_char - 97 in
        let row := 8 - (code rank_char - 48) in
        Ok (row, col)
  | _ => Raise ValueError
  end.

(** [Move.from_long_algebraic] *)
Definition from_long_algebraic (s0 : string) : result Move :=
  let s := strip (chars s0) in
  let n := List.length s in
  if negb ((n =? 4)%nat || (n =? 5)%nat) then Raise ValueError
  else
    from <- str_to_square (firstn 2 s) ;;
    to <- str_to_square (firstn 2 (skipn 2 s)) ;;
    if (n =? 5)%nat then
      let promo_char := upper (nth 4 s "000"%char) in
      if negb (char_in promo_char "QRBN") then Raise ValueError
      else Ok (mkMove from to (Some promo_char))
    else Ok (mkMove from to None).

(* ------------------------------------------------------------------ *)
(** ** FEN codec *)

(** The inner loop of [from_fen] over the characters of one row. *)
Fixpoint parse_row (row_str : list ascii) (row : list (option Piece))
  : result (list (option Piece)) :=
  match row_str with
  | [] => Ok row
  | ch :: rest =>
      if isdigit ch
      then n <- int_of_char ch ;; parse_row rest (row ++ repeat None n)
      else parse_row rest (row ++ [Some ch])
  end.

(** The outer loop of [from_fen] over the row strings. *)
Fixpoint parse_rows (rows : list (list ascii)) (g : Grid) : result Grid :=
  match rows with
  | [] => Ok g
  | row_str :: rest =>
      row <- parse_row row_str [] ;;
      if negb (List.length row =? 8)%nat then Raise ValueError
      else parse_rows rest (g ++ [row])
  end.

(** The board field of a FEN text. *)
Definition parse_board (board_part : list ascii) : result Grid :=
  let rows := split_on "/" board_part in
  if negb (List.length rows =? 8)%nat then Raise ValueError
  else parse_rows rows [].

Definition parse_turn (turn_part : list ascii) : Color :=
  if String.eqb (text turn_part) "w" then white else black.

(** [Board.from_fen] *)
Definition from_fen (fen : string) : result Board :=
  match split_ws (strip (chars fen)) with
  | board_part :: turn_part :: _ =>
      g <- parse_board board_part ;;
      Ok (mkBoard g (parse_turn turn_part))
  | _ => Raise ValueError
  end.

(** [str(empty)]: the counter never exceeds 8, one digit. *)
Definition str_count (empty : nat) : list ascii :=
  [ascii_of_nat (48 + empty)].

(** The inner loop of [to_fen] over the cells of one row, with the
    loop's two variables. *)
Fixpoint fen_row_loop (cells : list (option Piece)) (empty : nat)
  (row_str : list ascii) : list ascii :=
  match cells with
  | [] => if (empty =? 0)%nat then row_str else row_str ++ str_count empty
  | None :: rest => fen_row_loop rest (S empty) row_str
  | Some piece :: rest =>
      let row_str := if (empty =? 0)%nat then row_str else row_str ++ str_count empty in
      fen_row_loop rest 0%nat (row_str ++ [piece])
  end.

Definition fen_row (g : Grid) (r : Z) : list ascii :=
  fen_row_loop (map (fun c => cell g r c) range8) 0%nat [].

(** [Board.to_fen] *)
Definition to_fen (b : Board) : string :=
  let rows := map (fen_row (grid b)) range8 in
  let board_part := join "/" rows in
  let turn_part := match turn b with white => "w"%char | black => "b"%char end in
  text (board_part ++ [" "%char; turn_part]).

(** [Board.start_position] *)
Definition start_fen : string := "rnbqkbnr/pppppppp/8/8/8/8/PPPPPPPP/RNBQKBNR w".
Definition start_position : result Board := from_fen start_fen.

(* ------------------------------------------------------------------ *)
(** ** Pseudo-legal move generation *)

(** The test [color == "white" and piece.islower() or
    color == "black" and piece.isupper()] of the generators. *)
Definition enemy (color : Color) (piece : Piece) : bool :=
  (color_eqb color white && islower piece)
  || (color_eqb color black && isupper piece).

(** The four promotion moves of [_pawn_moves]. *)
Definition promotions (color : Color) (square target : Square) : list Move :=
  map (fun promo : ascii =>
         let piece := if color_eqb color white then promo else lower promo in
         mkMove square target (Some piece))
      ["Q"; "R"; "B"; "N"]%char.

(** [Board._pawn_moves] *)
Definition pawn_moves (b : Board) (square : Square) (color : Color) : list Move :=
  let '(row, col) := square in
  let direction := if color_eqb color white then -1 else 1 in
  let start_row := if color_eqb color white then 6 else 1 in
  let promotion_row := if color_eqb color white then 0 else 7 in
  let forward := (row + direction, col) in
  (if is_on_board forward && is_none (piece_at b forward) then
     (if fst forward =? promotion_row
      then promotions color square forward
      else [mkMove square forward None])
     ++
     (let double := (row + 2 * direction, col) in
      if (row =? start_row) && is_none (piece_at b double)
         && is_none (piece_at b forward)
      then [mkMove square double None]
      else [])
   else [])
  ++
  flat_map
    (fun dc =>
       let target := (row + direction, col + dc) in
       if negb (is_on_board target) then []
       else match piece_at b target with
            | None => []
            | Some target_piece =>
                if enemy color target_piece then
                  if fst target =? promotion_row
                  then promotions color square target
                  else [mkMove square target None]
                else []
            end)
    [-1; 1].

(** The occupancy rule shared by [_knight_moves] and [_king_moves]. *)
Definition step_moves (b : Board) (square : Square) (color : Color)
  (deltas : list (Z * Z)) : list Move :=
  let '(row, col) := square in
  flat_map
    (fun d : Z * Z =>
       let '(dr, dc) := d in
       let target := (row + dr, col + dc) in
       if negb (is_on_board target) then []
       else match piece_at b target with
            | None => [mkMove square target None]
            | Some piece =>
                if enemy color piece then [mkMove square target None] else []
            end)
    deltas.

(** [Board._knight_moves] *)
Definition knight_moves (b : Board) (square : Square) (color : Color) : list Move :=
  step_moves b square color
    [(-2, -1); (-2, 1); (-1, -2); (-1, 2); (1, -2); (1, 2); (2, -1); (2, 1)].

(** [Board._king_moves]: [dr], [dc] over (-1, 0, 1), skipping (0, 0). *)
Definition king_moves (b : Board) (square : Square) (color : Color) : list Move :=
  step_moves b square color
    [(-1, -1); (-1, 0); (-1, 1); (0, -1); (0, 1); (1, -1); (1, 0); (1, 1)].

(** The [while] loop of [_sliding_moves] along one direction, from the
    cell [(r, c)].  With a direction other than (0, 0) the loop leaves the
    board after at most seven cells; [fuel] bounds the iterations. *)
Fixpoint ray (fuel : nat) (b : Board) (square : Square) (color : Color)
  (dr dc r c : Z) : list Move :=
  match fuel with
  | O => []
  | S fuel' =>
      if (0 <=? r) && (r <? 8) && (0 <=? c) && (c <? 8) then
        match cell (grid b) r c with
        | None =>
            mkMove square (r, c) None
            :: ray fuel' b square color dr dc (r + dr) (c + dc)
        | Some piece =>
            if enemy color piece then [mkMove square (r, c) None] else []
        end
      else []
  end.

(** [Board._sliding_moves] *)
Definition sliding_moves (b : Board) (square : Square) (color : Color)
  (directions : list (Z * Z)) : list Move :=
  let '(row, col) := square in
  flat_map
    (fun d : Z * Z =>
       let '(dr, dc) := d in
       ray 8 b square color dr dc (row + dr) (col + dc))
    directions.

Definition bishop_directions : list (Z * Z) := [(-1, -1); (-1, 1); (1, -1); (1, 1)].
Definition rook_directions : list (Z * Z) := [(-1, 0); (1, 0); (0, -1); (0, 1)].
Definition queen_directions : list (Z * Z) := bishop_directions ++ rook_directions.

(** [Board._moves_for_piece] *)
Definition moves_for_piece (b : Board) (square : Square) (piece : Piece) : list Move :=
  let color := if isupper piece then white else black in
  let p := upper piece in
  if Ascii.eqb p "P" then pawn_moves b square color
  else if Ascii.eqb p "N" then knight_moves b square color
  else if Ascii.eqb p "B" then sliding_moves b square color bishop_directions
  else if Ascii.eqb p "R" then sliding_moves b square color rook_directions
  else if Ascii.eqb p "Q" then sliding_moves b square color queen_directions
  else if Ascii.eqb p "K" then king_moves b square color
  else [].

(** [Board._generate_pseudo_moves]: the generator's items, in order. *)
Definition generate_pseudo_moves (b : Board) (color : Color) : list Move :=
  flat_map
    (fun row =>
       flat_map
         (fun col =>
            match cell (grid b) row col with
            | None => []
            | Some piece =>
                if color_eqb color white && negb (isupper piece) then []
                else if color_eqb color black && negb (islower piece) then []
                else moves_for_piece b (row, col) piece
            end)
         range8)
    range8.

(* ------------------------------------------------------------------ *)
(** ** Move application and check detection *)

(** [Board.apply_move].  The two subscripted accesses are Python list
    subscripts: they raise [IndexError] out of range and count from
    the end when negative. *)
Definition apply_move (b : Board) (m : Move) (switch_turn : bool) : result Board :=
  let new_grid := grid b in
  let '(from_row, from_col) := from_sq m in
  let '(to_row, to_col) := to_sq m in
  from_cells <- py_get new_grid from_row [] ;;
  piece <- py_get from_cells from_col None ;;
  from_cells <- py_set from_cells from_col None ;;
  new_grid <- py_set new_grid from_row from_cells ;;
  let piece := match promotion m with
               | Some promo => Some promo
               | None => piece
               end in
  to_cells <- py_get new_grid to_row [] ;;
  to_cells <- py_set to_cells to_col piece ;;
  new_grid <- py_set new_grid to_row to_cells ;;
  let next_turn := if switch_turn then opposite (turn b) else turn b in
  Ok (mkBoard new_grid next_turn).

(** The squares in the order of the nested [range(8)] loops. *)
Definition all_squares : list Square :=
  flat_map (fun row => map (fun col => (row, col)) range8) range8.

Definition king_symbol (color : Color) : Piece :=
  match color with white => "K"%char | black => "k"%char end.

(** [Board._find_king]: the first king cell of the row-major scan. *)
Definition find_king (b : Board) (color : Color) : option Square :=
  find (fun sq => piece_eqb (piece_at b sq) (king_symbol color)) all_squares.

(** [Board.is_in_check] *)
Definition is_in_check (b : Board) (color : Color) : bool :=
  match find_king b color with
  | None => true
  | Some king_sq =>
      let opponent := opposite color in
      existsb (fun m => square_eqb (to_sq m) king_sq)
              (generate_pseudo_moves b opponent)
  end.

(** The loop of [generate_legal_moves] over the pseudo-legal moves. *)
Fixpoint filter_legal (b : Board) (color : Color) (moves : list Move)
  : result (list Move) :=
  match moves with
  | [] => Ok []
  | m :: rest =>
      new_board <- apply_move b m false ;;
      legal_moves <- filter_legal b color rest ;;
      Ok (if negb (is_in_check new_board color) then m :: legal_moves
          else legal_moves)
  end.

(** [Board.generate_legal_moves]; [None] is the omitted argument. *)
Definition generate_legal_moves (b : Board) (color : option Color)
  : result (list Move) :=
  let color := match color with None => turn b | Some c => c end in
  filter_legal b color (generate_pseudo_moves b color).

(* ------------------------------------------------------------------ *)
(** ** Scores ([ai.py]) *)

(** A float of the search: an infinity or a number of quarter pawns. *)
Inductive Score : Type := NegInf | Fin (q : Z) | PosInf.

(** Quarter pawns of a whole number of pawns. *)
Definition pawns (n : Z) : Z := 4 * n.

Definition slt (a b : Score) : bool :=
  match a, b with
  | _, NegInf => false
  | NegInf, _ => true
  | PosInf, _ => false
  | Fin _, PosInf => true
  | Fin x, Fin y => x <? y
  end.

(** [a >= b] is [sle b a]. *)
Definition sle (a b : Score) : bool := negb (slt b a).

(** Python's [max(a, b)] and [min(a, b)]: the first argument unless the
    second is strictly better. *)
Definition smax (a b : Score) : Score := if slt a b then b else a.
Definition smin (a b : Score) : Score := if slt b a then b else a.

(** [PIECE_VALUES.get(p, 0.0)], in quarter pawns. *)
Definition piece_value (p : ascii) : Z :=
  if Ascii.eqb p "P" then 4
  else if Ascii.eqb p "N" then 12
  else if Ascii.eqb p "B" then 13
  else if Ascii.eqb p "R" then 20
  else if Ascii.eqb p "Q" then 36
  else if Ascii.eqb p "K" then 0
  else 0.

(** [evaluate_board] *)
Definition evaluate_board (b : Board) : Z :=
  fold_left
    (fun material sq =>
       match piece_at b sq with
       | None => material
       | Some piece =>
           let base := piece_value (upper piece) in
           if isupper piece then material + base else material - base
       end)
    all_squares 0.

Definition mate : Z := pawns 10000.

(* ------------------------------------------------------------------ *)
(** ** Search *)

Section Loops.
(** The recursive call on a child, with the window it is given. *)
Variable rec : Board -> Score -> Score -> result Score.

(** The maximizing loop of [minimax], with its variables [value] and
    [alpha]; the [break] returns [value]. *)
Fixpoint max_loop (board : Board) (moves : list Move)
  (value alpha beta : Score) : result Score :=
  match moves with
  | [] => Ok value
  | m :: rest =>
      child <- apply_move board m true ;;
      s <- rec child alpha beta ;;
      let value := smax value s in
      let alpha := smax alpha value in
      if sle beta alpha then Ok value
      else max_loop board rest value alpha beta
  end.

(** The minimizing loop of [minimax]. *)
Fixpoint min_loop (board : Board) (moves : list Move)
  (value alpha beta : Score) : result Score :=
  match moves with
  | [] => Ok value
  | m :: rest =>
      child <- apply_move board m true ;;
      s <- rec child alpha beta ;;
      let value := smin value s in
      let beta := smin beta value in
      if sle beta alpha then Ok value
      else min_loop board rest value alpha beta
  end.
End Loops.

(** The score of a position without legal moves, for the color [us]:
    the rule of [minimax] with [us] the maximizing color, and of
    [find_best_move] with [us] white. *)
Definition no_moves_score (board : Board) (side_to_move us : Color) : Score :=
  if is_in_check board side_to_move then
    if color_eqb side_to_move us then Fin (- mate) else Fin mate
  else Fin 0.

(** [minimax].  Every call uses one unit of [fuel], the recursion budget
    of the interpreter. *)
Fixpoint minimax (fuel : nat) (board : Board) (depth : Z)
  (alpha beta : Score) (maximizing_color : Color) : result Score :=
  match fuel with
  | O => Raise RecursionError
  | S fuel' =>
      if depth =? 0 then
        let score := evaluate_board board in
        Ok (Fin (if color_eqb maximizing_color white then score else - score))
      else
        let side_to_move := turn board in
        legal_moves <- generate_legal_moves board (Some side_to_move) ;;
        match legal_moves with
        | [] => Ok (no_moves_score board side_to_move maximizing_color)
        | _ =>
            let rec := fun child a b =>
              minimax fuel' child (depth - 1) a b maximizing_color in
            if color_eqb side_to_move maximizing_color
            then max_loop rec board legal_moves NegInf alpha beta
            else min_loop rec board legal_moves PosInf alpha beta
        end
  end.

(** The loop of [find_best_move], with its variables [best_move] and
    [best_score]. *)
Fixpoint best_loop (fuel : nat) (board : Board) (max_depth : Z)
  (side_to_move : Color) (moves : list Move)
  (best_move : option Move) (best_score : Score) : result (SearchResult Score) :=
  match moves with
  | [] => Ok (mkSearchResult best_move best_score)
  | m :: rest =>
      child <- apply_move board m true ;;
      score <- minimax fuel child (max_depth - 1) NegInf PosInf side_to_move ;;
      if color_eqb side_to_move white then
        if slt best_score score
        then best_loop fuel board max_depth side_to_move rest (Some m) score
        else best_loop fuel board max_depth side_to_move rest best_move best_score
      else
        if slt score best_score
        then best_loop fuel board max_depth side_to_move rest (Some m) score
        else best_loop fuel board max_depth side_to_move rest best_move best_score
  end.

(** [find_best_move] *)
Definition find_best_move (fuel : nat) (board : Board) (max_depth : Z)
  : result (SearchResult Score) :=
  let side_to_move := turn board in
  legal_moves <- generate_legal_moves board (Some side_to_move) ;;
  match legal_moves with
  | [] => Ok (mkSearchResult None (no_moves_score board side_to_move white))
  | _ =>
      let best_score := if color_eqb side_to_move white then NegInf else PosInf in
      best_loop fuel board max_depth side_to_move legal_moves None best_score
  end.

(* ------------------------------------------------------------------ *)
(** ** The unpruned search of the specification *)

Section FullLoops.
Variable rec : Board -> result Score.

(** Maximum over all children, none skipped. *)
Fixpoint full_max_loop (board : Board) (moves : list Move) (value : Score)
  : result Score :=
  match moves with
  | [] => Ok value
  | m :: rest =>
      child <- apply_move board m true ;;
      s <- rec child ;;
      full_max_loop board rest (smax value s)
  end.

(** Minimum over all children, none skipped. *)
Fixpoint full_min_loop (board : Board) (moves : list Move) (value : Score)
  : result Score :=
  match moves with
  | [] => Ok value
  | m :: rest =>
      child <- apply_move board m true ;;
      s <- rec child ;;
      full_min_loop board rest (smin value s)
  end.
End FullLoops.

(** Full minimax over the same game tree: the leaves, the terminal
    scores and the maximizing color of [minimax], no window and no
    cut-off. *)
Fixpoint full_minimax (fuel : nat) (board : Board) (depth : Z)
  (maximizing_color : Color) : result Score :=
  match fuel with
  | O => Raise RecursionError
  | S fuel' =>
      if depth =? 0 then
        let score := evaluate_board board in
        Ok (Fin (if color_eqb maximizing_color white then score else - score))
      else
        let side_to_move := turn board in
        legal_moves <- generate_legal_moves board (Some side_to_move) ;;
        match legal_moves with
        | [] => Ok (no_moves_score board side_to_move maximizing_color)
        | _ =>
            let rec := fun child =>
              full_minimax fuel' child (depth - 1) maximizing_color in
            if color_eqb side_to_move maximizing_color
            then full_max_loop rec board legal_moves NegInf
            else full_min_loop rec board legal_moves PosInf
        end
  end.


(* ------------------------------------------------------------------ *)
(** ** More of [board.py] and [game.py] *)

(** [Move.to_long_algebraic], for a move whose squares are on the board
    (there [chr(ord("a") + col)] is a letter a-h and [str(8 - row)] one
    digit, as [square_to_str] has them).  A promotion symbol is one
    character, hence a true value for the test [if self.promotion]. *)
Definition to_long_algebraic (m : Move) : string :=
  let from_str := square_to_str (from_sq m) in
  let to_str := square_to_str (to_sq m) in
  let promo := match promotion m with
               | Some p => [upper p]
               | None => []
               end in
  text (from_str ++ to_str ++ promo).

(** [Board.is_checkmate]; the list of legal moves is computed only when
    the side is in check ([and] evaluates its right operand only then). *)
Definition is_checkmate (b : Board) (color : Color) : result bool :=
  if is_in_check b color then
    legal_moves <- generate_legal_moves b (Some color) ;;
    Ok (List.length legal_moves =? 0)%nat
  else Ok false.

(** [Board.is_stalemate] *)
Definition is_stalemate (b : Board) (color : Color) : result bool :=
  if negb (is_in_check b color) then
    legal_moves <- generate_legal_moves b (Some color) ;;
    Ok (List.length legal_moves =? 0)%nat
  else Ok false.

(** [game.py] *)
Record GameResult : Type := mkGameResult {
  winner : option Color;
  reason : string
}.

Module Game.

(** The state of a [Game] object: its board. *)
Record t : Type := mk { board : Board }.

(** [Game.is_finished] *)
Definition is_finished (g : t) : result (option GameResult) :=
  let color := turn (board g) in
  mate <- is_checkmate (board g) color ;;
  if mate then Ok (Some (mkGameResult (Some (opposite color)) "checkmate"))
  else
    stale <- is_stalemate (board g) color ;;
    if stale then Ok (Some (mkGameResult None "stalemate"))
    else Ok None.

(** The loop of [parse_and_validate_move] over the legal moves. *)
Fixpoint match_move (legal_moves : list Move) (move : Move) : option Move :=
  match legal_moves with
  | [] => None
  | m :: rest =>
      if square_eqb (from_sq m) (from_sq move)
         && square_eqb (to_sq m) (to_sq move)
      then
        if negb (is_none (promotion m)) && is_none (promotion move)
        then Some (mkMove (from_sq m) (to_sq m) (promotion m))
        else Some move
      else match_move rest move
  end.

(** [Game.ai_move] *)
Definition ai_move (fuel : nat) (g : t) (depth : Z)
  : result (SearchResult Score) :=
  find_best_move fuel (board g) depth.

(** [Game.turn] *)
Definition turn (g : t) : Color := turn (board g).

(** [Game.parse_and_validate_move]: a ValueError of the parser is
    caught and answered with [None]. *)
Definition parse_and_validate_move (g : t) (move_str : string)
  : result (option Move) :=
  let move_str := text (strip (chars move_str)) in
  match from_long_algebraic move_str with
  | Raise ValueError => Ok None
  | Raise e => Raise e
  | Ok move =>
      legal_moves <- generate_legal_moves (board g) (Some (turn g)) ;;
      Ok (match_move legal_moves move)
  end.

(** [Game.apply_move]: the board of the game is replaced. *)
Definition apply_move (g : t) (m : Move) : result t :=
  b <- apply_move (board g) m true ;; Ok (mk b).

End Game.

(* ------------------------------------------------------------------ *)
(** ** Definitions used to state the properties *)

(** A cell update on a well-formed grid, at a square on the board. *)
Definition set_cell (g : Grid) (row col : Z) (v : option Piece) : Grid :=
  set_nth g (Z.to_nat row) (set_nth (nth (Z.to_nat row) g []) (Z.to_nat col) v).

(** What [apply_move] writes on the destination, and the side to move
    of the board it returns. *)
Definition moved_piece (b : Board) (m : Move) : option Piece :=
  match promotion m with
  | Some promo => Some promo
  | None => piece_at b (from_sq m)
  end.

Definition next_turn (b : Board) (switch_turn : bool) : Color :=
  if switch_turn then opposite (turn b) else turn b.

(** The move text after [strip()]. *)
Definition trimmed (s : string) : list ascii := strip (chars s).

(** The trimmed length is neither 4 nor 5. *)
Definition bad_length (s : string) : bool :=
  let n := List.length (trimmed s) in negb ((n =? 4)%nat || (n =? 5)%nat).

(** A fifth character that is not one of Q, R, B, N in either case. *)
Definition bad_promotion (s : string) : bool :=
  (List.length (trimmed s) =? 5)%nat
  && negb (char_in (nth 4 (trimmed s) "000"%char) "QRBNqrbn").

(** Two characters that do not name a square: a file letter a-h and a
    rank digit 1-8. *)
Definition square_text_ok (s : list ascii) : bool :=
  match s with
  | [file_char; rank_char] =>
      char_in file_char "abcdefgh" && char_in rank_char "12345678"
  | _ => false
  end.

Definition bad_squares (s : string) : bool :=
  negb (square_text_ok (firstn 2 (trimmed s)))
  || negb (square_text_ok (firstn 2 (skipn 2 (trimmed s)))).

(** The failure condition of [from_long_algebraic] as the specification
    words it: the length and the promotion letter only. *)
Definition format_failure_claim (s : string) : Prop :=
  from_long_algebraic s = Raise ValueError <->
  bad_length s = true \/ bad_promotion s = true.

(** The board a FEN text denotes (the empty board for a text that
    [from_fen] rejects). *)
Definition board_of_fen (fen : string) : Board :=
  match from_fen fen with
  | Ok b => b
  | Raise _ => mkBoard [] white
  end.

(** No cell of the board holds the king of [color]. *)
Definition no_king (b : Board) (color : Color) : Prop :=
  forall row col, 0 <= row < 8 -> 0 <= col < 8 ->
    piece_at b (row, col) <> Some (king_symbol color).

(** Some pseudo-legal move of the opponent of [color] ends on [sq]. *)
Definition targeted (b : Board) (color : Color) (sq : Square) : Prop :=
  exists m, In m (generate_pseudo_moves b (opposite color)) /\ to_sq m = sq.

(** The color of a piece symbol, as [_moves_for_piece] reads it. *)
Definition piece_color (piece : Piece) : Color :=
  if isupper piece then white else black.

(** The promotion rank of a color: row 0 for white, row 7 for black. *)
Definition far_rank (color : Color) : Z :=
  match color with white => 0 | black => 7 end.

(** The four promotion moves from [square] to [target], in the case of
    the moving side. *)
Definition four_promotions (color : Color) (square target : Square) : list Move :=
  match color with
  | white => [mkMove square target (Some "Q"%char);
              mkMove square target (Some "R"%char);
              mkMove square target (Some "B"%char);
              mkMove square target (Some "N"%char)]
  | black => [mkMove square target (Some "q"%char);
              mkMove square target (Some "r"%char);
              mkMove square target (Some "b"%char);
              mkMove square target (Some "n"%char)]
  end.

(** The moves of a list that end on [target]. *)
Definition moves_to (target : Square) (moves : list Move) : list Move :=
  filter (fun m => square_eqb (to_sq m) target) moves.

(** The row step of a pawn: towards row 0 for white, row 7 for black. *)
Definition pawn_step (color : Color) : Z :=
  match color with white => -1 | black => 1 end.

(** [target] is the empty square of the board straight ahead of a pawn
    of [color] standing on [square]. *)
Definition pawn_push (b : Board) (square : Square) (color : Color)
  (target : Square) : bool :=
  is_on_board target
  && (fst target =? fst square + pawn_step color)
  && (snd target =? snd square)
  && is_none (piece_at b target).

(** [target] is a square of the board diagonally ahead of a pawn of
    [color] standing on [square], and holds a piece of the opponent. *)
Definition pawn_capture (b : Board) (square : Square) (color : Color)
  (target : Square) : bool :=
  is_on_board target
  && (fst target =? fst square + pawn_step color)
  && ((snd target =? snd square - 1) || (snd target =? snd square + 1))
  && match piece_at b target with
     | Some target_piece => enemy color target_piece
     | None => false
     end.

(** A pawn of [color] on [square] has a push or a capture to [target]. *)
Definition pawn_reaches (b : Board) (square : Square) (color : Color)
  (target : Square) : bool :=
  pawn_push b square color target || pawn_capture b square color target.

(** A white pawn on a7 that can push to a8 or capture on b8. *)
Definition promotion_board : Board := board_of_fen "1r6/P7/8/8/8/8/8/k6K w".

(** The position after 1. f3 e5 2. g4 Qh4, white to move and mated. *)
Definition fools_mate : Board :=
  board_of_fen "rnb1kbnr/pppp1ppp/8/4p3/6Pq/5P2/PPPPP2P/RNBQKBNR w".

(** A promotion symbol put in the case of the moving piece: uppercase
    for a white (uppercase) piece, lowercase otherwise. *)
Definition case_matched (piece promo : Piece) : Piece :=
  if isupper piece then upper promo else lower promo.

(** What the destination holds after the move, in the words of the
    specification: the piece from the origin, or the promotion symbol in
    the case of the moving piece. *)
Definition destination_claim (p : Board) (m : Move) (p' : Board) : Prop :=
  match promotion m with
  | None => piece_at p' (to_sq m) = piece_at p (from_sq m)
  | Some promo =>
      forall piece, piece_at p (from_sq m) = Some piece ->
        piece_at p' (to_sq m) = Some (case_matched piece promo)
  end.

(** The effect of [apply_move] in the words of the specification. *)
Definition apply_move_claim (p : Board) (m : Move) (switch_turn : bool) : Prop :=
  exists p',
    apply_move p m switch_turn = Ok p' /\
    piece_at p' (from_sq m) = None /\
    destination_claim p m p' /\
    (forall sq, is_on_board sq = true -> sq <> from_sq m -> sq <> to_sq m ->
       piece_at p' sq = piece_at p sq) /\
    turn p' = (if switch_turn then opposite (turn p) else turn p).

(** The promotion symbol of the move, if any, is already in the case of
    the piece on the origin square. *)
Definition promotion_cased (p : Board) (m : Move) : bool :=
  match promotion m, piece_at p (from_sq m) with
  | Some promo, Some piece => Ascii.eqb (case_matched piece promo) promo
  | _, _ => true
  end.

(** A move the generators may emit from [square]: it starts there, ends
    on the board, and promotes, if at all, to one of the eight symbols. *)
Definition promotion_ok (o : option Piece) : bool :=
  match o with
  | None => true
  | Some c => char_in c "QRBNqrbn"
  end.

Definition emitted_from (square : Square) (m : Move) : Prop :=
  from_sq m = square /\ is_on_board (to_sq m) = true /\
  promotion_ok (promotion m) = true.

Definition move_ok (m : Move) : Prop :=
  is_on_board (from_sq m) = true /\ is_on_board (to_sq m) = true /\
  promotion_ok (promotion m) = true.

(** The twelve piece symbols of chess. *)
Definition piece_ok (c : Piece) : bool := char_in c "PNBRQKpnbrqk".

(** A character that [to_fen] can write as a piece and [from_fen] reads
    back as one: not a digit, not a separator. *)
Definition fen_safe (c : ascii) : bool :=
  negb (isdigit c) && negb (isspace c) && negb (Ascii.eqb c "/").

Definition cells_safe (cells : list (option Piece)) : bool :=
  forallb (fun o => match o with None => true | Some c => fen_safe c end) cells.

Definition cells_ok (cells : list (option Piece)) : bool :=
  forallb (fun o => match o with None => true | Some c => piece_ok c end) cells.

(** A board of 8 by 8 cells holding only chess pieces. *)
Definition good_board (b : Board) : bool :=
  wf_board b && forallb cells_ok (grid b).

(** The text [to_fen] writes for one row of cells. *)
Definition fen_cells (cells : list (option Piece)) : list ascii :=
  fen_row_loop cells 0%nat [].

(** Positions reachable by legal play from the start position. *)
Inductive reachable : Board -> Prop :=
| reachable_start : reachable (board_of_fen start_fen)
| reachable_move (p : Board) (legal : list Move) (m : Move) (p' : Board) :
    reachable p ->
    generate_legal_moves p None = Ok legal ->
    In m legal ->
    apply_move p m true = Ok p' ->
    reachable p'.

(** A character that is neither whitespace nor the row separator. *)
Definition plain (c : ascii) : bool :=
  negb (isspace c) && negb (Ascii.eqb c "/").

(** The position after 1. e4. *)
Definition after_e4 : Board :=
  board_of_fen "rnbqkbnr/pppppppp/8/8/4P3/8/PPPP1PPP/RNBQKBNR b".

(** What a fail-soft window search may return: [v] is the value
    returned for the window [(a, b)], [w] the exact value.  Inside the
    window the two agree; at or below [a] the returned value is an upper
    bound, at or above [b] a lower bound. *)
Definition bounds (v w a b : Score) : Prop :=
  (slt a v = true -> slt v b = true -> v = w) /\
  (sle v a = true -> sle w v = true) /\
  (sle b v = true -> sle v w = true).

(** A score as a pair ordered lexicographically: the kind of the value
    (minus infinity, finite, plus infinity), then the number. *)
Definition cls (s : Score) : Z :=
  match s with NegInf => -1 | Fin _ => 0 | PosInf => 1 end.

Definition num (s : Score) : Z :=
  match s with Fin q => q | _ => 0 end.

(** A move of [board] whose child both searches evaluate: [recf] gives
    its exact value and [rec], on every proper window, a value within
    the fail-soft bounds of it. *)
Definition child_ok (rec : Board -> Score -> Score -> result Score)
  (recf : Board -> result Score) (board : Board) (m : Move) : Prop :=
  exists child w,
    apply_move board m true = Ok child /\
    recf child = Ok w /\
    forall a b, slt a b = true ->
      exists v, rec child a b = Ok v /\ bounds v w a b.

(** Black to move; the rook on a1 can take the undefended queen on d1. *)
Definition hanging_queen : Board := board_of_fen "k7/8/8/8/8/8/8/r2Q3K b".

(** An upper bound on the cells the loop of [_sliding_moves] can still
    visit from [(r, c)] along the direction [(dr, dc)]. *)
Definition steps_left (dr dc r c : Z) : Z :=
  if dr =? 1 then 8 - r
  else if dr =? -1 then r + 1
  else if dc =? 1 then 8 - c
  else c + 1.

(** A cell that [from_fen] can have read: empty, or a character that is
    not a digit, whitespace or the row separator. *)
Definition grid_safe (g : Grid) : bool := forallb cells_safe g.

(** A piece symbol of the side [color], as [_generate_pseudo_moves]
    selects them. *)
Definition own (color : Color) (piece : Piece) : bool :=
  match color with
  | white => isupper piece
  | black => islower piece
  end.

(** The destination of [m] is empty or holds a piece of the opponent
    of [color]. *)
Definition destination_free (b : Board) (color : Color) (m : Move) : Prop :=
  match piece_at b (to_sq m) with
  | None => True
  | Some target_piece => enemy color target_piece = true
  end.

(** A move that leaves [square] for another square, free for [color]. *)
Definition lands (b : Board) (color : Color) (square : Square) (m : Move) : Prop :=
  to_sq m <> square /\ destination_free b color m.

(** The promotion symbol of [m], if any, is in the case of [piece]. *)
Definition promotion_matches (piece : Piece) (m : Move) : Prop :=
  match promotion m with
  | None => True
  | Some promo => case_matched piece promo = promo
  end.

(** What the specification asks of a pseudo-legal move of [color]. *)
Definition pseudo_shape (b : Board) (color : Color) (m : Move) : Prop :=
  is_on_board (from_sq m) = true /\
  is_on_board (to_sq m) = true /\
  from_sq m <> to_sq m /\
  (exists piece, piece_at b (from_sq m) = Some piece /\ own color piece = true /\
                 promotion_matches piece m) /\
  destination_free b color m.

(** A subscript Python accepts on a list of 8 items, and the position it
    denotes there. *)
Definition subscript_ok (i : Z) : bool := (-8 <=? i) && (i <? 8).

Definition wrap (i : Z) : Z := if i <? 0 then i + 8 else i.

Definition move_subscripts_ok (m : Move) : bool :=
  subscript_ok (fst (from_sq m)) && subscript_ok (snd (from_sq m))
  && subscript_ok (fst (to_sq m)) && subscript_ok (snd (to_sq m)).

Definition wrap_move (m : Move) : Move :=
  mkMove (wrap (fst (from_sq m)), wrap (snd (from_sq m)))
         (wrap (fst (to_sq m)), wrap (snd (to_sq m)))
         (promotion m).

(** A finite score between the two mate scores. *)
Definition in_mate_range (s : Score) : Prop :=
  exists q, s = Fin q /\ - mate <= q <= mate.

(** [-x] on a float of the search. *)
Definition sneg (s : Score) : Score :=
  match s with
  | NegInf => PosInf
  | Fin q => Fin (- q)
  | PosInf => NegInf
  end.

(** The exact value of the child reached by [m], for [find_best_move]. *)
Definition child_value (fuel : nat) (board : Board) (depth : Z)
  (maximizing_color : Color) (m : Move) : result Score :=
  child <- apply_move board m true ;;
  full_minimax fuel child depth maximizing_color.

(** A move of [board] whose child [recf] scores between the mate
    scores. *)
Definition child_in_range (recf : Board -> result Score) (board : Board)
  (m : Move) : Prop :=
  exists child s,
    apply_move board m true = Ok child /\ recf child = Ok s /\ in_mate_range s.

(** The comparison of the loop of [find_best_move]: [s] replaces the
    best score [best] of the side. *)
Definition beats (side : Color) (s best : Score) : bool :=
  if color_eqb side white then slt best s else slt s best.

(** The score [find_best_move] computes for the move [m]: the search on
    the open window returns [s] on the child, [s] is the exact value of
    the child and lies between the mate scores. *)
Definition scored (fuel : nat) (board : Board) (max_depth : Z) (side : Color)
  (m : Move) (s : Score) : Prop :=
  (exists child,
     apply_move board m true = Ok child /\
     minimax fuel child (max_depth - 1) NegInf PosInf side = Ok s) /\
  child_value fuel board (max_depth - 1) side m = Ok s /\
  in_mate_range s.

(** Two kings in opposite corners, White to move. *)
Definition corner_kings : Board := board_of_fen "7k/8/8/8/8/8/8/K7 w".

(** The material a cell adds to [evaluate_board]: the value of a white
    piece, minus the value of a black one. *)
Definition cell_value (o : option Piece) : Z :=
  match o with
  | None => 0
  | Some piece =>
      let base := piece_value (upper piece) in
      if isupper piece then base else - base
  end.

(** The sum of [f] over a list of squares. *)
Definition total (f : Square -> Z) (l : list Square) : Z :=
  fold_right (fun sq acc => f sq + acc) 0 l.

(** The occurrences of a square in a list. *)
Definition count_square (a : Square) (l : list Square) : Z :=
  Z.of_nat (List.length (filter (square_eqb a) l)).

(** Both kings are on the board and the side that has just moved is not
    in check. *)
Definition kings_safe (p : Board) : Prop :=
  (exists sq, find_king p white = Some sq) /\
  (exists sq, find_king p black = Some sq) /\
  is_in_check p (opposite (turn p)) = false.

(* ================================================================== *)
(** * Properties *)

(** ** Lists and subscripts *)

Lemma set_nth_length {A : Type} (l : list A) (k : nat) (v : A) :
  List.length (set_nth l k v) = List.length l.
Proof.
  revert k; induction l as [|x t IH]; intros [|k]; simpl; auto.
Qed.

Lemma nth_set_nth_same {A : Type} (l : list A) (k : nat) (v d : A) :
  (k < List.length l)%nat -> nth k (set_nth l k v) d = v.
Proof.
  revert k; induction l as [|x t IH]; intros [|k] Hk; simpl in *;
    try lia; auto.
  apply IH; lia.
Qed.

Lemma nth_set_nth_other {A : Type} (l : list A) (k j : nat) (v d : A) :
  j <> k -> nth j (set_nth l k v) d = nth j l d.
Proof.
  revert k j; induction l as [|x t IH]; intros [|k] [|j] Hjk; simpl;
    try congruence; auto.
Qed.

Lemma py_index_in_range (n : nat) (i : Z) :
  0 <= i < Z.of_nat n -> py_index n i = Ok (Z.to_nat i).
Proof.
  intros H. unfold py_index.
  replace ((0 <=? i) && (i <? Z.of_nat n)) with true; auto.
  symmetry. apply andb_true_iff. split; [apply Z.leb_le | apply Z.ltb_lt]; lia.
Qed.

Lemma on_board_bounds (r c : Z) :
  is_on_board (r, c) = true <-> (0 <= r < 8 /\ 0 <= c < 8).
Proof.
  unfold is_on_board.
  rewrite !andb_true_iff, !Z.leb_le, !Z.ltb_lt. lia.
Qed.

Lemma wf_grid_length (g : Grid) : wf_grid g = true -> List.length g = 8%nat.
Proof.
  unfold wf_grid. rewrite andb_true_iff, Nat.eqb_eq. tauto.
Qed.

Lemma wf_grid_row (g : Grid) (k : nat) :
  wf_grid g = true -> (k < 8)%nat -> List.length (nth k g []) = 8%nat.
Proof.
  intros Hwf Hk. pose proof (wf_grid_length g Hwf) as Hlen.
  unfold wf_grid in Hwf. apply andb_true_iff in Hwf as [_ Hrows].
  rewrite forallb_forall in Hrows.
  apply Nat.eqb_eq, Hrows, nth_In. lia.
Qed.


Lemma wf_set_cell (g : Grid) (r c : Z) (v : option Piece) :
  wf_grid g = true -> 0 <= r < 8 -> wf_grid (set_cell g r c v) = true.
Proof.
  intros Hwf Hr. pose proof (wf_grid_length g Hwf) as Hlen.
  unfold wf_grid, set_cell. rewrite set_nth_length, Hlen. simpl.
  apply forallb_forall. intros row Hin.
  apply In_nth with (d := []) in Hin as [j [Hj Hrow]].
  rewrite set_nth_length in Hj. subst row.
  destruct (Nat.eq_dec j (Z.to_nat r)) as [->|Hne].
  - rewrite nth_set_nth_same by lia.
    rewrite set_nth_length, wf_grid_row; auto. lia.
  - rewrite nth_set_nth_other by auto.
    rewrite wf_grid_row; auto. lia.
Qed.

Lemma cell_set_cell_same (g : Grid) (r c : Z) (v : option Piece) :
  wf_grid g = true -> 0 <= r < 8 -> 0 <= c < 8 ->
  cell (set_cell g r c v) r c = v.
Proof.
  intros Hwf Hr Hc. pose proof (wf_grid_length g Hwf) as Hlen.
  unfold cell, set_cell.
  rewrite nth_set_nth_same by lia.
  apply nth_set_nth_same. rewrite wf_grid_row; auto; lia.
Qed.

Lemma cell_set_cell_other (g : Grid) (r c r' c' : Z) (v : option Piece) :
  wf_grid g = true -> 0 <= r < 8 -> 0 <= r' -> 0 <= c -> 0 <= c' ->
  (r', c') <> (r, c) ->
  cell (set_cell g r c v) r' c' = cell g r' c'.
Proof.
  intros Hwf Hr Hr' Hc Hc' Hne. pose proof (wf_grid_length g Hwf) as Hlen.
  unfold cell, set_cell.
  destruct (Z.eq_dec r' r) as [->|Hrr].
  - rewrite nth_set_nth_same by lia.
    apply nth_set_nth_other. intros E. apply Hne. f_equal. lia.
  - rewrite nth_set_nth_other by lia. reflexivity.
Qed.

(** On a well-formed board the subscripts [self._grid[row][col]] of a
    square on the board do not raise and read [cell]. *)
Lemma cell_subscript (g : Grid) (r c : Z) :
  wf_grid g = true -> is_on_board (r, c) = true ->
  (cells <- py_get g r [] ;; py_get cells c None) = Ok (cell g r c).
Proof.
  intros Hwf Hon. apply on_board_bounds in Hon as [Hr Hc].
  pose proof (wf_grid_length g Hwf) as Hlen.
  unfold py_get. rewrite py_index_in_range by lia. simpl.
  rewrite py_index_in_range; [reflexivity|].
  rewrite wf_grid_row; auto; lia.
Qed.


Lemma apply_move_on_board (b : Board) (m : Move) (switch_turn : bool) :
  wf_board b = true ->
  is_on_board (from_sq m) = true -> is_on_board (to_sq m) = true ->
  apply_move b m switch_turn =
  Ok (mkBoard
        (set_cell (set_cell (grid b) (fst (from_sq m)) (snd (from_sq m)) None)
                  (fst (to_sq m)) (snd (to_sq m)) (moved_piece b m))
        (next_turn b switch_turn)).
Proof.
  destruct m as [[fr fc] [tr tc] promo]. simpl.
  intros Hwf Hf Ht. unfold wf_board in Hwf.
  apply on_board_bounds in Hf as [Hfr Hfc].
  apply on_board_bounds in Ht as [Htr Htc].
  pose proof (wf_grid_length _ Hwf) as Hlen.
  pose proof (wf_set_cell (grid b) fr fc None Hwf Hfr) as Hwf1.
  pose proof (wf_grid_length _ Hwf1) as Hlen1.
  unfold apply_move, py_get, py_set; simpl.
  rewrite Hlen, py_index_in_range by lia. simpl.
  rewrite wf_grid_row, py_index_in_range by (auto; lia). simpl.
  fold (set_cell (grid b) fr fc None).
  rewrite Hlen1, py_index_in_range by lia. simpl.
  rewrite wf_grid_row, py_index_in_range by (auto; lia). simpl.
  reflexivity.
Qed.

Lemma apply_move_wf (b b' : Board) (m : Move) (switch_turn : bool) :
  wf_board b = true ->
  is_on_board (from_sq m) = true -> is_on_board (to_sq m) = true ->
  apply_move b m switch_turn = Ok b' -> wf_board b' = true.
Proof.
  intros Hwf Hf Ht H. rewrite apply_move_on_board in H by auto.
  injection H as <-. unfold wf_board; simpl.
  destruct (to_sq m) as [tr tc], (from_sq m) as [fr fc]. simpl.
  apply on_board_bounds in Hf as [Hfr Hfc].
  apply on_board_bounds in Ht as [Htr Htc].
  apply wf_set_cell; auto. apply wf_set_cell; auto.
Qed.

(* ------------------------------------------------------------------ *)
(** ** Move text *)

Lemma upper_promotion_letter (c : ascii) :
  char_in (upper c) "QRBN" = char_in c "QRBNqrbn".
Proof.
  destruct c as [[] [] [] [] [] [] [] []]; reflexivity.
Qed.

Lemma str_to_square_ok (s : list ascii) :
  square_text_ok s = true -> exists sq, str_to_square s = Ok sq.
Proof.
  destruct s as [|f [|r [|x t]]]; simpl; try discriminate.
  intros H. rewrite andb_true_iff in H. destruct H as [-> ->]. simpl. eauto.
Qed.

Lemma str_to_square_bad (s : list ascii) :
  square_text_ok s = false -> str_to_square s = Raise ValueError.
Proof.
  destruct s as [|f [|r [|x t]]]; simpl; auto.
  intros H. rewrite andb_false_iff in H. destruct H as [-> | ->]; simpl; auto.
  rewrite orb_true_r. reflexivity.
Qed.

(** C8, as the code has it: [from_long_algebraic] raises its format
    error exactly when the trimmed length is not 4 or 5, or one of the two
    square fields is not a file letter a-h followed by a rank digit 1-8,
    or the fifth character is not one of Q, R, B, N in either case; it
    raises nothing else, and a text that passes these checks is decoded
    whatever the position. *)
Theorem from_long_algebraic_failure (s : string) :
  (from_long_algebraic s = Raise ValueError <->
   bad_length s = true \/ bad_squares s = true \/ bad_promotion s = true)
  /\ (forall e, from_long_algebraic s = Raise e -> e = ValueError).
Proof.
  unfold from_long_algebraic, bad_length, bad_squares, bad_promotion, trimmed.
  set (t := strip (chars s)).
  destruct ((List.length t =? 4)%nat || (List.length t =? 5)%nat) eqn:Hlen;
    cbn [negb].
  2:{ split; [tauto | intros e H; congruence]. }
  destruct (square_text_ok (firstn 2 t)) eqn:Hs1; cbn [negb orb].
  2:{ rewrite (str_to_square_bad _ Hs1). cbn [bind].
      split; [tauto | intros e H; congruence]. }
  destruct (str_to_square_ok _ Hs1) as [sq1 ->]. cbn [bind].
  destruct (square_text_ok (firstn 2 (skipn 2 t))) eqn:Hs2; cbn [negb orb].
  2:{ rewrite (str_to_square_bad _ Hs2). cbn [bind].
      split; [tauto | intros e H; congruence]. }
  destruct (str_to_square_ok _ Hs2) as [sq2 ->]. cbn [bind].
  rewrite upper_promotion_letter.
  destruct (List.length t =? 5)%nat; cbn [andb].
  - destruct (char_in (nth 4 t "000"%char) "QRBNqrbn"); cbn [negb]; split;
      try tauto; try (intros e H; congruence).
    split; [discriminate|]. intros [H|[H|H]]; discriminate.
  - split; [|intros e H; congruence].
    split; [discriminate|]. intros [H|[H|H]]; discriminate.
Qed.

(** C8, as stated, fails: the four-character text z9z9 has an accepted
    length and no promotion letter, and is rejected for its squares. *)
Lemma format_failure_claim_fails : ~ format_failure_claim "z9z9".
Proof.
  unfold format_failure_claim. intros [H _].
  assert (E : from_long_algebraic "z9z9" = Raise ValueError) by reflexivity.
  destruct (H E) as [A|A]; vm_compute in A; discriminate.
Qed.

(** C9: a move returned by [from_long_algebraic] carries no promotion or
    one of the uppercase letters Q, R, B, N, whatever the case of the
    fifth character of the text. *)
Theorem from_long_algebraic_promotion_upper (s : string) (m : Move) :
  from_long_algebraic s = Ok m ->
  promotion m = None \/
  promotion m = Some "Q"%char \/ promotion m = Some "R"%char \/
  promotion m = Some "B"%char \/ promotion m = Some "N"%char.
Proof.
  unfold from_long_algebraic.
  set (t := strip (chars s)).
  destruct (negb _); [discriminate|].
  destruct (str_to_square (firstn 2 t)) as [sq1|]; cbn [bind]; [|discriminate].
  destruct (str_to_square (firstn 2 (skipn 2 t))) as [sq2|]; cbn [bind];
    [|discriminate].
  destruct (List.length t =? 5)%nat.
  - generalize (upper (nth 4 t "000"%char)). intros c.
    destruct (negb (char_in c "QRBN")) eqn:Hc; [discriminate|].
    intros H. injection H as <-. simpl. right.
    apply negb_false_iff in Hc. unfold char_in in Hc. simpl in Hc.
    rewrite !orb_true_iff in Hc.
    destruct Hc as [Hc|[Hc|[Hc|[Hc|Hc]]]]; try discriminate;
      apply Ascii.eqb_eq in Hc; subst c; tauto.
  - intros H. injection H as <-. simpl. auto.
Qed.

Lemma from_long_algebraic_promotion_upper_witness :
  from_long_algebraic "e7e8q" = Ok (mkMove (1, 4) (0, 4) (Some "Q"%char)) /\
  (promotion (mkMove (1, 4) (0, 4) (Some "Q"%char)) = None \/
   promotion (mkMove (1, 4) (0, 4) (Some "Q"%char)) = Some "Q"%char \/
   promotion (mkMove (1, 4) (0, 4) (Some "Q"%char)) = Some "R"%char \/
   promotion (mkMove (1, 4) (0, 4) (Some "Q"%char)) = Some "B"%char \/
   promotion (mkMove (1, 4) (0, 4) (Some "Q"%char)) = Some "N"%char).
Proof.
  split; [reflexivity|].
  apply (from_long_algebraic_promotion_upper "e7e8q"). reflexivity.
Defined.

(* ------------------------------------------------------------------ *)
(** ** FEN: the side-to-move field *)

(** C10: when the text has at least two fields and the board field
    parses, [from_fen] returns a board and does not raise; the side to
    move is white when the second field is exactly w and black for any
    other second field. *)
Theorem from_fen_turn (fen : string) (board_part turn_part : list ascii)
  (rest : list (list ascii)) (g : Grid) :
  split_ws (strip (chars fen)) = board_part :: turn_part :: rest ->
  parse_board board_part = Ok g ->
  from_fen fen =
  Ok (mkBoard g (if String.eqb (text turn_part) "w" then white else black)).
Proof.
  intros Hparts Hboard. unfold from_fen. rewrite Hparts, Hboard. reflexivity.
Qed.

Lemma from_fen_turn_witness :
  from_fen "8/8/8/8/8/8/8/8 x" =
  Ok (mkBoard (repeat (repeat None 8) 8)
        (if String.eqb (text (chars "x")) "w" then white else black)).
Proof.
  apply (from_fen_turn "8/8/8/8/8/8/8/8 x" (chars "8/8/8/8/8/8/8/8") (chars "x") []);
    reflexivity.
Defined.

(* ------------------------------------------------------------------ *)
(** ** Squares *)

Lemma square_eqb_eq (a b : Square) : square_eqb a b = true <-> a = b.
Proof.
  destruct a as [r c], b as [r' c']. unfold square_eqb; simpl.
  rewrite andb_true_iff, !Z.eqb_eq. split; [intros [-> ->]; auto|].
  intros H; injection H; auto.
Qed.

Lemma in_range8 (x : Z) : In x range8 <-> 0 <= x < 8.
Proof.
  unfold range8; simpl. split; [intuition lia|].
  intros H.
  assert (x = 0 \/ x = 1 \/ x = 2 \/ x = 3 \/ x = 4 \/ x = 5 \/ x = 6 \/ x = 7)
    by lia.
  intuition auto.
Qed.

Lemma in_all_squares (r c : Z) :
  In (r, c) all_squares <-> (0 <= r < 8 /\ 0 <= c < 8).
Proof.
  unfold all_squares. rewrite in_flat_map. split.
  - intros [row [Hrow Hin]]. apply in_map_iff in Hin as [col [E Hcol]].
    injection E as <- <-. rewrite <- !in_range8. auto.
  - intros [Hr Hc]. exists r. rewrite in_range8. split; auto.
    apply in_map_iff. exists c. rewrite in_range8. auto.
Qed.

(* ------------------------------------------------------------------ *)
(** ** Pawn promotion *)

Lemma promotions_four (color : Color) (square target : Square) :
  promotions color square target = four_promotions color square target.
Proof. destruct color; reflexivity. Qed.

Lemma moves_to_four (color : Color) (square t target : Square) :
  moves_to target (four_promotions color square t) =
  if square_eqb t target then four_promotions color square t else [].
Proof.
  unfold moves_to. destruct color; simpl; destruct (square_eqb t target); auto.
Qed.

Lemma far_rank_row (color : Color) :
  (if color_eqb color white then 0 else 7) = far_rank color.
Proof. destruct color; reflexivity. Qed.

(** The moves emitted for one destination of a pawn, seen from a square
    [(far_rank color, tc)]: four promotions when it is that square, one
    plain move to another row otherwise. *)
Lemma moves_to_destination (color : Color) (square : Square) (r c tc : Z) :
  moves_to (far_rank color, tc)
    (if r =? far_rank color
     then four_promotions color square (r, c)
     else [mkMove square (r, c) None]) =
  if (r =? far_rank color) && (c =? tc)
  then four_promotions color square (far_rank color, tc)
  else [].
Proof.
  destruct (Z.eqb_spec r (far_rank color)) as [->|Hr]; cbn [andb].
  - rewrite moves_to_four. unfold square_eqb; cbn [fst snd].
    rewrite Z.eqb_refl. cbn [andb].
    destruct (Z.eqb_spec c tc) as [->|Hc]; reflexivity.
  - unfold moves_to, square_eqb; cbn [filter to_sq fst snd].
    destruct (Z.eqb_spec r (far_rank color)); [contradiction|reflexivity].
Qed.

Lemma pawn_step_direction (color : Color) :
  (if color_eqb color white then -1 else 1) = pawn_step color.
Proof. destruct color; reflexivity. Qed.

(** The double step starts on the pawn's start row, so it never ends on
    the far rank. *)
Lemma moves_to_double (color : Color) (square : Square) (row col tc : Z)
  (guard : bool) :
  moves_to (far_rank color, tc)
    (if (row =? (if color_eqb color white then 6 else 1)) && guard
     then [mkMove square (row + 2 * pawn_step color, col) None]
     else []) = [].
Proof.
  destruct (Z.eqb_spec row (if color_eqb color white then 6 else 1)) as [->|];
    cbn [andb]; [|reflexivity].
  destruct guard; [|reflexivity].
  destruct color; reflexivity.
Qed.

(** One capture direction of [_pawn_moves], seen from a far-rank square. *)
Lemma moves_to_capture (b : Board) (color : Color) (row col dc tc : Z) :
  moves_to (far_rank color, tc)
    (let target := (row + pawn_step color, col + dc) in
     if negb (is_on_board target) then []
     else match piece_at b target with
          | None => []
          | Some target_piece =>
              if enemy color target_piece then
                if fst target =? far_rank color
                then four_promotions color (row, col) target
                else [mkMove (row, col) target None]
              else []
          end) =
  if is_on_board (far_rank color, tc)
     && (far_rank color =? row + pawn_step color)
     && (tc =? col + dc)
     && match piece_at b (far_rank color, tc) with
        | Some target_piece => enemy color target_piece
        | None => false
        end
  then four_promotions color (row, col) (far_rank color, tc)
  else [].
Proof.
  cbv zeta. cbn [fst].
  destruct (Z.eqb_spec (far_rank color) (row + pawn_step color)) as [E|N];
    [destruct (Z.eqb_spec tc (col + dc)) as [E'|N']|].
  - rewrite <- E, <- E'.
    destruct (is_on_board (far_rank color, tc)); cbn [negb andb]; [|reflexivity].
    destruct (piece_at b (far_rank color, tc)) as [p|]; [|reflexivity].
    destruct (enemy color p); [|reflexivity].
    rewrite Z.eqb_refl, moves_to_four.
    unfold square_eqb; cbn [fst snd]. rewrite !Z.eqb_refl. reflexivity.
  - rewrite !andb_false_r. cbn [andb].
    destruct (negb _); [reflexivity|].
    destruct (piece_at b _) as [p|]; [|reflexivity].
    destruct (enemy color p); [|reflexivity].
    rewrite moves_to_destination.
    destruct (Z.eqb_spec (col + dc) tc) as [Ec|]; [lia|].
    rewrite andb_false_r. reflexivity.
  - rewrite andb_false_r. cbn [andb].
    destruct (negb _); [reflexivity|].
    destruct (piece_at b _) as [p|]; [|reflexivity].
    destruct (enemy color p); [|reflexivity].
    rewrite moves_to_destination.
    destruct (Z.eqb_spec (row + pawn_step color) (far_rank color)) as [Er|];
      [lia|reflexivity].
Qed.

(** The pawn moves that end on a far-rank square. *)
Lemma pawn_moves_to_far_rank (b : Board) (square target : Square) (color : Color) :
  fst target = far_rank color ->
  moves_to target (pawn_moves b square color) =
  if pawn_reaches b square color target
  then four_promotions color square target
  else [].
Proof.
  destruct square as [row col], target as [tr tc]. cbn [fst]. intros ->.
  unfold pawn_reaches, pawn_push, pawn_capture, pawn_moves.
  rewrite far_rank_row, !pawn_step_direction.
  cbn [flat_map fst snd]. rewrite !promotions_four, app_nil_r.
  unfold moves_to at 1. rewrite !filter_app. fold (moves_to (far_rank color, tc)).
  pose proof (moves_to_capture b color row col (-1) tc) as Hl.
  pose proof (moves_to_capture b color row col 1 tc) as Hr.
  cbv zeta in Hl, Hr. cbn [fst] in Hl, Hr.
  unfold moves_to in Hl, Hr |- *.
  rewrite Hl, Hr. clear Hl Hr.
  replace (col - 1) with (col + -1) by lia.
  set (four := four_promotions color (row, col) (far_rank color, tc)).
  set (on := is_on_board (far_rank color, tc)).
  set (at_target := piece_at b (far_rank color, tc)).
  (* the forward step *)
  match goal with
  | |- filter ?f (if ?g then ?D ++ ?DB else []) ++ _ = _ =>
      assert (Hf : filter f (if g then D ++ DB else []) =
                   if on && (far_rank color =? row + pawn_step color)
                      && (tc =? col) && is_none at_target
                   then four else [])
  end.
  { destruct (Z.eqb_spec (far_rank color) (row + pawn_step color)) as [E|N];
      [destruct (Z.eqb_spec tc col) as [E'|N']|].
    - subst on at_target four. rewrite <- E, E'.
      destruct (is_on_board (far_rank color, col)); cbn [andb]; [|reflexivity].
      destruct (is_none (piece_at b (far_rank color, col))) eqn:Hn;
        cbn [andb]; [|reflexivity].
      rewrite filter_app.
      pose proof (moves_to_destination color (row, col) (far_rank color) col col) as Hd.
      pose proof (moves_to_double color (row, col) row col col
                    (is_none (piece_at b (row + 2 * pawn_step color, col))
                     && true)) as Hb.
      unfold moves_to in Hd, Hb. rewrite andb_assoc in Hb.
      rewrite Hd, Hb, !Z.eqb_refl, app_nil_r. reflexivity.
    - rewrite !andb_false_r. cbn [andb].
      match goal with |- filter _ (if ?g then _ else _) = _ => destruct g end;
        [|reflexivity].
      rewrite filter_app.
      pose proof (moves_to_destination color (row, col)
                    (row + pawn_step color) col tc) as Hd.
      pose proof (moves_to_double color (row, col) row col tc
                    (is_none (piece_at b (row + 2 * pawn_step color, col))
                     && is_none (piece_at b (row + pawn_step color, col)))) as Hb.
      unfold moves_to in Hd, Hb. rewrite andb_assoc in Hb.
      rewrite Hd, Hb, app_nil_r.
      destruct (Z.eqb_spec col tc) as [Ec|]; [congruence|].
      rewrite andb_false_r. reflexivity.
    - rewrite andb_false_r. cbn [andb].
      match goal with |- filter _ (if ?g then _ else _) = _ => destruct g end;
        [|reflexivity].
      rewrite filter_app.
      pose proof (moves_to_destination color (row, col)
                    (row + pawn_step color) col tc) as Hd.
      pose proof (moves_to_double color (row, col) row col tc
                    (is_none (piece_at b (row + 2 * pawn_step color, col))
                     && is_none (piece_at b (row + pawn_step color, col)))) as Hb.
      unfold moves_to in Hd, Hb. rewrite andb_assoc in Hb.
      rewrite Hd, Hb, app_nil_r.
      destruct (Z.eqb_spec (row + pawn_step color) (far_rank color)) as [Er|];
        [congruence|reflexivity]. }
  rewrite Hf. clear Hf.
  clearbody four on at_target.
  destruct on; cbn [andb orb app]; [|reflexivity].
  destruct (far_rank color =? row + pawn_step color); cbn [andb orb app];
    [|reflexivity].
  destruct (Z.eqb_spec tc col) as [E0|N0];
    destruct (Z.eqb_spec tc (col + -1)) as [E1|N1];
    destruct (Z.eqb_spec tc (col + 1)) as [E2|N2]; try lia;
    cbn [andb orb app];
    destruct at_target as [p|]; cbn [is_none andb orb app];
    try destruct (enemy color p); cbn [app]; rewrite ?app_nil_r; reflexivity.
Qed.

(** C6: the pseudo-legal moves of a pawn that end on a square of the far
    rank of its color (row 0 for a white pawn, row 7 for a black one) are
    exactly the four promotion moves to Q, R, B, N, in that order and with
    the letters in the case of the pawn, whenever the pawn has a push to
    that square (the square straight ahead, on the board and empty) or a
    capture there (a square diagonally ahead, on the board, holding a
    piece of the opponent); otherwise no move ends there.  So a
    qualifying push or capture yields exactly four candidate moves, and a
    plain move to the far rank is never emitted. *)
Theorem pawn_far_rank_four_promotions (b : Board) (square target : Square)
  (piece : Piece) :
  wf_board b = true ->
  upper piece = "P"%char ->
  fst target = far_rank (piece_color piece) ->
  moves_to target (moves_for_piece b square piece) =
  if pawn_reaches b square (piece_color piece) target
  then four_promotions (piece_color piece) square target
  else [].
Proof.
  intros _ Hp Hrow. unfold moves_for_piece. rewrite Hp, Ascii.eqb_refl.
  apply pawn_moves_to_far_rank. exact Hrow.
Qed.

Lemma pawn_far_rank_four_promotions_witness :
  wf_board promotion_board = true /\
  upper "P"%char = "P"%char /\
  fst (0, 1) = far_rank (piece_color "P"%char) /\
  pawn_reaches promotion_board (1, 0) (piece_color "P"%char) (0, 1) = true /\
  moves_to (0, 1) (moves_for_piece promotion_board (1, 0) "P"%char) =
  four_promotions (piece_color "P"%char) (1, 0) (0, 1).
Proof.
  split; [reflexivity|]. split; [reflexivity|]. split; [reflexivity|].
  split; [reflexivity|].
  apply (pawn_far_rank_four_promotions
           promotion_board (1, 0) (0, 1) "P"%char);
    reflexivity.
Defined.

(** A push and a capture to the far rank both produce the four moves. *)
Example white_pawn_push_and_capture :
  moves_for_piece promotion_board (1, 0) "P"%char =
  four_promotions white (1, 0) (0, 0) ++ four_promotions white (1, 0) (0, 1).
Proof. reflexivity. Qed.

(* ------------------------------------------------------------------ *)
(** ** Check detection *)

Lemma find_king_none (b : Board) (color : Color) :
  find_king b color = None <-> no_king b color.
Proof.
  unfold find_king, no_king. split.
  - intros H row col Hr Hc E.
    pose proof (find_none _ _ H (row, col)) as Hn.
    rewrite in_all_squares in Hn. specialize (Hn (conj Hr Hc)).
    rewrite E in Hn. simpl in Hn. rewrite Ascii.eqb_refl in Hn. discriminate.
  - intros H.
    destruct (find _ all_squares) as [[r c]|] eqn:E; auto.
    apply find_some in E as [Hin Hp]. apply in_all_squares in Hin as [Hr Hc].
    exfalso. apply (H r c Hr Hc).
    unfold piece_eqb in Hp. destruct (piece_at b (r, c)); [|discriminate].
    apply Ascii.eqb_eq in Hp. congruence.
Qed.

Lemma find_king_some (b : Board) (color : Color) (sq : Square) :
  find_king b color = Some sq ->
  is_on_board sq = true /\ piece_at b sq = Some (king_symbol color).
Proof.
  unfold find_king. intros E. apply find_some in E as [Hin Hp].
  destruct sq as [r c]. apply in_all_squares in Hin. split.
  - apply on_board_bounds. exact Hin.
  - unfold piece_eqb in Hp. destruct (piece_at b (r, c)); [|discriminate].
    apply Ascii.eqb_eq in Hp. congruence.
Qed.

(** C5: on a board of 8 by 8 cells, [is_in_check] answers true exactly
    when no cell holds the king of that color, or the king square found
    by the row-major scan is the destination of some move of the pseudo
    generator for the opposite color. *)
Theorem is_in_check_iff (b : Board) (color : Color) :
  wf_board b = true ->
  (is_in_check b color = true <->
   no_king b color \/
   exists king_sq,
     find_king b color = Some king_sq /\
     piece_at b king_sq = Some (king_symbol color) /\
     targeted b color king_sq).
Proof.
  intros _. unfold is_in_check, targeted.
  destruct (find_king b color) as [ksq|] eqn:Ek.
  - rewrite existsb_exists. split.
    + intros [m [Hin Hm]]. right. exists ksq. split; auto.
      split; [apply (find_king_some _ _ _ Ek)|].
      exists m. rewrite square_eqb_eq in Hm. auto.
    + intros [Hno | [k [E [_ [m [Hin Hm]]]]]].
      * apply find_king_none in Hno. congruence.
      * injection E as <-. exists m. rewrite square_eqb_eq. auto.
  - split; auto. intros _. left. apply find_king_none. exact Ek.
Qed.

Lemma is_in_check_iff_witness :
  wf_board fools_mate = true /\
  (is_in_check fools_mate white = true <->
   no_king fools_mate white \/
   exists king_sq,
     find_king fools_mate white = Some king_sq /\
     piece_at fools_mate king_sq = Some (king_symbol white) /\
     targeted fools_mate white king_sq).
Proof.
  split; [reflexivity|]. apply (is_in_check_iff fools_mate white). reflexivity.
Defined.

(** The test of the repository: white is in check after the fool's mate. *)
Example fools_mate_in_check : is_in_check fools_mate white = true.
Proof. reflexivity. Qed.

(* ------------------------------------------------------------------ *)
(** ** The search without legal moves *)

(** C4: when the side to move has no legal move, [find_best_move]
    returns no move and, whatever the depth, the score -10000 if white is
    to move and in check, +10000 if black is to move and in check, and 0
    if the side to move is not in check. *)
Theorem find_best_move_no_moves (fuel : nat) (board : Board) (max_depth : Z) :
  wf_board board = true ->
  generate_legal_moves board (Some (turn board)) = Ok [] ->
  find_best_move fuel board max_depth =
  Ok (mkSearchResult None
        (if is_in_check board (turn board)
         then match turn board with
              | white => Fin (- pawns 10000)
              | black => Fin (pawns 10000)
              end
         else Fin 0)).
Proof.
  intros _ Hnone. unfold find_best_move. rewrite Hnone. cbn [bind].
  unfold no_moves_score, mate.
  destruct (is_in_check board (turn board)); auto.
  destruct (turn board); reflexivity.
Qed.

Lemma find_best_move_no_moves_witness :
  wf_board fools_mate = true /\
  generate_legal_moves fools_mate (Some (turn fools_mate)) = Ok [] /\
  find_best_move 0 fools_mate 3 =
  Ok (mkSearchResult None
        (if is_in_check fools_mate (turn fools_mate)
         then match turn fools_mate with
              | white => Fin (- pawns 10000)
              | black => Fin (pawns 10000)
              end
         else Fin 0)).
Proof.
  split; [reflexivity|]. split; [vm_compute; reflexivity|].
  apply (find_best_move_no_moves 0 fools_mate 3); vm_compute; reflexivity.
Defined.

Example find_best_move_mated_white :
  find_best_move 0 fools_mate 3 = Ok (mkSearchResult None (Fin (-40000))).
Proof. vm_compute. reflexivity. Qed.

Example find_best_move_mated_black :
  find_best_move 0 (board_of_fen "7k/5KQ1/8/8/8/8/8/8 b") 3 =
  Ok (mkSearchResult None (Fin 40000)).
Proof. vm_compute. reflexivity. Qed.

Example find_best_move_stalemate :
  find_best_move 0 (board_of_fen "7k/5K2/6Q1/8/8/8/8/8 b") 3 =
  Ok (mkSearchResult None (Fin 0)).
Proof. vm_compute. reflexivity. Qed.

(* ------------------------------------------------------------------ *)
(** ** Move application *)

(** C2, as the code has it: on a board of 8 by 8 cells, for a move whose
    origin and destination are on the board and differ, and whose
    promotion symbol, if any, is in the case of the piece on the origin,
    [apply_move] returns a board whose origin cell is empty, whose
    destination cell holds the origin piece or the promotion symbol,
    whose other cells are unchanged, and whose side to move is toggled
    exactly when [switch_turn] is true. *)
Theorem apply_move_effect (p : Board) (m : Move) (switch_turn : bool) :
  wf_board p = true ->
  is_on_board (from_sq m) = true ->
  is_on_board (to_sq m) = true ->
  square_eqb (from_sq m) (to_sq m) = false ->
  promotion_cased p m = true ->
  apply_move_claim p m switch_turn.
Proof.
  intros Hwf Hf Ht Hne Hcase.
  unfold apply_move_claim. rewrite apply_move_on_board by auto.
  eexists. split; [reflexivity|].
  assert (Hneq : from_sq m <> to_sq m).
  { intros E. apply square_eqb_eq in E. congruence. }
  unfold destination_claim, promotion_cased, moved_piece in *.
  destruct m as [[fr fc] [tr tc] promo]. cbn [from_sq to_sq promotion fst snd] in *.
  pose proof Hf as Hf'. pose proof Ht as Ht'.
  apply on_board_bounds in Hf' as [Hfr Hfc].
  apply on_board_bounds in Ht' as [Htr Htc].
  unfold wf_board in Hwf.
  pose proof (wf_set_cell (grid p) fr fc None Hwf Hfr) as Hwf1.
  unfold piece_at; cbn [grid turn].
  split; [|split; [|split]].
  - rewrite cell_set_cell_other by (auto; lia).
    apply cell_set_cell_same; auto.
  - destruct promo as [promo|].
    + intros piece Hpiece. rewrite cell_set_cell_same by auto.
      unfold piece_at in Hcase. rewrite Hpiece in Hcase.
      apply Ascii.eqb_eq in Hcase. congruence.
    + rewrite cell_set_cell_same by auto. reflexivity.
  - intros [r c] Hon Hnf Hnt. apply on_board_bounds in Hon as [Hr Hc].
    rewrite !cell_set_cell_other by (auto; lia). reflexivity.
  - reflexivity.
Qed.

Lemma apply_move_effect_witness :
  wf_board promotion_board = true /\
  is_on_board (from_sq (mkMove (1, 0) (0, 0) (Some "Q"%char))) = true /\
  is_on_board (to_sq (mkMove (1, 0) (0, 0) (Some "Q"%char))) = true /\
  square_eqb (from_sq (mkMove (1, 0) (0, 0) (Some "Q"%char)))
             (to_sq (mkMove (1, 0) (0, 0) (Some "Q"%char))) = false /\
  promotion_cased promotion_board (mkMove (1, 0) (0, 0) (Some "Q"%char)) = true /\
  apply_move_claim promotion_board (mkMove (1, 0) (0, 0) (Some "Q"%char)) true.
Proof.
  split; [reflexivity|]. split; [reflexivity|]. split; [reflexivity|].
  split; [reflexivity|]. split; [reflexivity|].
  apply (apply_move_effect promotion_board
           (mkMove (1, 0) (0, 0) (Some "Q"%char)) true); reflexivity.
Defined.

(** C2, as stated, fails twice.  A move from a square to itself leaves
    the piece on its origin: after e2e2 on the start position the cell e2
    still holds the white pawn.  And the promotion symbol is written as
    the move carries it: a white pawn promoted by a move carrying the
    lowercase q leaves a black queen on a8. *)
Lemma apply_move_claim_fails :
  ~ apply_move_claim (board_of_fen start_fen) (mkMove (6, 4) (6, 4) None) true /\
  ~ apply_move_claim promotion_board (mkMove (1, 0) (0, 0) (Some "q"%char)) true.
Proof.
  split.
  - intros [p' [Happ [Hfrom _]]].
    vm_compute in Happ. injection Happ as <-.
    vm_compute in Hfrom. discriminate.
  - intros [p' [Happ [_ [Hdest _]]]].
    vm_compute in Happ. injection Happ as <-.
    unfold destination_claim in Hdest. cbn [promotion] in Hdest.
    specialize (Hdest "P"%char eq_refl).
    vm_compute in Hdest. discriminate.
Qed.

(* ------------------------------------------------------------------ *)
(** ** The generated moves stay on the board *)

Lemma Forall_flat_map {A B : Type} (P : B -> Prop) (f : A -> list B) (l : list A) :
  (forall x, In x l -> Forall P (f x)) -> Forall P (flat_map f l).
Proof.
  intros H. apply Forall_forall. intros y Hy.
  apply in_flat_map in Hy as [x [Hx Hy]].
  specialize (H x Hx). rewrite Forall_forall in H. auto.
Qed.

Lemma promotions_emitted (color : Color) (square target : Square) :
  is_on_board target = true ->
  Forall (emitted_from square) (promotions color square target).
Proof.
  intros Hon. rewrite promotions_four.
  destruct color; repeat constructor; auto.
Qed.

Lemma plain_emitted (square target : Square) :
  is_on_board target = true ->
  Forall (emitted_from square) [mkMove square target None].
Proof. intros Hon. repeat constructor; auto. Qed.

Lemma pawn_moves_emitted (b : Board) (square : Square) (color : Color) :
  Forall (emitted_from square) (pawn_moves b square color).
Proof.
  destruct square as [row col]. unfold pawn_moves.
  apply Forall_app. split.
  - destruct (is_on_board (_, col)) eqn:Hon; cbn [andb]; [|constructor].
    destruct (is_none _); [|constructor].
    apply Forall_app. split.
    + destruct (_ =? _); [apply promotions_emitted | apply plain_emitted]; auto.
    + destruct (Z.eqb_spec row (if color_eqb color white then 6 else 1)) as [E|];
        cbn [andb]; [|constructor].
      destruct (_ && _); [|constructor].
      apply plain_emitted.
      apply on_board_bounds in Hon. apply on_board_bounds.
      destruct color; cbn [color_eqb] in *; lia.
  - apply Forall_flat_map. intros dc _.
    destruct (is_on_board (_, col + dc)) eqn:Hon; cbn [negb]; [|constructor].
    destruct (piece_at b _) as [tp|]; [|constructor].
    destruct (enemy color tp); [|constructor].
    destruct (_ =? _); [apply promotions_emitted | apply plain_emitted]; auto.
Qed.

Lemma step_moves_emitted (b : Board) (square : Square) (color : Color)
  (deltas : list (Z * Z)) :
  Forall (emitted_from square) (step_moves b square color deltas).
Proof.
  destruct square as [row col]. unfold step_moves.
  apply Forall_flat_map. intros [dr dc] _.
  destruct (is_on_board (row + dr, col + dc)) eqn:Hon; cbn [negb]; [|constructor].
  destruct (piece_at b _) as [tp|]; [|apply plain_emitted; auto].
  destruct (enemy color tp); [apply plain_emitted; auto|constructor].
Qed.

Lemma ray_emitted (fuel : nat) (b : Board) (square : Square) (color : Color)
  (dr dc r c : Z) :
  Forall (emitted_from square) (ray fuel b square color dr dc r c).
Proof.
  revert r c. induction fuel as [|fuel IH]; intros r c; cbn [ray]; [constructor|].
  destruct ((0 <=? r) && (r <? 8) && (0 <=? c) && (c <? 8)) eqn:Hon; [|constructor].
  destruct (cell (grid b) r c) as [tp|].
  - destruct (enemy color tp); [|constructor]. apply plain_emitted. exact Hon.
  - constructor; [|apply IH]. repeat split; auto.
Qed.

Lemma sliding_moves_emitted (b : Board) (square : Square) (color : Color)
  (directions : list (Z * Z)) :
  Forall (emitted_from square) (sliding_moves b square color directions).
Proof.
  destruct square as [row col]. unfold sliding_moves.
  apply Forall_flat_map. intros [dr dc] _. apply ray_emitted.
Qed.

Lemma moves_for_piece_emitted (b : Board) (square : Square) (piece : Piece) :
  Forall (emitted_from square) (moves_for_piece b square piece).
Proof.
  unfold moves_for_piece, knight_moves, king_moves.
  repeat match goal with
         | |- Forall _ (if ?c then _ else _) => destruct c
         end;
    auto using pawn_moves_emitted, step_moves_emitted, sliding_moves_emitted.
Qed.

Lemma generate_pseudo_moves_ok (b : Board) (color : Color) :
  Forall move_ok (generate_pseudo_moves b color).
Proof.
  unfold generate_pseudo_moves.
  apply Forall_flat_map. intros row Hrow.
  apply Forall_flat_map. intros col Hcol.
  assert (Hon : is_on_board (row, col) = true).
  { apply on_board_bounds. rewrite <- !in_range8. auto. }
  destruct (cell (grid b) row col) as [piece|]; [|constructor].
  assert (H : Forall move_ok (moves_for_piece b (row, col) piece)).
  { eapply Forall_impl; [|apply moves_for_piece_emitted].
    intros m [Hfrom [Hto Hpromo]]. unfold move_ok. rewrite Hfrom. auto. }
  repeat match goal with
         | |- Forall _ (if ?c then _ else _) => destruct c
         end; auto.
Qed.

(** On a well-formed board the legality filter does not raise, and it
    keeps a sub-list of the pseudo-legal moves. *)
Lemma filter_legal_ok (b : Board) (color : Color) (moves : list Move) :
  wf_board b = true ->
  Forall move_ok moves ->
  exists legal,
    filter_legal b color moves = Ok legal /\
    (forall m, In m legal -> In m moves).
Proof.
  intros Hwf. induction 1 as [|m rest [Hf [Ht _]] Hrest [legal [E Hsub]]].
  - exists []. auto.
  - cbn [filter_legal]. rewrite apply_move_on_board by auto. cbn [bind].
    rewrite E. cbn [bind].
    destruct (negb _); eexists; split; try reflexivity; simpl; intuition.
Qed.

Lemma generate_legal_moves_ok (b : Board) (color : option Color) :
  wf_board b = true ->
  exists legal,
    generate_legal_moves b color = Ok legal /\ Forall move_ok legal.
Proof.
  intros Hwf. unfold generate_legal_moves.
  set (c := match color with Some c => c | None => turn b end).
  destruct (filter_legal_ok b c (generate_pseudo_moves b c) Hwf
              (generate_pseudo_moves_ok b c)) as [legal [E Hsub]].
  exists legal. split; auto.
  apply Forall_forall. intros m Hm.
  pose proof (generate_pseudo_moves_ok b c) as Hall.
  rewrite Forall_forall in Hall. auto.
Qed.

(* ------------------------------------------------------------------ *)
(** ** The sliding loop ends within its bound *)

Ltac split_eqb :=
  repeat match goal with
         | |- context [Z.eqb ?a ?b] => destruct (Z.eqb_spec a b)
         end.

Lemma ray_fuel (b : Board) (square : Square) (color : Color) (dr dc : Z) :
  In (dr, dc) queen_directions ->
  forall (n m : nat) (r c : Z),
    (1 <= n)%nat -> (1 <= m)%nat ->
    steps_left dr dc r c < Z.of_nat n ->
    steps_left dr dc r c < Z.of_nat m ->
    ray n b square color dr dc r c = ray m b square color dr dc r c.
Proof.
  intros Hdir. induction n as [|n IH]; intros m r c Hn Hm Hsn Hsm; [lia|].
  destruct m as [|m]; [lia|]. cbn [ray].
  destruct ((0 <=? r) && (r <? 8) && (0 <=? c) && (c <? 8)) eqn:Hon; auto.
  destruct (cell (grid b) r c); auto.
  f_equal.
  assert (Hb : 0 <= r < 8 /\ 0 <= c < 8).
  { rewrite !andb_true_iff, !Z.leb_le, !Z.ltb_lt in Hon. lia. }
  assert (Hstep : steps_left dr dc (r + dr) (c + dc) = steps_left dr dc r c - 1
                  /\ 1 <= steps_left dr dc r c).
  { simpl in Hdir. unfold steps_left.
    repeat (destruct Hdir as [Hdir|Hdir]; [injection Hdir as <- <-; split_eqb; lia|]).
    contradiction. }
  apply IH; lia.
Qed.

(** The bound 8 of [sliding_moves] is never reached: from a square of
    the board, along any of the eight directions, a larger bound yields
    the same moves. *)
Lemma ray_bound_enough (b : Board) (square : Square) (color : Color)
  (dr dc : Z) (fuel : nat) :
  is_on_board square = true ->
  In (dr, dc) queen_directions ->
  (8 <= fuel)%nat ->
  ray fuel b square color dr dc (fst square + dr) (snd square + dc) =
  ray 8 b square color dr dc (fst square + dr) (snd square + dc).
Proof.
  destruct square as [row col]. intros Hon Hdir Hfuel.
  apply on_board_bounds in Hon. cbn [fst snd].
  assert (Hs : steps_left dr dc (row + dr) (col + dc) <= 7).
  { simpl in Hdir. unfold steps_left.
    repeat (destruct Hdir as [Hdir|Hdir]; [injection Hdir as <- <-; split_eqb; lia|]).
    contradiction. }
  apply ray_fuel; auto; lia.
Qed.

(* ------------------------------------------------------------------ *)
(** ** FEN round trip *)

(** *** Splitting and joining *)

Lemma split_on_word (sep : ascii) (w : list ascii) :
  forallb (fun c => negb (Ascii.eqb c sep)) w = true ->
  split_on sep w = [w].
Proof.
  induction w as [|c w IH]; simpl; auto.
  rewrite andb_true_iff, negb_true_iff. intros [-> Hw].
  rewrite IH; auto.
Qed.

Lemma split_on_field (sep : ascii) (w rest : list ascii) :
  forallb (fun c => negb (Ascii.eqb c sep)) w = true ->
  split_on sep (w ++ sep :: rest) = w :: split_on sep rest.
Proof.
  induction w as [|c w IH]; simpl.
  - intros _. rewrite Ascii.eqb_refl. reflexivity.
  - rewrite andb_true_iff, negb_true_iff. intros [-> Hw].
    rewrite IH; auto.
Qed.

Lemma split_on_join (sep : ascii) (rows : list (list ascii)) :
  rows <> [] ->
  Forall (fun w => forallb (fun c => negb (Ascii.eqb c sep)) w = true) rows ->
  split_on sep (join sep rows) = rows.
Proof.
  intros Hne Hall. induction Hall as [|w rows Hw Hrows IH]; [contradiction|].
  destruct rows as [|w' rows'].
  - simpl. apply split_on_word; auto.
  - change (join sep (w :: w' :: rows')) with (w ++ sep :: join sep (w' :: rows')).
    rewrite split_on_field by auto. rewrite IH; [reflexivity|discriminate].
Qed.

Lemma split_ws_from_word (w rest cur : list ascii) :
  forallb (fun c => negb (isspace c)) w = true ->
  split_ws_from (w ++ rest) cur = split_ws_from rest (rev w ++ cur).
Proof.
  revert cur. induction w as [|c w IH]; intros cur; simpl; auto.
  rewrite andb_true_iff, negb_true_iff. intros [-> Hw].
  rewrite IH by auto. rewrite <- app_assoc. reflexivity.
Qed.

Lemma split_ws_two_fields (w : list ascii) (t : ascii) :
  w <> [] ->
  forallb (fun c => negb (isspace c)) w = true ->
  isspace t = false ->
  split_ws (w ++ [" "%char; t]) = [w; [t]].
Proof.
  intros Hne Hw Ht. unfold split_ws.
  rewrite split_ws_from_word by auto. rewrite app_nil_r.
  cbn [split_ws_from]. change (isspace " ") with true. cbn iota.
  rewrite Ht. cbn [rev app].
  destruct (rev w) as [|x xs] eqn:E.
  - apply (f_equal (@rev ascii)) in E. rewrite rev_involutive in E.
    simpl in E. contradiction.
  - rewrite <- E, rev_involutive. reflexivity.
Qed.

Lemma lstrip_head (c : ascii) (l : list ascii) :
  isspace c = false -> lstrip (c :: l) = c :: l.
Proof. intros H. simpl. rewrite H. reflexivity. Qed.

Lemma strip_two_fields (w : list ascii) (t : ascii) :
  w <> [] ->
  forallb (fun c => negb (isspace c)) w = true ->
  isspace t = false ->
  strip (w ++ [" "%char; t]) = w ++ [" "%char; t].
Proof.
  intros Hne Hw Ht. unfold strip.
  destruct w as [|c w]; [contradiction|].
  simpl in Hw. rewrite andb_true_iff, negb_true_iff in Hw. destruct Hw as [Hc _].
  change ((c :: w) ++ [" "%char; t]) with (c :: (w ++ [" "%char; t])).
  rewrite (lstrip_head c) by auto.
  change (c :: (w ++ [" "%char; t])) with ((c :: w) ++ [" "%char] ++ [t]).
  rewrite !rev_app_distr. cbn [rev app].
  rewrite (lstrip_head t) by auto.
  cbn [rev]. rewrite !rev_app_distr, rev_involutive. cbn [rev app].
  rewrite <- !app_assoc. reflexivity.
Qed.

(** *** One row *)

Lemma count_digit (e : nat) :
  (1 <= e <= 9)%nat ->
  isdigit (ascii_of_nat (48 + e)) = true /\
  int_of_char (ascii_of_nat (48 + e)) = Ok e /\
  plain (ascii_of_nat (48 + e)) = true.
Proof.
  intros H.
  do 10 (destruct e as [|e]; [try lia; vm_compute; auto|]). lia.
Qed.

Lemma fen_row_loop_acc (cells : list (option Piece)) (e : nat) (acc : list ascii) :
  fen_row_loop cells e acc = acc ++ fen_row_loop cells e [].
Proof.
  revert e acc. induction cells as [|[p|] rest IH]; intros e acc; cbn [fen_row_loop].
  - destruct (e =? 0)%nat; [rewrite app_nil_r|]; reflexivity.
  - rewrite (IH _ (_ ++ [p])). rewrite (IH _ ((if (e =? 0)%nat then [] else _) ++ _)).
    destruct (e =? 0)%nat; rewrite <- ?app_assoc; reflexivity.
  - apply IH.
Qed.

Lemma parse_row_app (s1 s2 : list ascii) (row : list (option Piece)) :
  parse_row (s1 ++ s2) row = (r <- parse_row s1 row ;; parse_row s2 r).
Proof.
  revert row. induction s1 as [|c s1 IH]; intros row; cbn [parse_row app bind]; auto.
  destruct (isdigit c); [|apply IH].
  destruct (int_of_char c); cbn [bind]; auto.
Qed.

Lemma parse_row_count (e : nat) (row : list (option Piece)) :
  (1 <= e <= 9)%nat ->
  parse_row (str_count e) row = Ok (row ++ repeat None e).
Proof.
  intros H. destruct (count_digit e H) as [Hd [Hi _]].
  unfold str_count. cbn [parse_row]. rewrite Hd, Hi. reflexivity.
Qed.

Lemma parse_row_piece (p : Piece) (row : list (option Piece)) :
  isdigit p = false -> parse_row [p] row = Ok (row ++ [Some p]).
Proof. intros H. cbn [parse_row]. rewrite H. reflexivity. Qed.

Lemma fen_safe_parts (p : ascii) :
  fen_safe p = true -> isdigit p = false /\ plain p = true.
Proof.
  unfold fen_safe, plain. rewrite !andb_true_iff, !negb_true_iff. tauto.
Qed.

(** Reading back what the row loop wrote, from the loop state
    ([empty] counted, [row] already read). *)
Lemma parse_fen_row_loop (cells : list (option Piece)) (e : nat)
  (row : list (option Piece)) :
  cells_safe cells = true ->
  (e + List.length cells <= 9)%nat ->
  parse_row (fen_row_loop cells e []) row = Ok (row ++ repeat None e ++ cells).
Proof.
  revert e row. induction cells as [|[p|] rest IH]; intros e row Hsafe Hlen;
    cbn [fen_row_loop].
  - destruct (Nat.eqb_spec e 0) as [->|Hne].
    + simpl. rewrite app_nil_r. reflexivity.
    + simpl in Hlen. rewrite app_nil_l, app_nil_r. apply parse_row_count. lia.
  - simpl in Hsafe, Hlen. apply andb_true_iff in Hsafe as [Hp Hrest].
    apply fen_safe_parts in Hp as [Hp _].
    rewrite fen_row_loop_acc, !parse_row_app.
    destruct (Nat.eqb_spec e 0) as [->|Hne].
    + change (parse_row [] row) with (Ok row). cbn [bind].
      rewrite parse_row_piece by auto. cbn [bind].
      rewrite IH by (auto; simpl; lia). simpl. rewrite <- app_assoc. reflexivity.
    + rewrite app_nil_l, parse_row_count by lia. cbn [bind].
      rewrite parse_row_piece by auto. cbn [bind].
      rewrite IH by (auto; simpl; lia). simpl.
      rewrite <- !app_assoc. reflexivity.
  - simpl in Hsafe, Hlen. rewrite IH by (auto; lia).
    cbn [repeat]. rewrite repeat_cons, <- !app_assoc. reflexivity.
Qed.

Lemma parse_fen_cells (cells : list (option Piece)) :
  cells_safe cells = true -> List.length cells = 8%nat ->
  parse_row (fen_cells cells) [] = Ok cells.
Proof.
  intros Hsafe Hlen. unfold fen_cells.
  rewrite parse_fen_row_loop by (auto; lia). reflexivity.
Qed.

(** The row loop writes digits and pieces only, and something for a
    non-empty state. *)
Lemma fen_row_loop_plain (cells : list (option Piece)) (e : nat) :
  cells_safe cells = true ->
  (e + List.length cells <= 9)%nat ->
  forallb plain (fen_row_loop cells e []) = true /\
  ((1 <= e + List.length cells)%nat -> fen_row_loop cells e [] <> []).
Proof.
  revert e. induction cells as [|[p|] rest IH]; intros e Hsafe Hlen;
    cbn [fen_row_loop].
  - simpl in Hlen. destruct (Nat.eqb_spec e 0) as [->|Hne].
    + split; [reflexivity | simpl; lia].
    + destruct (count_digit e ltac:(lia)) as [_ [_ Hp]].
      rewrite app_nil_l. unfold str_count. cbn [forallb]. rewrite Hp.
      split; [reflexivity | discriminate].
  - simpl in Hsafe, Hlen. apply andb_true_iff in Hsafe as [Hp Hrest].
    apply fen_safe_parts in Hp as [_ Hp].
    rewrite fen_row_loop_acc.
    destruct (IH 0%nat Hrest ltac:(simpl; lia)) as [Hpl _].
    rewrite forallb_app, Hpl, andb_true_r.
    destruct (Nat.eqb_spec e 0) as [->|Hne].
    + cbn [app forallb]. rewrite Hp. split; [reflexivity | discriminate].
    + destruct (count_digit e ltac:(lia)) as [_ [_ Hd]].
      unfold str_count. cbn [app forallb]. rewrite Hd, Hp.
      split; [reflexivity | discriminate].
  - simpl in Hsafe, Hlen.
    destruct (IH (S e) Hsafe ltac:(lia)) as [Hpl Hne].
    split; auto. intros _. apply Hne. lia.
Qed.

Lemma plain_no_space (w : list ascii) :
  forallb plain w = true -> forallb (fun c => negb (isspace c)) w = true.
Proof.
  rewrite !forallb_forall. intros H c Hc. specialize (H c Hc).
  unfold plain in H. apply andb_true_iff in H. tauto.
Qed.

Lemma plain_no_slash (w : list ascii) :
  forallb plain w = true ->
  forallb (fun c => negb (Ascii.eqb c "/")) w = true.
Proof.
  rewrite !forallb_forall. intros H c Hc. specialize (H c Hc).
  unfold plain in H. apply andb_true_iff in H. tauto.
Qed.

(** *** The rows of a board *)

Lemma nth_range8 {A : Type} (l : list A) (d : A) :
  List.length l = 8%nat -> map (fun i => nth (Z.to_nat i) l d) range8 = l.
Proof.
  intros H. do 9 (destruct l as [|? l]; try discriminate). reflexivity.
Qed.

Lemma fen_rows_of_grid (g : Grid) :
  wf_grid g = true -> map (fen_row g) range8 = map fen_cells g.
Proof.
  intros Hwf. pose proof (wf_grid_length g Hwf) as Hlen.
  rewrite <- (nth_range8 g [] Hlen) at 2. rewrite map_map.
  apply map_ext_in. intros r Hr. apply in_range8 in Hr.
  unfold fen_row, fen_cells, cell.
  rewrite nth_range8; auto. apply wf_grid_row; auto. lia.
Qed.

Lemma parse_rows_fen (rows : Grid) (g : Grid) :
  Forall (fun cells => cells_safe cells = true /\ List.length cells = 8%nat) rows ->
  parse_rows (map fen_cells rows) g = Ok (g ++ rows).
Proof.
  intros H. revert g. induction H as [|cells rows [Hs Hl] _ IH]; intros g.
  - simpl. rewrite app_nil_r. reflexivity.
  - cbn [map parse_rows]. rewrite parse_fen_cells by auto. cbn [bind].
    rewrite Hl. cbn [Nat.eqb negb]. rewrite IH, <- app_assoc. reflexivity.
Qed.

Lemma join_plain (rows : list (list ascii)) :
  Forall (fun w => forallb plain w = true) rows ->
  forallb (fun c => negb (isspace c)) (join "/" rows) = true.
Proof.
  induction 1 as [|w rows Hw _ IH]; auto.
  destruct rows as [|w' rows'].
  - simpl. apply plain_no_space; auto.
  - change (join "/" (w :: w' :: rows')) with (w ++ "/"%char :: join "/" (w' :: rows')).
    rewrite forallb_app. rewrite (plain_no_space w Hw).
    cbn [forallb andb]. rewrite IH. reflexivity.
Qed.

Lemma join_not_nil (sep : ascii) (w : list ascii) (rows : list (list ascii)) :
  w <> [] -> join sep (w :: rows) <> [].
Proof.
  intros Hw. destruct rows; simpl; auto.
  destruct w; [contradiction|discriminate].
Qed.

Lemma piece_ok_safe (c : Piece) : piece_ok c = true -> fen_safe c = true.
Proof.
  unfold piece_ok, char_in. simpl. rewrite !orb_true_iff.
  intros H. repeat (destruct H as [H|H]; [apply Ascii.eqb_eq in H; subst; reflexivity|]).
  discriminate.
Qed.

Lemma cells_ok_safe (cells : list (option Piece)) :
  cells_ok cells = true -> cells_safe cells = true.
Proof.
  unfold cells_ok, cells_safe. rewrite !forallb_forall.
  intros H [c|] Hin; auto. apply piece_ok_safe. apply (H (Some c) Hin).
Qed.

(** [from_fen] reads back the board [to_fen] wrote, for every board of 8
    by 8 cells whose pieces are not digits or separators. *)
Lemma fen_round_trip (b : Board) :
  wf_board b = true ->
  forallb cells_safe (grid b) = true ->
  from_fen (to_fen b) = Ok b.
Proof.
  intros Hwf Hsafe. destruct b as [g t]. unfold wf_board in Hwf. simpl in *.
  pose proof (wf_grid_length g Hwf) as Hlen.
  assert (Hrows : Forall (fun cells => cells_safe cells = true
                                       /\ List.length cells = 8%nat) g).
  { apply Forall_forall. intros cells Hin. split.
    - rewrite forallb_forall in Hsafe. auto.
    - unfold wf_grid in Hwf. apply andb_true_iff in Hwf as [_ H].
      rewrite forallb_forall in H. apply Nat.eqb_eq. auto. }
  assert (Hplain : Forall (fun w => forallb plain w = true) (map fen_cells g)).
  { apply Forall_forall. intros w Hw. apply in_map_iff in Hw as [cells [<- Hin]].
    rewrite Forall_forall in Hrows. destruct (Hrows cells Hin) as [Hs Hl].
    apply fen_row_loop_plain; auto. lia. }
  unfold to_fen, from_fen, chars, text. cbn [grid turn].
  rewrite list_ascii_of_string_of_list_ascii, fen_rows_of_grid by auto.
  set (turn_part := match t with white => "w"%char | black => "b"%char end).
  assert (Hturn : isspace turn_part = false) by (destruct t; reflexivity).
  assert (Hne : join "/" (map fen_cells g) <> []).
  { destruct g as [|cells g']; [discriminate|]. cbn [map].
    apply join_not_nil.
    inversion Hrows as [|? ? [Hs Hl] _]; subst.
    apply fen_row_loop_plain; auto; lia. }
  rewrite strip_two_fields, split_ws_two_fields by (auto using join_plain).
  unfold parse_board. rewrite split_on_join.
  - rewrite length_map, Hlen. cbn [Nat.eqb negb].
    rewrite parse_rows_fen by auto. cbn [bind app].
    unfold parse_turn. destruct t; reflexivity.
  - destruct g; discriminate.
  - eapply Forall_impl; [|exact Hplain]. intros w. apply plain_no_slash.
Qed.

(** *** Reachable positions *)

Lemma good_board_wf (b : Board) : good_board b = true -> wf_board b = true.
Proof. unfold good_board. rewrite andb_true_iff. tauto. Qed.

Lemma set_nth_forallb {A : Type} (P : A -> bool) (l : list A) (k : nat) (v : A) :
  forallb P l = true -> P v = true -> forallb P (set_nth l k v) = true.
Proof.
  revert k. induction l as [|x t IH]; intros [|k]; simpl; auto;
    rewrite !andb_true_iff; intros [Hx Ht] Hv; auto.
Qed.

Lemma nth_forallb {A : Type} (P : A -> bool) (l : list A) (k : nat) (d : A) :
  forallb P l = true -> P d = true -> P (nth k l d) = true.
Proof.
  revert k. induction l as [|x t IH]; intros [|k]; simpl; auto;
    rewrite !andb_true_iff; intros [Hx Ht] Hd; auto.
Qed.

Lemma set_cell_ok (g : Grid) (r c : Z) (v : option Piece) :
  forallb cells_ok g = true ->
  match v with None => true | Some p => piece_ok p end = true ->
  forallb cells_ok (set_cell g r c v) = true.
Proof.
  intros Hg Hv. unfold set_cell. apply set_nth_forallb; auto.
  unfold cells_ok at 1. apply set_nth_forallb; auto.
  apply (nth_forallb cells_ok); auto.
Qed.

Lemma cell_ok_of_grid (g : Grid) (r c : Z) :
  forallb cells_ok g = true ->
  match cell g r c with None => true | Some p => piece_ok p end = true.
Proof.
  intros Hg. unfold cell.
  apply (nth_forallb (fun o => match o with None => true | Some p => piece_ok p end));
    auto.
  apply (nth_forallb cells_ok); auto.
Qed.

Lemma promotion_piece_ok (c : Piece) :
  char_in c "QRBNqrbn" = true -> piece_ok c = true.
Proof.
  intros H. unfold char_in in H. simpl in H. rewrite !orb_true_iff in H.
  repeat (destruct H as [H|H]; [apply Ascii.eqb_eq in H; subst; reflexivity|]).
  discriminate.
Qed.

Lemma apply_move_good (b b' : Board) (m : Move) (switch_turn : bool) :
  good_board b = true -> move_ok m ->
  apply_move b m switch_turn = Ok b' -> good_board b' = true.
Proof.
  intros Hgood [Hf [Ht Hp]] Happ.
  unfold good_board in *. apply andb_true_iff in Hgood as [Hwf Hok].
  rewrite (apply_move_wf b b' m switch_turn Hwf Hf Ht Happ). cbn [andb].
  rewrite apply_move_on_board in Happ by auto. injection Happ as <-. cbn [grid].
  apply set_cell_ok; [apply set_cell_ok; auto|].
  unfold moved_piece. destruct (promotion m) as [promo|].
  - apply promotion_piece_ok. exact Hp.
  - destruct (from_sq m) as [fr fc]. apply cell_ok_of_grid. exact Hok.
Qed.

Lemma reachable_good (p : Board) : reachable p -> good_board p = true.
Proof.
  induction 1 as [|p legal m p' _ IH Hlegal Hin Happ].
  - vm_compute. reflexivity.
  - destruct (generate_legal_moves_ok p None (good_board_wf p IH)) as [l [E Hall]].
    rewrite E in Hlegal. injection Hlegal as ->.
    rewrite Forall_forall in Hall.
    apply (apply_move_good p p' m true); auto.
Qed.

(** C3: every position reachable by legal play from the start position
    is read back unchanged, cells and side to move, from the FEN text
    written for it. *)
Theorem fen_round_trip_reachable (p : Board) :
  reachable p -> from_fen (to_fen p) = Ok p.
Proof.
  intros Hreach. pose proof (reachable_good p Hreach) as Hgood.
  unfold good_board in Hgood. apply andb_true_iff in Hgood as [Hwf Hok].
  apply fen_round_trip; auto.
  rewrite forallb_forall in *. intros cells Hin.
  apply cells_ok_safe. auto.
Qed.

Lemma after_e4_reachable : reachable after_e4.
Proof.
  destruct (generate_legal_moves (board_of_fen start_fen) None) as [legal|] eqn:E;
    [|vm_compute in E; discriminate].
  apply (reachable_move (board_of_fen start_fen) legal
           (mkMove (6, 4) (4, 4) None)).
  - apply reachable_start.
  - exact E.
  - vm_compute in E. injection E as <-.
    repeat first [left; reflexivity | right].
  - vm_compute. reflexivity.
Qed.

Lemma fen_round_trip_reachable_witness :
  reachable after_e4 /\ from_fen (to_fen after_e4) = Ok after_e4.
Proof.
  split; [exact after_e4_reachable|].
  apply (fen_round_trip_reachable after_e4). exact after_e4_reachable.
Defined.

(** The test of the repository: the start position round-trips. *)
Example start_position_round_trip :
  to_fen (board_of_fen start_fen) = start_fen.
Proof. vm_compute. reflexivity. Qed.

(* ------------------------------------------------------------------ *)
(** ** Alpha-beta against full minimax *)

(** *** The order on scores *)

Lemma slt_true (a b : Score) :
  slt a b = true <-> (cls a < cls b \/ (cls a = cls b /\ num a < num b)).
Proof.
  destruct a, b; simpl; rewrite ?Z.ltb_lt; split; intros;
    try discriminate; try lia; auto.
Qed.

Lemma slt_false (a b : Score) :
  slt a b = false <-> ~ (cls a < cls b \/ (cls a = cls b /\ num a < num b)).
Proof.
  rewrite <- slt_true. destruct (slt a b); split; intros;
    try discriminate; auto.
  exfalso; auto.
Qed.

Lemma score_eq (a b : Score) : a = b <-> (cls a = cls b /\ num a = num b).
Proof.
  split; [intros ->; auto|].
  destruct a, b; simpl; intros [H1 H2]; try discriminate; auto. congruence.
Qed.

(** Comparisons of scores, decided as linear arithmetic on the pairs. *)
Ltac score_order :=
  unfold bounds, smax, smin, sle in *;
  rewrite ?negb_true_iff, ?negb_false_iff in *;
  repeat match goal with
         | H : context [if slt ?a ?b then _ else _] |- _ =>
             destruct (slt a b) eqn:?
         | |- context [if slt ?a ?b then _ else _] =>
             destruct (slt a b) eqn:?
         end;
  rewrite ?slt_true, ?slt_false, ?score_eq in *;
  repeat match goal with
         | s : Score |- _ =>
             generalize dependent (cls s); generalize dependent (num s); clear s
         end;
  intros; lia.

Lemma bounds_refl (v a b : Score) : bounds v v a b.
Proof. score_order. Qed.

Lemma bounds_full_window (v w : Score) : bounds v w NegInf PosInf -> v = w.
Proof.
  intros [H1 [H2 H3]]. destruct v; destruct w; cbn in *; auto;
    try (specialize (H2 eq_refl); discriminate);
    try (specialize (H3 eq_refl); discriminate);
    try (apply H1; reflexivity).
Qed.

Lemma smax_neg_inf (a : Score) : smax a NegInf = a.
Proof. destruct a; reflexivity. Qed.

Lemma smin_pos_inf (a : Score) : smin a PosInf = a.
Proof. destruct a; reflexivity. Qed.

Lemma smax_ge (a b c : Score) : sle (smax a b) c = true -> sle a c = true.
Proof. intros. score_order. Qed.

Lemma smin_le (a b c : Score) : sle c (smin a b) = true -> sle c a = true.
Proof. intros. score_order. Qed.

(** *** The maximizing loop: end of the list, cut-off, next iteration *)

Lemma max_done (value alpha0 beta wval : Score) :
  slt (smax alpha0 value) beta = true ->
  (sle value alpha0 = true -> sle wval value = true) ->
  (slt alpha0 value = true -> wval = value) ->
  bounds value wval alpha0 beta.
Proof. intros. score_order. Qed.

Lemma max_break (value alpha0 beta s w wval W : Score) :
  slt (smax alpha0 value) beta = true ->
  bounds s w (smax alpha0 value) beta ->
  sle beta (smax (smax alpha0 value) (smax value s)) = true ->
  sle (smax wval w) W = true ->
  bounds (smax value s) W alpha0 beta.
Proof. intros. score_order. Qed.

Lemma max_continue (value alpha0 beta s w wval : Score) :
  slt (smax alpha0 value) beta = true ->
  (sle value alpha0 = true -> sle wval value = true) ->
  (slt alpha0 value = true -> wval = value) ->
  bounds s w (smax alpha0 value) beta ->
  sle beta (smax (smax alpha0 value) (smax value s)) = false ->
  slt (smax alpha0 (smax value s)) beta = true /\
  smax (smax alpha0 value) (smax value s) = smax alpha0 (smax value s) /\
  (sle (smax value s) alpha0 = true ->
   sle (smax wval w) (smax value s) = true) /\
  (slt alpha0 (smax value s) = true -> smax wval w = smax value s).
Proof. intros. score_order. Qed.

(** *** The minimizing loop *)

Lemma min_done (value alpha beta0 wval : Score) :
  slt alpha (smin beta0 value) = true ->
  (sle beta0 value = true -> sle value wval = true) ->
  (slt value beta0 = true -> wval = value) ->
  bounds value wval alpha beta0.
Proof. intros. score_order. Qed.

Lemma min_break (value alpha beta0 s w wval W : Score) :
  slt alpha (smin beta0 value) = true ->
  bounds s w alpha (smin beta0 value) ->
  sle (smin (smin beta0 value) (smin value s)) alpha = true ->
  sle W (smin wval w) = true ->
  bounds (smin value s) W alpha beta0.
Proof. intros. score_order. Qed.

Lemma min_continue (value alpha beta0 s w wval : Score) :
  slt alpha (smin beta0 value) = true ->
  (sle beta0 value = true -> sle value wval = true) ->
  (slt value beta0 = true -> wval = value) ->
  bounds s w alpha (smin beta0 value) ->
  sle (smin (smin beta0 value) (smin value s)) alpha = false ->
  slt alpha (smin beta0 (smin value s)) = true /\
  smin (smin beta0 value) (smin value s) = smin beta0 (smin value s) /\
  (sle beta0 (smin value s) = true ->
   sle (smin value s) (smin wval w) = true) /\
  (slt (smin value s) beta0 = true -> smin wval w = smin value s).
Proof. intros. score_order. Qed.

(** *** The loops *)

Section LoopBounds.
Variable rec : Board -> Score -> Score -> result Score.
Variable recf : Board -> result Score.
Variable board : Board.

Lemma full_max_loop_ge (moves : list Move) :
  Forall (child_ok rec recf board) moves ->
  forall wval, exists W,
    full_max_loop recf board moves wval = Ok W /\ sle wval W = true.
Proof.
  induction 1 as [|m rest [child [w [Happ [Hw _]]]] _ IH]; intros wval.
  - exists wval. split; [reflexivity|]. destruct wval; simpl; auto.
    unfold sle, slt. rewrite Z.ltb_irrefl. reflexivity.
  - cbn [full_max_loop]. rewrite Happ. cbn [bind]. rewrite Hw. cbn [bind].
    destruct (IH (smax wval w)) as [W [E HW]].
    exists W. split; auto. apply (smax_ge wval w W). exact HW.
Qed.

Lemma full_min_loop_le (moves : list Move) :
  Forall (child_ok rec recf board) moves ->
  forall wval, exists W,
    full_min_loop recf board moves wval = Ok W /\ sle W wval = true.
Proof.
  induction 1 as [|m rest [child [w [Happ [Hw _]]]] _ IH]; intros wval.
  - exists wval. split; [reflexivity|]. destruct wval; simpl; auto.
    unfold sle, slt. rewrite Z.ltb_irrefl. reflexivity.
  - cbn [full_min_loop]. rewrite Happ. cbn [bind]. rewrite Hw. cbn [bind].
    destruct (IH (smin wval w)) as [W [E HW]].
    exists W. split; auto. apply (smin_le wval w W). exact HW.
Qed.

Lemma max_loop_bounds (moves : list Move) :
  Forall (child_ok rec recf board) moves ->
  forall value alpha0 beta wval,
    slt (smax alpha0 value) beta = true ->
    (sle value alpha0 = true -> sle wval value = true) ->
    (slt alpha0 value = true -> wval = value) ->
    exists v W,
      max_loop rec board moves value (smax alpha0 value) beta = Ok v /\
      full_max_loop recf board moves wval = Ok W /\
      bounds v W alpha0 beta.
Proof.
  induction 1 as [|m rest Hm Hrest IH]; intros value alpha0 beta wval Hwin Hlow Hhigh.
  - exists value, wval. split; [reflexivity|]. split; [reflexivity|].
    apply max_done; auto.
  - destruct Hm as [child [w [Happ [Hw Hrec]]]].
    destruct (Hrec _ _ Hwin) as [s [Hs Hb]].
    cbn [max_loop full_max_loop]. rewrite Happ. cbn [bind].
    rewrite Hs, Hw. cbn [bind].
    destruct (sle beta (smax (smax alpha0 value) (smax value s))) eqn:Hcut.
    + destruct (full_max_loop_ge rest Hrest (smax wval w)) as [W [E HW]].
      exists (smax value s), W. split; [reflexivity|]. split; [exact E|].
      eapply max_break; eauto.
    + destruct (max_continue value alpha0 beta s w wval Hwin Hlow Hhigh Hb Hcut)
        as [Hwin' [Ealpha [Hlow' Hhigh']]].
      rewrite Ealpha. apply IH; auto.
Qed.

Lemma min_loop_bounds (moves : list Move) :
  Forall (child_ok rec recf board) moves ->
  forall value alpha beta0 wval,
    slt alpha (smin beta0 value) = true ->
    (sle beta0 value = true -> sle value wval = true) ->
    (slt value beta0 = true -> wval = value) ->
    exists v W,
      min_loop rec board moves value alpha (smin beta0 value) = Ok v /\
      full_min_loop recf board moves wval = Ok W /\
      bounds v W alpha beta0.
Proof.
  induction 1 as [|m rest Hm Hrest IH]; intros value alpha beta0 wval Hwin Hlow Hhigh.
  - exists value, wval. split; [reflexivity|]. split; [reflexivity|].
    apply min_done; auto.
  - destruct Hm as [child [w [Happ [Hw Hrec]]]].
    destruct (Hrec _ _ Hwin) as [s [Hs Hb]].
    cbn [min_loop full_min_loop]. rewrite Happ. cbn [bind].
    rewrite Hs, Hw. cbn [bind].
    destruct (sle (smin (smin beta0 value) (smin value s)) alpha) eqn:Hcut.
    + destruct (full_min_loop_le rest Hrest (smin wval w)) as [W [E HW]].
      exists (smin value s), W. split; [reflexivity|]. split; [exact E|].
      eapply min_break; eauto.
    + destruct (min_continue value alpha beta0 s w wval Hwin Hlow Hhigh Hb Hcut)
        as [Hwin' [Ebeta [Hlow' Hhigh']]].
      rewrite Ebeta. apply IH; auto.
Qed.
End LoopBounds.

(** *** The two searches *)

Lemma minimax_bounds (fuel : nat) :
  forall (board : Board) (depth : Z) (mc : Color),
    wf_board board = true ->
    0 <= depth < Z.of_nat fuel ->
    exists w,
      full_minimax fuel board depth mc = Ok w /\
      forall alpha beta, slt alpha beta = true ->
        exists v, minimax fuel board depth alpha beta mc = Ok v /\
                  bounds v w alpha beta.
Proof.
  induction fuel as [|fuel IH]; intros board depth mc Hwf Hdepth; [lia|].
  cbn [minimax full_minimax].
  destruct (Z.eqb_spec depth 0) as [->|Hnz].
  - eexists. split; [reflexivity|]. intros alpha beta _.
    eexists. split; [reflexivity|]. apply bounds_refl.
  - destruct (generate_legal_moves_ok board (Some (turn board)) Hwf)
      as [legal [E Hall]].
    rewrite E. cbn [bind].
    destruct legal as [|m0 rest] eqn:El.
    + eexists. split; [reflexivity|]. intros alpha beta _.
      eexists. split; [reflexivity|]. apply bounds_refl.
    + rewrite <- El in *. clear El m0 rest.
      set (rec := fun child a b => minimax fuel child (depth - 1) a b mc).
      set (recf := fun child => full_minimax fuel child (depth - 1) mc).
      assert (Hchildren : Forall (child_ok rec recf board) legal).
      { eapply Forall_impl; [|exact Hall].
        intros m [Hf [Ht _]].
        destruct (apply_move board m true) as [child|] eqn:Happ;
          [|rewrite apply_move_on_board in Happ by auto; discriminate].
        pose proof (apply_move_wf _ _ _ _ Hwf Hf Ht Happ) as Hwfc.
        destruct (IH child (depth - 1) mc Hwfc ltac:(lia)) as [w [Hw Hv]].
        exists child, w. auto. }
      destruct (color_eqb (turn board) mc).
      * destruct (full_max_loop_ge rec recf board legal Hchildren NegInf)
          as [W [EW _]].
        exists W. split; [exact EW|]. intros alpha beta Hwin.
        destruct (max_loop_bounds rec recf board legal Hchildren
                    NegInf alpha beta NegInf) as [v [W' [Ev [EW' Hb]]]].
        -- rewrite smax_neg_inf. exact Hwin.
        -- reflexivity.
        -- destruct alpha; discriminate.
        -- rewrite smax_neg_inf in Ev. rewrite EW in EW'. injection EW' as <-.
           exists v. auto.
      * destruct (full_min_loop_le rec recf board legal Hchildren PosInf)
          as [W [EW _]].
        exists W. split; [exact EW|]. intros alpha beta Hwin.
        destruct (min_loop_bounds rec recf board legal Hchildren
                    PosInf alpha beta PosInf) as [v [W' [Ev [EW' Hb]]]].
        -- rewrite smin_pos_inf. exact Hwin.
        -- reflexivity.
        -- destruct beta; discriminate.
        -- rewrite smin_pos_inf in Ev. rewrite EW in EW'. injection EW' as <-.
           exists v. auto.
Qed.

(** C1: for every board of 8 by 8 cells, every depth of zero or more
    plies and either maximizing color, given a recursion budget above the
    depth, the search with alpha-beta cut-offs started on the open window
    and the full minimax over the same tree both return, and they return
    the same score. *)
Theorem alpha_beta_equals_full_minimax (fuel : nat) (board : Board)
  (depth : Z) (maximizing_color : Color) :
  wf_board board = true ->
  0 <= depth < Z.of_nat fuel ->
  exists v,
    minimax fuel board depth NegInf PosInf maximizing_color = Ok v /\
    full_minimax fuel board depth maximizing_color = Ok v.
Proof.
  intros Hwf Hdepth.
  destruct (minimax_bounds fuel board depth maximizing_color Hwf Hdepth)
    as [w [Hw Hv]].
  destruct (Hv NegInf PosInf eq_refl) as [v [Ev Hb]].
  apply bounds_full_window in Hb. subst w. exists v. auto.
Qed.

Lemma alpha_beta_equals_full_minimax_witness :
  wf_board (board_of_fen start_fen) = true /\
  0 <= 2 < Z.of_nat 3 /\
  exists v,
    minimax 3 (board_of_fen start_fen) 2 NegInf PosInf white = Ok v /\
    full_minimax 3 (board_of_fen start_fen) 2 white = Ok v.
Proof.
  split; [reflexivity|]. split; [lia|].
  apply (alpha_beta_equals_full_minimax 3 (board_of_fen start_fen) 2 white);
    [reflexivity | lia].
Defined.

(* ------------------------------------------------------------------ *)
(** ** The choice of [find_best_move] *)

(** White to move: all twenty first moves score alike at depth 1 and the
    first generated one, a2a3, is kept. *)
Example find_best_move_first_of_equals :
  find_best_move 2 (board_of_fen start_fen) 1 =
  Ok (mkSearchResult (Some (mkMove (6, 0) (5, 0) None)) (Fin 0)).
Proof. vm_compute. reflexivity. Qed.

(** C7 at a position with Black to move.  The rook can take the queen
    (a1d1), which leaves White 5 pawns down; every other move leaves White
    4 pawns up.  The child scores are computed with Black as maximizing
    color, so they are relative to Black (+5 for the capture, -4 for the
    rest), and the loop keeps the first move with the lowest of them:
    a8b8 with score -4, the worst for Black, not the capture that
    minimizes the score relative to White. *)
Theorem find_best_move_black_keeps_worst :
  find_best_move 2 hanging_queen 1 =
    Ok (mkSearchResult (Some (mkMove (0, 0) (0, 1) None)) (Fin (- pawns 4)))
  /\ (exists legal,
        generate_legal_moves hanging_queen None = Ok legal /\
        In (mkMove (7, 0) (7, 3) None) legal)
  /\ (exists child,
        apply_move hanging_queen (mkMove (0, 0) (0, 1) None) true = Ok child /\
        full_minimax 1 child 0 white = Ok (Fin (pawns 4)) /\
        minimax 1 child 0 NegInf PosInf black = Ok (Fin (- pawns 4)))
  /\ (exists child,
        apply_move hanging_queen (mkMove (7, 0) (7, 3) None) true = Ok child /\
        full_minimax 1 child 0 white = Ok (Fin (- pawns 5)) /\
        minimax 1 child 0 NegInf PosInf black = Ok (Fin (pawns 5))).
Proof.
  split; [vm_compute; reflexivity|].
  split.
  - eexists. split; [vm_compute; reflexivity|].
    repeat first [left; reflexivity | right].
  - split; eexists; (split; [vm_compute; reflexivity|]);
      split; vm_compute; reflexivity.
Qed.

(** The same choice one ply deeper: after a8b8 the queen takes the rook. *)
Example find_best_move_black_depth_two :
  find_best_move 3 hanging_queen 2 =
  Ok (mkSearchResult (Some (mkMove (0, 0) (0, 1) None)) (Fin (- pawns 9))).
Proof. vm_compute. reflexivity. Qed.

(* ------------------------------------------------------------------ *)
(** ** Square and move text: round trips *)

Lemma on_board_cases (r c : Z) :
  is_on_board (r, c) = true ->
  In r range8 /\ In c range8.
Proof.
  intros H. apply on_board_bounds in H. rewrite !in_range8. exact H.
Qed.

Lemma square_read_back (sq : Square) :
  is_on_board sq = true -> str_to_square (square_to_str sq) = Ok sq.
Proof.
  destruct sq as [r c]. intros H. apply on_board_cases in H as [Hr Hc].
  unfold range8 in *. simpl in Hr, Hc.
  repeat (destruct Hr as [<-|Hr]);
    try contradiction;
    repeat (destruct Hc as [<-|Hc]); try contradiction; reflexivity.
Qed.

(** X1: a square of the board, written by [square_to_str], is read back
    by [str_to_square]. *)
Theorem square_text_round_trip (sq : Square) :
  is_on_board sq = true -> str_to_square (square_to_str sq) = Ok sq.
Proof. apply square_read_back. Qed.

Lemma square_text_round_trip_witness :
  is_on_board (6, 4) = true /\
  str_to_square (square_to_str (6, 4)) = Ok (6, 4).
Proof.
  split; [reflexivity|]. apply (square_text_round_trip (6, 4)). reflexivity.
Defined.

Lemma char_in_cases (c : ascii) (s : string) :
  char_in c s = true -> In c (chars s).
Proof.
  unfold char_in. rewrite existsb_exists. intros [x [Hin E]].
  apply Ascii.eqb_eq in E. subst. exact Hin.
Qed.

(** X2: [str_to_square] accepts only the text of a square of the board:
    the square it returns is on the board and [square_to_str] writes the
    accepted text back. *)
Theorem str_to_square_on_board (s : list ascii) (sq : Square) :
  str_to_square s = Ok sq ->
  is_on_board sq = true /\ square_to_str sq = s.
Proof.
  destruct s as [|f [|r [|x t]]]; simpl; try discriminate.
  destruct (char_in f "abcdefgh") eqn:Hf; simpl; [|discriminate].
  destruct (char_in r "12345678") eqn:Hr; simpl; [|discriminate].
  intros E. injection E as <-.
  apply char_in_cases in Hf. apply char_in_cases in Hr.
  simpl in Hf, Hr.
  repeat (destruct Hf as [<-|Hf]);
    try contradiction;
    repeat (destruct Hr as [<-|Hr]); try contradiction; split; reflexivity.
Qed.

Lemma str_to_square_on_board_witness :
  str_to_square (chars "e2") = Ok (6, 4) /\
  is_on_board (6, 4) = true /\ square_to_str (6, 4) = chars "e2".
Proof.
  split; [reflexivity|].
  apply (str_to_square_on_board (chars "e2") (6, 4)). reflexivity.
Defined.

Lemma square_to_str_shape (sq : Square) :
  is_on_board sq = true ->
  exists f r, square_to_str sq = [f; r] /\
              isspace f = false /\ isspace r = false.
Proof.
  destruct sq as [r c]. intros H. apply on_board_cases in H as [Hr Hc].
  unfold range8 in *. simpl in Hr, Hc.
  repeat (destruct Hr as [<-|Hr]);
    try contradiction;
    repeat (destruct Hc as [<-|Hc]); try contradiction;
    do 2 eexists; (split; [reflexivity|]); split; reflexivity.
Qed.

Lemma strip_no_outer_space (a : ascii) (mid : list ascii) (z : ascii) :
  isspace a = false -> isspace z = false ->
  strip (a :: mid ++ [z]) = a :: mid ++ [z].
Proof.
  intros Ha Hz. unfold strip. rewrite (lstrip_head a) by auto.
  cbn [rev]. rewrite rev_app_distr. cbn [rev app].
  rewrite (lstrip_head z) by auto.
  cbn [rev]. rewrite rev_app_distr, rev_involutive. reflexivity.
Qed.

Lemma promotion_upper (p : Piece) :
  char_in p "QRBNqrbn" = true ->
  char_in (upper (upper p)) "QRBN" = true /\ upper (upper p) = upper p /\
  isspace (upper p) = false.
Proof.
  intros H. apply char_in_cases in H. simpl in H.
  repeat (destruct H as [<-|H]); try contradiction; repeat split; reflexivity.
Qed.

(** X3: the text [to_long_algebraic] writes for a move with squares on
    the board and a promotion symbol among Q, R, B, N in either case is
    accepted by [from_long_algebraic], which returns the same squares and
    the promotion symbol in uppercase: the case of a black promotion
    symbol does not survive the round trip. *)
Theorem move_text_round_trip (m : Move) :
  move_ok m ->
  from_long_algebraic (to_long_algebraic m) =
  Ok (mkMove (from_sq m) (to_sq m)
        (match promotion m with Some p => Some (upper p) | None => None end)).
Proof.
  intros [Hf [Ht Hp]].
  destruct (square_to_str_shape _ Hf) as [f1 [r1 [E1 [Hf1 _]]]].
  destruct (square_to_str_shape _ Ht) as [f2 [r2 [E2 [_ Hr2]]]].
  pose proof (square_read_back _ Hf) as R1.
  pose proof (square_read_back _ Ht) as R2.
  rewrite E1 in R1. rewrite E2 in R2.
  unfold from_long_algebraic, to_long_algebraic, chars, text.
  rewrite list_ascii_of_string_of_list_ascii, E1, E2.
  destruct (promotion m) as [p|]; cbn [promotion_ok] in Hp.
  - destruct (promotion_upper p Hp) as [Hin [Hup Hsp]].
    change ([f1; r1] ++ [f2; r2] ++ [upper p])
      with (f1 :: [r1; f2; r2] ++ [upper p]).
    rewrite strip_no_outer_space by auto.
    cbn [app List.length Nat.eqb orb negb firstn skipn nth].
    rewrite R1. cbn [bind]. rewrite R2. cbn [bind].
    rewrite Hin, Hup. reflexivity.
  - change ([f1; r1] ++ [f2; r2] ++ []) with (f1 :: [r1; f2] ++ [r2]).
    rewrite strip_no_outer_space by auto.
    cbn [app List.length Nat.eqb orb negb firstn skipn nth].
    rewrite R1. cbn [bind]. rewrite R2. reflexivity.
Qed.

Lemma move_text_round_trip_witness :
  move_ok (mkMove (6, 4) (7, 4) (Some "q"%char)) /\
  from_long_algebraic (to_long_algebraic (mkMove (6, 4) (7, 4) (Some "q"%char))) =
  Ok (mkMove (6, 4) (7, 4) (Some "Q"%char)).
Proof.
  split; [repeat split|].
  apply (move_text_round_trip (mkMove (6, 4) (7, 4) (Some "q"%char))).
  repeat split.
Defined.

(* ------------------------------------------------------------------ *)
(** ** What [from_fen] accepts *)

Lemma split_on_fields (sep : ascii) (l : list ascii) :
  Forall (fun w => forall c, In c w -> In c l /\ c <> sep) (split_on sep l).
Proof.
  induction l as [|c l IH]; cbn [split_on].
  - constructor; [intros x []|constructor].
  - destruct (Ascii.eqb_spec c sep) as [->|Hne].
    + constructor; [intros x []|].
      eapply Forall_impl; [|exact IH]. intros w H x Hx.
      destruct (H x Hx). split; [right|]; auto.
    + destruct (split_on sep l) as [|w ws].
      * constructor; [|constructor].
        intros x [<-|[]]. split; [left|]; auto.
      * inversion IH as [|? ? Hw Hws]; subst. constructor.
        -- intros x [<-|Hx]; [split; [left|]; auto|].
           destruct (Hw x Hx). split; [right|]; auto.
        -- eapply Forall_impl; [|exact Hws]. intros w' H x Hx.
           destruct (H x Hx). split; [right|]; auto.
Qed.

Lemma split_ws_from_words (l cur : list ascii) :
  (forall c, In c cur -> isspace c = false) ->
  Forall (fun w => forall c, In c w -> isspace c = false) (split_ws_from l cur).
Proof.
  revert cur. induction l as [|c l IH]; intros cur Hcur; cbn [split_ws_from].
  - destruct cur; constructor; [|constructor].
    intros x Hx. apply in_rev in Hx. auto.
  - destruct (isspace c) eqn:Hc.
    + destruct cur.
      * apply IH. intros x [].
      * constructor; [|apply IH; intros x []].
        intros x Hx. apply in_rev in Hx. auto.
    + apply IH. intros x [<-|Hx]; auto.
Qed.

Lemma parse_row_cells (row_str : list ascii) (row r : list (option Piece)) :
  parse_row row_str row = Ok r ->
  (forall c, In c row_str -> plain c = true) ->
  cells_safe row = true -> cells_safe r = true.
Proof.
  revert row. induction row_str as [|ch rest IH]; intros row E Hplain Hrow;
    cbn [parse_row] in E.
  - injection E as <-. exact Hrow.
  - destruct (isdigit ch) eqn:Hd.
    + destruct (int_of_char ch) as [n|]; cbn [bind] in E; [|discriminate].
      apply (IH _ E); [intros c Hc; apply Hplain; right; exact Hc|].
      unfold cells_safe in *. rewrite forallb_app.
      apply andb_true_iff. split; [exact Hrow|].
      clear. induction n; simpl; auto.
    + apply (IH _ E); [intros c Hc; apply Hplain; right; exact Hc|].
      unfold cells_safe in *. rewrite forallb_app.
      apply andb_true_iff. split; [exact Hrow|]. cbn [forallb].
      unfold fen_safe. rewrite Hd. cbn [negb andb].
      specialize (Hplain ch (or_introl eq_refl)). unfold plain in Hplain.
      rewrite Hplain. reflexivity.
Qed.

Lemma parse_row_raises (row_str : list ascii) (row : list (option Piece)) (e : exn) :
  parse_row row_str row = Raise e -> e = ValueError.
Proof.
  revert row. induction row_str as [|ch rest IH]; intros row E;
    cbn [parse_row] in E; [discriminate|].
  destruct (isdigit ch); [|eauto].
  unfold int_of_char in E. destruct (between 48 57 (code ch)); cbn [bind] in E;
    [eauto | congruence].
Qed.

Lemma parse_rows_grid (rows : list (list ascii)) (g g' : Grid) :
  parse_rows rows g = Ok g' ->
  (forall w, In w rows -> forall c, In c w -> plain c = true) ->
  forallb (fun row => (List.length row =? 8)%nat) g = true ->
  grid_safe g = true ->
  List.length g' = (List.length g + List.length rows)%nat /\
  forallb (fun row => (List.length row =? 8)%nat) g' = true /\
  grid_safe g' = true.
Proof.
  revert g. induction rows as [|row_str rest IH]; intros g E Hplain Hlen Hsafe;
    cbn [parse_rows] in E.
  - injection E as <-. simpl. rewrite Nat.add_0_r. auto.
  - destruct (parse_row row_str []) as [row|] eqn:Erow; cbn [bind] in E;
      [|discriminate].
    destruct (List.length row =? 8)%nat eqn:Hrow; cbn [negb] in E; [|discriminate].
    destruct (IH _ E) as [L [W S]].
    + intros w Hw. apply Hplain. right. exact Hw.
    + rewrite forallb_app, Hlen. simpl. rewrite Hrow. reflexivity.
    + unfold grid_safe in *. rewrite forallb_app, Hsafe. simpl.
      rewrite (parse_row_cells _ _ _ Erow); auto.
      apply Hplain. left. reflexivity.
    + rewrite length_app in L. simpl in *. split; [lia|auto].
Qed.

Lemma parse_rows_raises (rows : list (list ascii)) (g : Grid) (e : exn) :
  parse_rows rows g = Raise e -> e = ValueError.
Proof.
  revert g. induction rows as [|row_str rest IH]; intros g E;
    cbn [parse_rows] in E; [discriminate|].
  destruct (parse_row row_str []) as [row|] eqn:Erow; cbn [bind] in E.
  - destruct (negb _); [congruence | eauto].
  - injection E as <-. eapply parse_row_raises. exact Erow.
Qed.

Lemma from_fen_shape (fen : string) :
  (forall b, from_fen fen = Ok b ->
             wf_board b = true /\ grid_safe (grid b) = true) /\
  (forall e, from_fen fen = Raise e -> e = ValueError).
Proof.
  unfold from_fen.
  pose proof (split_ws_from_words (strip (chars fen)) []
                ltac:(intros c [])) as Hwords.
  fold (split_ws (strip (chars fen))) in Hwords.
  destruct (split_ws (strip (chars fen))) as [|board_part [|turn_part rest]];
    try (split; [discriminate | congruence]).
  inversion Hwords as [|? ? Hboard _]; subst.
  unfold parse_board.
  pose proof (split_on_fields "/" board_part) as Hfields.
  destruct (List.length (split_on "/" board_part) =? 8)%nat eqn:Hrows;
    cbn [negb]; [|split; [discriminate | cbn [bind]; congruence]].
  destruct (parse_rows (split_on "/" board_part) []) as [g|e0] eqn:Eg;
    cbn [bind].
  - split; [|discriminate]. intros b E. injection E as <-.
    destruct (parse_rows_grid _ _ _ Eg) as [L [W S]]; auto.
    + intros w Hw c Hc. rewrite Forall_forall in Hfields.
      destruct (Hfields w Hw c Hc) as [Hin Hne].
      unfold plain. rewrite (Hboard c Hin). cbn [negb andb].
      destruct (Ascii.eqb_spec c "/"); [contradiction|reflexivity].
    + split; auto. unfold wf_board, wf_grid. cbn [grid].
      apply Nat.eqb_eq in Hrows. simpl in L. rewrite L, Hrows, W. reflexivity.
  - split; [discriminate|]. intros e E. injection E as <-.
    eapply parse_rows_raises. exact Eg.
Qed.

(** X4: a board returned by [from_fen] has 8 rows of 8 cells, and none
    of its pieces is a digit, a whitespace character or the row
    separator. *)
Theorem from_fen_well_formed (fen : string) (b : Board) :
  from_fen fen = Ok b ->
  wf_board b = true /\ grid_safe (grid b) = true.
Proof. intros E. apply (from_fen_shape fen). exact E. Qed.

Lemma from_fen_well_formed_witness :
  from_fen start_fen = Ok (board_of_fen start_fen) /\
  wf_board (board_of_fen start_fen) = true /\
  grid_safe (grid (board_of_fen start_fen)) = true.
Proof.
  split; [reflexivity|].
  apply (from_fen_well_formed start_fen). reflexivity.
Defined.

(** X5: whatever the text, the only exception [from_fen] raises is its
    format error: the subscripts and the digit conversion inside it
    cannot fail otherwise. *)
Theorem from_fen_raises_value_error (fen : string) (e : exn) :
  from_fen fen = Raise e -> e = ValueError.
Proof. intros E. apply (from_fen_shape fen). exact E. Qed.

Lemma from_fen_raises_value_error_witness :
  from_fen "8/8/8/8/8/8/8/44x w" = Raise ValueError /\ ValueError = ValueError.
Proof.
  split; [reflexivity|].
  apply (from_fen_raises_value_error "8/8/8/8/8/8/8/44x w"). reflexivity.
Defined.

(** X6: every board [from_fen] returns is read back unchanged from the
    text [to_fen] writes for it. *)
Theorem from_fen_to_fen_round_trip (fen : string) (b : Board) :
  from_fen fen = Ok b -> from_fen (to_fen b) = Ok b.
Proof.
  intros E. destruct (from_fen_shape fen) as [H _].
  destruct (H b E) as [Hwf Hsafe]. apply fen_round_trip; auto.
Qed.

Lemma from_fen_to_fen_round_trip_witness :
  from_fen "4k3/8/8/8/8/8/8/4K2R w extra" = Ok (board_of_fen "4k3/8/8/8/8/8/8/4K2R w") /\
  from_fen (to_fen (board_of_fen "4k3/8/8/8/8/8/8/4K2R w")) =
  Ok (board_of_fen "4k3/8/8/8/8/8/8/4K2R w").
Proof.
  split; [reflexivity|].
  apply (from_fen_to_fen_round_trip "4k3/8/8/8/8/8/8/4K2R w extra"). reflexivity.
Defined.

(* ------------------------------------------------------------------ *)
(** ** The shape of the generated moves *)

Lemma islower_not_upper (c : ascii) : islower c = true -> isupper c = false.
Proof. destruct c as [[] [] [] [] [] [] [] []]; vm_compute; congruence. Qed.

Lemma own_piece_color (color : Color) (piece : Piece) :
  own color piece = true -> piece_color piece = color.
Proof.
  unfold own, piece_color. destruct color; intros H.
  - rewrite H. reflexivity.
  - rewrite (islower_not_upper _ H). reflexivity.
Qed.

Lemma promotions_land (b : Board) (color : Color) (square target : Square) :
  target <> square ->
  destination_free b color (mkMove square target None) ->
  Forall (lands b color square) (promotions color square target).
Proof.
  intros Hne Hfree. rewrite promotions_four.
  destruct color; repeat constructor; auto.
Qed.

Lemma pawn_moves_land (b : Board) (square : Square) (color : Color) :
  Forall (lands b color square) (pawn_moves b square color).
Proof.
  destruct square as [row col]. unfold pawn_moves.
  set (direction := if color_eqb color white then -1 else 1).
  assert (Hdir : direction = -1 \/ direction = 1)
    by (subst direction; destruct color; auto).
  clearbody direction.
  apply Forall_app. split.
  - destruct (is_on_board (_, col)); cbn [andb]; [|constructor].
    destruct (piece_at b (row + direction, col)) as [tp|] eqn:Hfwd;
      cbn [is_none]; [constructor|].
    assert (Hfree : destination_free b color
                      (mkMove (row, col) (row + direction, col) None)).
    { unfold destination_free. cbn [to_sq]. rewrite Hfwd. exact I. }
    assert (Hne : (row + direction, col) <> (row, col))
      by (intros E; injection E; lia).
    apply Forall_app. split.
    + destruct (_ =? _); [apply promotions_land; auto|].
      repeat constructor; auto.
    + destruct (row =? _); cbn [andb]; [|constructor].
      destruct (piece_at b (row + 2 * direction, col)) as [tp|] eqn:Hdbl;
        cbn [is_none andb]; constructor; [|constructor].
      split; [cbn [to_sq]; intros E; apply (f_equal fst) in E;
              cbn [fst] in E; lia|].
      unfold destination_free. cbn [to_sq]. rewrite Hdbl. exact I.
  - apply Forall_flat_map. intros dc Hdc.
    assert (Hne : (row + direction, col + dc) <> (row, col))
      by (intros E; injection E; lia).
    destruct (is_on_board (_, col + dc)); cbn [negb]; [|constructor].
    destruct (piece_at b (row + direction, col + dc)) as [tp|] eqn:Htp;
      [|constructor].
    destruct (enemy color tp) eqn:He; [|constructor].
    assert (Hfree : destination_free b color
                      (mkMove (row, col) (row + direction, col + dc) None)).
    { unfold destination_free. cbn [to_sq]. rewrite Htp. exact He. }
    destruct (_ =? _); [apply promotions_land; auto|].
    repeat constructor; auto.
Qed.

Lemma step_moves_land (b : Board) (square : Square) (color : Color)
  (deltas : list (Z * Z)) :
  Forall (fun d => d <> (0, 0)) deltas ->
  Forall (lands b color square) (step_moves b square color deltas).
Proof.
  destruct square as [row col]. intros Hd. unfold step_moves.
  apply Forall_flat_map. intros [dr dc] Hin.
  rewrite Forall_forall in Hd. specialize (Hd _ Hin).
  assert (Hne : (row + dr, col + dc) <> (row, col)).
  { intros E. injection E. intros. apply Hd. f_equal; lia. }
  destruct (is_on_board _); cbn [negb]; [|constructor].
  destruct (piece_at b (row + dr, col + dc)) as [tp|] eqn:Htp.
  - destruct (enemy color tp) eqn:He; constructor; [|constructor].
    split; auto. unfold destination_free. cbn [to_sq]. rewrite Htp. exact He.
  - constructor; [|constructor].
    split; auto. unfold destination_free. cbn [to_sq]. rewrite Htp. exact I.
Qed.

(** Along a ray every destination is reached over empty cells only. *)
Lemma ray_path (fuel : nat) (b : Board) (square : Square) (color : Color)
  (dr dc : Z) :
  forall (r c : Z) (m : Move),
    In m (ray fuel b square color dr dc r c) ->
    exists k,
      0 <= k /\
      to_sq m = (r + k * dr, c + k * dc) /\
      (forall j, 0 <= j < k -> cell (grid b) (r + j * dr) (c + j * dc) = None) /\
      destination_free b color m.
Proof.
  induction fuel as [|fuel IH]; intros r c m Hin; cbn [ray] in Hin; [contradiction|].
  destruct (_ && _); [|contradiction].
  destruct (cell (grid b) r c) as [tp|] eqn:Hcell.
  - destruct (enemy color tp) eqn:He; [|contradiction].
    destruct Hin as [<-|[]]. exists 0. cbn [to_sq].
    split; [lia|]. split; [f_equal; lia|]. split; [intros j Hj; lia|].
    unfold destination_free, piece_at. cbn [to_sq]. rewrite Hcell. exact He.
  - destruct Hin as [<-|Hin].
    + exists 0. cbn [to_sq].
      split; [lia|]. split; [f_equal; lia|]. split; [intros j Hj; lia|].
      unfold destination_free, piece_at. cbn [to_sq]. rewrite Hcell. exact I.
    + destruct (IH _ _ _ Hin) as [k [Hk [Hto [Hpath Hfree]]]].
      exists (k + 1). split; [lia|]. split; [rewrite Hto; f_equal; lia|].
      split; auto. intros j Hj.
      destruct (Z.eq_dec j 0) as [->|Hnz].
      * replace (r + 0 * dr) with r by lia. replace (c + 0 * dc) with c by lia.
        exact Hcell.
      * specialize (Hpath (j - 1) ltac:(lia)).
        replace (r + j * dr) with (r + dr + (j - 1) * dr) by lia.
        replace (c + j * dc) with (c + dc + (j - 1) * dc) by lia.
        exact Hpath.
Qed.

Lemma sliding_path (b : Board) (square : Square) (color : Color)
  (directions : list (Z * Z)) (m : Move) :
  In m (sliding_moves b square color directions) ->
  exists dr dc K,
    In (dr, dc) directions /\
    1 <= K /\
    to_sq m = (fst square + K * dr, snd square + K * dc) /\
    (forall j, 1 <= j < K ->
       piece_at b (fst square + j * dr, snd square + j * dc) = None) /\
    destination_free b color m.
Proof.
  destruct square as [row col]. unfold sliding_moves. intros Hin.
  apply in_flat_map in Hin as [[dr dc] [Hd Hin]].
  apply ray_path in Hin as [k [Hk [Hto [Hpath Hfree]]]].
  exists dr, dc, (k + 1). cbn [fst snd].
  split; auto. split; [lia|]. split; [rewrite Hto; f_equal; lia|].
  split; auto. intros j Hj. unfold piece_at.
  specialize (Hpath (j - 1) ltac:(lia)).
  replace (row + j * dr) with (row + dr + (j - 1) * dr) by lia.
  replace (col + j * dc) with (col + dc + (j - 1) * dc) by lia.
  exact Hpath.
Qed.

(** X7: a bishop, rook or queen never jumps: every move [_sliding_moves]
    emits ends a whole number of steps along one of the given directions,
    every cell strictly between origin and destination is empty, and the
    destination is empty or holds a piece of the opponent. *)
Theorem sliding_moves_path_clear (b : Board) (square : Square) (color : Color)
  (directions : list (Z * Z)) (m : Move) :
  wf_board b = true ->
  In m (sliding_moves b square color directions) ->
  exists dr dc K,
    In (dr, dc) directions /\
    1 <= K /\
    to_sq m = (fst square + K * dr, snd square + K * dc) /\
    (forall j, 1 <= j < K ->
       piece_at b (fst square + j * dr, snd square + j * dc) = None) /\
    destination_free b color m.
Proof. intros _. apply sliding_path. Qed.

Lemma sliding_moves_land (b : Board) (square : Square) (color : Color)
  (directions : list (Z * Z)) :
  (forall d, In d directions -> In d queen_directions) ->
  Forall (lands b color square) (sliding_moves b square color directions).
Proof.
  intros Hsub. apply Forall_forall. intros m Hin.
  apply sliding_path in Hin as [dr [dc [K [Hd [HK [Hto [_ Hfree]]]]]]].
  split; auto. rewrite Hto. destruct square as [row col]. cbn [fst snd].
  specialize (Hsub _ Hd). simpl in Hsub.
  repeat (destruct Hsub as [E|Hsub];
          [injection E as <- <-; intros E'; injection E'; lia|]).
  contradiction.
Qed.

Lemma moves_for_piece_land (b : Board) (square : Square) (piece : Piece) :
  Forall (lands b (piece_color piece) square) (moves_for_piece b square piece).
Proof.
  unfold moves_for_piece, knight_moves, king_moves. fold (piece_color piece).
  repeat match goal with
         | |- Forall _ (if ?c then _ else _) => destruct c
         end;
    try apply pawn_moves_land;
    try solve [apply step_moves_land; repeat constructor; discriminate];
    try solve [apply sliding_moves_land; unfold queen_directions; intros d Hd;
               first [exact Hd
                     | apply in_or_app; left; exact Hd
                     | apply in_or_app; right; exact Hd]];
    constructor.
Qed.

Lemma promotions_match (piece : Piece) (square target : Square) :
  Forall (promotion_matches piece)
         (promotions (piece_color piece) square target).
Proof.
  rewrite promotions_four. unfold piece_color, promotion_matches, case_matched.
  destruct (isupper piece); repeat constructor.
Qed.

Lemma pawn_moves_match (b : Board) (square : Square) (piece : Piece) :
  Forall (promotion_matches piece) (pawn_moves b square (piece_color piece)).
Proof.
  destruct square as [row col]. unfold pawn_moves.
  apply Forall_app. split.
  - destruct (_ && _); [|constructor]. apply Forall_app. split.
    + destruct (_ =? _); [apply promotions_match|repeat constructor].
    + destruct (_ && _); repeat constructor.
  - apply Forall_flat_map. intros dc _.
    destruct (negb _); [constructor|].
    destruct (piece_at b _) as [tp|]; [|constructor].
    destruct (enemy _ tp); [|constructor].
    destruct (_ =? _); [apply promotions_match|repeat constructor].
Qed.

Lemma step_moves_plain (b : Board) (square : Square) (color : Color)
  (deltas : list (Z * Z)) :
  Forall (fun m => promotion m = None) (step_moves b square color deltas).
Proof.
  destruct square as [row col]. unfold step_moves.
  apply Forall_flat_map. intros [dr dc] _.
  destruct (negb _); [constructor|].
  destruct (piece_at b _) as [tp|]; [|repeat constructor].
  destruct (enemy color tp); repeat constructor.
Qed.

Lemma ray_plain (fuel : nat) (b : Board) (square : Square) (color : Color)
  (dr dc : Z) :
  forall r c,
    Forall (fun m => promotion m = None) (ray fuel b square color dr dc r c).
Proof.
  induction fuel as [|fuel IH]; intros r c; cbn [ray]; [constructor|].
  destruct (_ && _); [|constructor].
  destruct (cell (grid b) r c) as [tp|].
  - destruct (enemy color tp); repeat constructor.
  - constructor; auto.
Qed.

Lemma sliding_moves_plain (b : Board) (square : Square) (color : Color)
  (directions : list (Z * Z)) :
  Forall (fun m => promotion m = None) (sliding_moves b square color directions).
Proof.
  destruct square as [row col]. unfold sliding_moves.
  apply Forall_flat_map. intros [dr dc] _. apply ray_plain.
Qed.

Lemma plain_matches (piece : Piece) (l : list Move) :
  Forall (fun m => promotion m = None) l -> Forall (promotion_matches piece) l.
Proof.
  apply Forall_impl. intros m H. unfold promotion_matches. rewrite H. exact I.
Qed.

Lemma moves_for_piece_match (b : Board) (square : Square) (piece : Piece) :
  Forall (promotion_matches piece) (moves_for_piece b square piece).
Proof.
  unfold moves_for_piece, knight_moves, king_moves. fold (piece_color piece).
  repeat match goal with
         | |- Forall _ (if ?c then _ else _) => destruct c
         end;
    try apply pawn_moves_match;
    try (apply plain_matches; apply step_moves_plain);
    try (apply plain_matches; apply sliding_moves_plain);
    constructor.
Qed.

Lemma generate_pseudo_moves_shape (b : Board) (color : Color) :
  Forall (pseudo_shape b color) (generate_pseudo_moves b color).
Proof.
  unfold generate_pseudo_moves.
  apply Forall_flat_map. intros row Hrow.
  apply Forall_flat_map. intros col Hcol.
  assert (Hon : is_on_board (row, col) = true).
  { apply on_board_bounds. rewrite <- !in_range8. auto. }
  destruct (cell (grid b) row col) as [piece|] eqn:Hcell; [|constructor].
  assert (H : own color piece = true ->
              Forall (pseudo_shape b color) (moves_for_piece b (row, col) piece)).
  { intros Hown. pose proof (own_piece_color _ _ Hown) as Hcolor.
    pose proof (moves_for_piece_emitted b (row, col) piece) as H1.
    pose proof (moves_for_piece_land b (row, col) piece) as H2.
    pose proof (moves_for_piece_match b (row, col) piece) as H3.
    rewrite Hcolor in H2. rewrite Forall_forall in *. intros m Hm.
    destruct (H1 m Hm) as [Hfrom [Hto _]]. destruct (H2 m Hm) as [Hne Hfree].
    unfold pseudo_shape. rewrite Hfrom. repeat split; auto.
    exists piece. unfold piece_at. auto. }
  destruct color; cbn [color_eqb andb own] in *.
  - destruct (isupper piece); cbn [negb]; [auto|constructor].
  - destruct (islower piece); cbn [negb]; [auto|constructor].
Qed.

(** X8: every move of the pseudo generator for [color] starts on a
    square of the board holding a piece of that color, ends on another
    square of the board that is empty or holds a piece of the opponent,
    and carries a promotion symbol, if any, in the case of the moving
    piece: no generated move stays in place or captures an own piece. *)
Theorem pseudo_moves_shape (b : Board) (color : Color) (m : Move) :
  wf_board b = true ->
  In m (generate_pseudo_moves b color) ->
  pseudo_shape b color m.
Proof.
  intros _ Hin. pose proof (generate_pseudo_moves_shape b color) as H.
  rewrite Forall_forall in H. auto.
Qed.

Lemma pseudo_moves_shape_witness :
  wf_board (board_of_fen start_fen) = true /\
  In (mkMove (6, 4) (4, 4) None)
     (generate_pseudo_moves (board_of_fen start_fen) white) /\
  pseudo_shape (board_of_fen start_fen) white (mkMove (6, 4) (4, 4) None).
Proof.
  assert (Hin : In (mkMove (6, 4) (4, 4) None)
                   (generate_pseudo_moves (board_of_fen start_fen) white)).
  { vm_compute. repeat first [left; reflexivity | right]. }
  split; [reflexivity|]. split; [exact Hin|].
  apply (pseudo_moves_shape (board_of_fen start_fen) white
           (mkMove (6, 4) (4, 4) None)); [reflexivity | exact Hin].
Defined.

Lemma sliding_moves_path_clear_witness :
  wf_board (board_of_fen "4k3/8/8/8/8/8/8/R3K3 w") = true /\
  In (mkMove (7, 0) (4, 0) None)
     (sliding_moves (board_of_fen "4k3/8/8/8/8/8/8/R3K3 w") (7, 0) white
        rook_directions) /\
  exists dr dc K,
    In (dr, dc) rook_directions /\
    1 <= K /\
    to_sq (mkMove (7, 0) (4, 0) None) = (fst (7, 0) + K * dr, snd (7, 0) + K * dc) /\
    (forall j, 1 <= j < K ->
       piece_at (board_of_fen "4k3/8/8/8/8/8/8/R3K3 w")
                (fst (7, 0) + j * dr, snd (7, 0) + j * dc) = None) /\
    destination_free (board_of_fen "4k3/8/8/8/8/8/8/R3K3 w") white
                     (mkMove (7, 0) (4, 0) None).
Proof.
  assert (Hin : In (mkMove (7, 0) (4, 0) None)
     (sliding_moves (board_of_fen "4k3/8/8/8/8/8/8/R3K3 w") (7, 0) white
        rook_directions)).
  { vm_compute. repeat first [left; reflexivity | right]. }
  split; [reflexivity|]. split; [exact Hin|].
  apply (sliding_moves_path_clear (board_of_fen "4k3/8/8/8/8/8/8/R3K3 w")
           (7, 0) white rook_directions (mkMove (7, 0) (4, 0) None));
    [reflexivity | exact Hin].
Defined.

(* ------------------------------------------------------------------ *)
(** ** Legal moves *)

Lemma filter_legal_spec (b : Board) (color : Color) (moves : list Move) :
  wf_board b = true ->
  Forall move_ok moves ->
  exists legal,
    filter_legal b color moves = Ok legal /\
    forall m, In m legal <->
              In m moves /\
              exists new_board,
                apply_move b m false = Ok new_board /\
                is_in_check new_board color = false.
Proof.
  intros Hwf. induction 1 as [|m0 rest [Hf [Ht _]] Hrest [legal [E Hspec]]].
  - exists []. split; [reflexivity|]. intros m. simpl. tauto.
  - cbn [filter_legal].
    destruct (apply_move b m0 false) as [nb|] eqn:Happ;
      [|rewrite apply_move_on_board in Happ by auto; discriminate].
    cbn [bind]. rewrite E. cbn [bind].
    destruct (is_in_check nb color) eqn:Hcheck; cbn [negb];
      eexists; (split; [reflexivity|]); intros m; cbn [In]; rewrite Hspec.
    + split; [intros [Hin H]; auto|].
      intros [[<-|Hin] [nb' [Happ' Hc]]]; [|eauto].
      rewrite Happ in Happ'. injection Happ' as <-. congruence.
    + split.
      * intros [<-|[Hin H]]; [|auto]. split; [left; auto|]. eauto.
      * intros [[<-|Hin] H]; auto.
Qed.

(** X9: on a board of 8 by 8 cells [generate_legal_moves] does not
    raise, and a move is in the list it returns exactly when the pseudo
    generator emits it and, on the board obtained by applying it without
    passing the turn, the king of the mover is not in check. *)
Theorem legal_moves_keep_king_safe (b : Board) (color : Color) :
  wf_board b = true ->
  exists legal,
    generate_legal_moves b (Some color) = Ok legal /\
    forall m, In m legal <->
              In m (generate_pseudo_moves b color) /\
              exists new_board,
                apply_move b m false = Ok new_board /\
                is_in_check new_board color = false.
Proof.
  intros Hwf. unfold generate_legal_moves.
  apply filter_legal_spec; auto. apply generate_pseudo_moves_ok.
Qed.

Lemma legal_moves_keep_king_safe_witness :
  wf_board fools_mate = true /\
  exists legal,
    generate_legal_moves fools_mate (Some white) = Ok legal /\
    forall m, In m legal <->
              In m (generate_pseudo_moves fools_mate white) /\
              exists new_board,
                apply_move fools_mate m false = Ok new_board /\
                is_in_check new_board white = false.
Proof.
  split; [reflexivity|].
  apply (legal_moves_keep_king_safe fools_mate white). reflexivity.
Defined.

(* ------------------------------------------------------------------ *)
(** ** Applying generated moves *)

Lemma apply_move_meets_claim (p : Board) (m : Move) (switch_turn : bool) :
  wf_board p = true ->
  is_on_board (from_sq m) = true ->
  is_on_board (to_sq m) = true ->
  from_sq m <> to_sq m ->
  (forall piece, piece_at p (from_sq m) = Some piece -> promotion_matches piece m) ->
  apply_move_claim p m switch_turn.
Proof.
  intros Hwf Hf Ht Hneq Hcase.
  unfold apply_move_claim. rewrite apply_move_on_board by auto.
  eexists. split; [reflexivity|].
  unfold destination_claim, promotion_matches, moved_piece in *.
  destruct m as [[fr fc] [tr tc] promo]. cbn [from_sq to_sq promotion fst snd] in *.
  pose proof Hf as Hf'. pose proof Ht as Ht'.
  apply on_board_bounds in Hf' as [Hfr Hfc].
  apply on_board_bounds in Ht' as [Htr Htc].
  unfold wf_board in Hwf.
  pose proof (wf_set_cell (grid p) fr fc None Hwf Hfr) as Hwf1.
  unfold piece_at; cbn [grid turn].
  split; [|split; [|split]].
  - rewrite cell_set_cell_other by (auto; lia).
    apply cell_set_cell_same; auto.
  - destruct promo as [promo|].
    + intros piece Hpiece. rewrite cell_set_cell_same by auto.
      unfold piece_at in Hcase. rewrite (Hcase piece Hpiece). reflexivity.
    + rewrite cell_set_cell_same by auto. reflexivity.
  - intros [r c] Hon Hnf Hnt. apply on_board_bounds in Hon as [Hr Hc].
    rewrite !cell_set_cell_other by (auto; lia). reflexivity.
  - reflexivity.
Qed.

(** X10: for every move the pseudo generator emits, hence for every
    legal move, [apply_move] does what the specification says of it: it
    returns a board whose origin cell is empty, whose destination holds
    the moved piece or the promotion symbol in the case of the moving
    piece, whose other cells are unchanged, and whose side to move is
    toggled exactly when [switch_turn] is true. *)
Theorem apply_generated_move (b : Board) (color : Color) (m : Move)
  (switch_turn : bool) :
  wf_board b = true ->
  In m (generate_pseudo_moves b color) ->
  apply_move_claim b m switch_turn.
Proof.
  intros Hwf Hin.
  pose proof (generate_pseudo_moves_shape b color) as H.
  rewrite Forall_forall in H.
  destruct (H m Hin) as [Hf [Ht [Hne [[piece [Hp [_ Hm]]] _]]]].
  apply apply_move_meets_claim; auto.
  intros piece' Hp'. rewrite Hp in Hp'. injection Hp' as <-. exact Hm.
Qed.

Lemma apply_generated_move_witness :
  wf_board promotion_board = true /\
  In (mkMove (1, 0) (0, 1) (Some "Q"%char))
     (generate_pseudo_moves promotion_board white) /\
  apply_move_claim promotion_board (mkMove (1, 0) (0, 1) (Some "Q"%char)) true.
Proof.
  assert (Hin : In (mkMove (1, 0) (0, 1) (Some "Q"%char))
                   (generate_pseudo_moves promotion_board white)).
  { vm_compute. repeat first [left; reflexivity | right]. }
  split; [reflexivity|]. split; [exact Hin|].
  apply (apply_generated_move promotion_board white
           (mkMove (1, 0) (0, 1) (Some "Q"%char)) true);
    [reflexivity | exact Hin].
Defined.

(* ------------------------------------------------------------------ *)
(** ** [apply_move] off the board *)

Lemma py_index_8 (i : Z) :
  py_index 8 i =
  if subscript_ok i then Ok (Z.to_nat (wrap i)) else Raise IndexError.
Proof.
  unfold py_index, subscript_ok, wrap.
  change (Z.of_nat 8) with 8. change (Z.opp 8) with (-8).
  destruct (Z.leb_spec 0 i) as [H0|H0], (Z.ltb_spec i 8) as [H8|H8],
    (Z.leb_spec (-8) i) as [Hm|Hm], (Z.ltb_spec i 0) as [Hn|Hn];
    cbn [andb]; try (exfalso; lia); try reflexivity.
  replace (8 + i) with (i + 8) by lia. reflexivity.
Qed.

Lemma wrap_bounds (i : Z) : subscript_ok i = true -> 0 <= wrap i < 8.
Proof.
  unfold subscript_ok, wrap. rewrite andb_true_iff, Z.leb_le, Z.ltb_lt.
  destruct (Z.ltb_spec i 0); lia.
Qed.

Lemma apply_move_wrapped (b : Board) (m : Move) (switch_turn : bool) :
  wf_board b = true ->
  move_subscripts_ok m = true ->
  apply_move b m switch_turn = apply_move b (wrap_move m) switch_turn.
Proof.
  destruct m as [[fr fc] [tr tc] promo].
  unfold move_subscripts_ok, wrap_move. cbn [from_sq to_sq promotion fst snd].
  rewrite !andb_true_iff. intros Hwf [[[Hfr Hfc] Htr] Htc].
  pose proof (wrap_bounds _ Hfr) as Bfr. pose proof (wrap_bounds _ Hfc) as Bfc.
  pose proof (wrap_bounds _ Htr) as Btr. pose proof (wrap_bounds _ Htc) as Btc.
  rewrite (apply_move_on_board b (mkMove (wrap fr, wrap fc) (wrap tr, wrap tc) promo))
    by (auto; apply on_board_bounds; auto).
  unfold wf_board in Hwf.
  pose proof (wf_grid_length _ Hwf) as Hlen.
  pose proof (wf_set_cell (grid b) (wrap fr) (wrap fc) None Hwf Bfr) as Hwf1.
  pose proof (wf_grid_length _ Hwf1) as Hlen1.
  unfold apply_move, py_get, py_set. cbn [from_sq to_sq promotion fst snd].
  rewrite Hlen, py_index_8, Hfr. cbn [bind].
  rewrite wf_grid_row, py_index_8, Hfc by (auto; lia). cbn [bind].
  fold (set_cell (grid b) (wrap fr) (wrap fc) None).
  rewrite Hlen1, py_index_8, Htr. cbn [bind].
  rewrite wf_grid_row, py_index_8, Htc by (auto; lia). cbn [bind].
  reflexivity.
Qed.

Lemma apply_move_out_of_range (b : Board) (m : Move) (switch_turn : bool) :
  wf_board b = true ->
  move_subscripts_ok m = false ->
  apply_move b m switch_turn = Raise IndexError.
Proof.
  destruct m as [[fr fc] [tr tc] promo].
  unfold move_subscripts_ok. cbn [from_sq to_sq promotion fst snd].
  intros Hwf Hbad. unfold wf_board in Hwf.
  pose proof (wf_grid_length _ Hwf) as Hlen.
  unfold apply_move, py_get, py_set. cbn [from_sq to_sq promotion fst snd].
  rewrite Hlen, py_index_8.
  destruct (subscript_ok fr) eqn:Hfr; cbn [bind]; [|reflexivity].
  pose proof (wrap_bounds _ Hfr) as Bfr.
  rewrite wf_grid_row, py_index_8 by (auto; lia).
  destruct (subscript_ok fc) eqn:Hfc; cbn [bind]; [|reflexivity].
  pose proof (wrap_bounds _ Hfc) as Bfc.
  fold (set_cell (grid b) (wrap fr) (wrap fc) None).
  pose proof (wf_set_cell (grid b) (wrap fr) (wrap fc) None Hwf Bfr) as Hwf1.
  rewrite (wf_grid_length _ Hwf1), py_index_8.
  destruct (subscript_ok tr) eqn:Htr; cbn [bind]; [|reflexivity].
  pose proof (wrap_bounds _ Htr) as Btr.
  rewrite wf_grid_row, py_index_8 by (auto; lia).
  destruct (subscript_ok tc) eqn:Htc; cbn [bind]; [|reflexivity].
  discriminate.
Qed.

(** X11: on a board of 8 by 8 cells [apply_move] checks its squares only
    as Python list subscripts.  A coordinate below -8 or above 7 raises
    IndexError; a coordinate from -8 to -1 is accepted and counts from the
    end, so that the move is applied as the move with every negative
    coordinate increased by 8, and the result is again 8 by 8. *)
Theorem apply_move_subscripts (b : Board) (m : Move) (switch_turn : bool) :
  wf_board b = true ->
  if move_subscripts_ok m
  then apply_move b m switch_turn = apply_move b (wrap_move m) switch_turn /\
       exists b', apply_move b m switch_turn = Ok b' /\ wf_board b' = true
  else apply_move b m switch_turn = Raise IndexError.
Proof.
  intros Hwf. destruct (move_subscripts_ok m) eqn:Hok.
  - pose proof (apply_move_wrapped b m switch_turn Hwf Hok) as E.
    split; [exact E|]. rewrite E.
    assert (Hon : is_on_board (from_sq (wrap_move m)) = true /\
                  is_on_board (to_sq (wrap_move m)) = true).
    { unfold move_subscripts_ok in Hok. rewrite !andb_true_iff in Hok.
      destruct Hok as [[[Hfr Hfc] Htr] Htc].
      unfold wrap_move. cbn [from_sq to_sq].
      split; apply on_board_bounds; auto using wrap_bounds. }
    destruct Hon as [Hf Ht].
    rewrite apply_move_on_board by auto. eexists. split; [reflexivity|].
    eapply apply_move_wf; [exact Hwf | exact Hf | exact Ht |].
    apply apply_move_on_board; auto.
  - apply apply_move_out_of_range; auto.
Qed.

Lemma apply_move_subscripts_witness :
  wf_board (board_of_fen start_fen) = true /\
  (if move_subscripts_ok (mkMove (-2, 4) (-4, -4) None)
   then apply_move (board_of_fen start_fen) (mkMove (-2, 4) (-4, -4) None) true =
        apply_move (board_of_fen start_fen)
                   (wrap_move (mkMove (-2, 4) (-4, -4) None)) true /\
        exists b', apply_move (board_of_fen start_fen)
                              (mkMove (-2, 4) (-4, -4) None) true = Ok b' /\
                   wf_board b' = true
   else apply_move (board_of_fen start_fen) (mkMove (-2, 4) (-4, -4) None) true =
        Raise IndexError).
Proof.
  split; [reflexivity|].
  apply (apply_move_subscripts (board_of_fen start_fen)
           (mkMove (-2, 4) (-4, -4) None) true). reflexivity.
Defined.

(** The move from (-2, 4) to (-4, -4) is e2e4. *)
Example apply_move_negative_subscripts :
  apply_move (board_of_fen start_fen) (mkMove (-2, 4) (-4, -4) None) true =
  Ok after_e4.
Proof. vm_compute. reflexivity. Qed.

(* ------------------------------------------------------------------ *)
(** ** The range of the scores *)

Lemma piece_value_range (c : ascii) : 0 <= piece_value c <= 36.
Proof.
  unfold piece_value.
  repeat match goal with
         | |- context [if ?c then _ else _] => destruct c
         end; lia.
Qed.

Lemma evaluate_fold_bound (b : Board) (l : list Square) (acc : Z) :
  let step := fun material sq =>
                match piece_at b sq with
                | None => material
                | Some piece =>
                    let base := piece_value (upper piece) in
                    if isupper piece then material + base else material - base
                end in
  acc - 36 * Z.of_nat (List.length l) <= fold_left step l acc
  <= acc + 36 * Z.of_nat (List.length l).
Proof.
  cbv zeta. revert acc. induction l as [|sq l IH]; intros acc.
  - simpl. lia.
  - cbn [fold_left List.length]. rewrite Nat2Z.inj_succ.
    match goal with
    | |- _ <= fold_left _ _ ?acc' <= _ => specialize (IH acc')
    end.
    destruct (piece_at b sq) as [piece|]; [|lia].
    pose proof (piece_value_range (upper piece)).
    destruct (isupper piece); lia.
Qed.

Lemma evaluate_bound (b : Board) : - 2304 <= evaluate_board b <= 2304.
Proof.
  unfold evaluate_board.
  pose proof (evaluate_fold_bound b all_squares 0) as H. cbv zeta in H.
  change (Z.of_nat (List.length all_squares)) with 64 in H. lia.
Qed.

(** X12: the static evaluation of any board lies within 576 pawns of
    zero (64 cells of at most a queen each), strictly inside the mate
    scores of 10000 pawns. *)
Theorem evaluate_board_bounded (b : Board) :
  wf_board b = true ->
  - pawns 576 <= evaluate_board b <= pawns 576 /\ pawns 576 < mate.
Proof.
  intros _. pose proof (evaluate_bound b). unfold mate, pawns. lia.
Qed.

Lemma evaluate_board_bounded_witness :
  wf_board hanging_queen = true /\
  - pawns 576 <= evaluate_board hanging_queen <= pawns 576 /\ pawns 576 < mate.
Proof.
  split; [reflexivity|].
  apply (evaluate_board_bounded hanging_queen). reflexivity.
Defined.

Lemma leaf_in_range (b : Board) (mc : Color) :
  in_mate_range
    (Fin (if color_eqb mc white then evaluate_board b else - evaluate_board b)).
Proof.
  pose proof (evaluate_bound b). eexists. split; [reflexivity|].
  unfold mate, pawns. destruct (color_eqb mc white); lia.
Qed.

Lemma no_moves_in_range (b : Board) (side us : Color) :
  in_mate_range (no_moves_score b side us).
Proof.
  unfold no_moves_score, in_mate_range, mate, pawns.
  destruct (is_in_check b side); [destruct (color_eqb side us)|];
    eexists; (split; [reflexivity|]); lia.
Qed.

Lemma smax_in_range (a b : Score) :
  (a = NegInf \/ in_mate_range a) -> in_mate_range b -> in_mate_range (smax a b).
Proof.
  intros [->|[qa [-> Ha]]] [qb [-> Hb]]; unfold smax, slt.
  - exists qb. auto.
  - destruct (qa <? qb); [exists qb | exists qa]; auto.
Qed.

Lemma smin_in_range (a b : Score) :
  (a = PosInf \/ in_mate_range a) -> in_mate_range b -> in_mate_range (smin a b).
Proof.
  intros [->|[qa [-> Ha]]] [qb [-> Hb]]; unfold smin, slt.
  - exists qb. auto.
  - destruct (qb <? qa); [exists qb | exists qa]; auto.
Qed.

Section FullRange.
Variable recf : Board -> result Score.
Variable board : Board.

Lemma full_max_loop_range (moves : list Move) :
  Forall (child_in_range recf board) moves ->
  forall value,
    (value = NegInf /\ moves <> [] \/ in_mate_range value) ->
    exists W, full_max_loop recf board moves value = Ok W /\ in_mate_range W.
Proof.
  induction 1 as [|m rest [child [s [Happ [Hs Hr]]]] _ IH]; intros value Hv.
  - destruct Hv as [[_ Hne]|Hv]; [contradiction|]. exists value. auto.
  - cbn [full_max_loop]. rewrite Happ. cbn [bind]. rewrite Hs. cbn [bind].
    apply IH. right. apply smax_in_range; auto. tauto.
Qed.

Lemma full_min_loop_range (moves : list Move) :
  Forall (child_in_range recf board) moves ->
  forall value,
    (value = PosInf /\ moves <> [] \/ in_mate_range value) ->
    exists W, full_min_loop recf board moves value = Ok W /\ in_mate_range W.
Proof.
  induction 1 as [|m rest [child [s [Happ [Hs Hr]]]] _ IH]; intros value Hv.
  - destruct Hv as [[_ Hne]|Hv]; [contradiction|]. exists value. auto.
  - cbn [full_min_loop]. rewrite Happ. cbn [bind]. rewrite Hs. cbn [bind].
    apply IH. right. apply smin_in_range; auto. tauto.
Qed.
End FullRange.

Lemma full_minimax_range (fuel : nat) :
  forall (board : Board) (depth : Z) (mc : Color),
    wf_board board = true ->
    0 <= depth < Z.of_nat fuel ->
    exists s, full_minimax fuel board depth mc = Ok s /\ in_mate_range s.
Proof.
  induction fuel as [|fuel IH]; intros board depth mc Hwf Hdepth; [lia|].
  cbn [full_minimax].
  destruct (Z.eqb_spec depth 0) as [->|Hnz].
  - eexists. split; [reflexivity|]. apply leaf_in_range.
  - destruct (generate_legal_moves_ok board (Some (turn board)) Hwf)
      as [legal [E Hall]].
    rewrite E. cbn [bind].
    destruct legal as [|m0 rest] eqn:El.
    + eexists. split; [reflexivity|]. apply no_moves_in_range.
    + rewrite <- El in *.
      assert (Hne : legal <> []) by (rewrite El; discriminate).
      clear El m0 rest.
      set (recf := fun child => full_minimax fuel child (depth - 1) mc).
      assert (Hchildren : Forall (child_in_range recf board) legal).
      { eapply Forall_impl; [|exact Hall].
        intros m [Hf [Ht _]].
        destruct (apply_move board m true) as [child|] eqn:Happ;
          [|rewrite apply_move_on_board in Happ by auto; discriminate].
        pose proof (apply_move_wf _ _ _ _ Hwf Hf Ht Happ) as Hwfc.
        destruct (IH child (depth - 1) mc Hwfc ltac:(lia)) as [s [Hs Hr]].
        exists child, s. auto. }
      destruct (color_eqb (turn board) mc).
      * apply (full_max_loop_range recf board legal Hchildren). auto.
      * apply (full_min_loop_range recf board legal Hchildren). auto.
Qed.

Lemma minimax_open_window (fuel : nat) (board : Board) (depth : Z) (mc : Color) :
  wf_board board = true ->
  0 <= depth < Z.of_nat fuel ->
  exists s,
    minimax fuel board depth NegInf PosInf mc = Ok s /\
    full_minimax fuel board depth mc = Ok s /\
    in_mate_range s.
Proof.
  intros Hwf Hdepth.
  destruct (minimax_bounds fuel board depth mc Hwf Hdepth) as [w [Hw Hv]].
  destruct (Hv NegInf PosInf eq_refl) as [v [Ev Hb]].
  apply bounds_full_window in Hb. subst w.
  destruct (full_minimax_range fuel board depth mc Hwf Hdepth) as [s [Es Hr]].
  rewrite Hw in Es. injection Es as <-. exists v. auto.
Qed.

(** X13: for a depth of zero or more plies and a recursion budget above
    it, the search started on the open window returns a finite score
    between -10000 and +10000 pawns: the infinities that initialise the
    loops never come out. *)
Theorem minimax_score_in_mate_range (fuel : nat) (board : Board) (depth : Z)
  (maximizing_color : Color) :
  wf_board board = true ->
  0 <= depth < Z.of_nat fuel ->
  exists q,
    minimax fuel board depth NegInf PosInf maximizing_color = Ok (Fin q) /\
    - pawns 10000 <= q <= pawns 10000.
Proof.
  intros Hwf Hdepth.
  destruct (minimax_open_window fuel board depth maximizing_color Hwf Hdepth)
    as [s [E [_ [q [-> Hq]]]]].
  exists q. auto.
Qed.

Lemma minimax_score_in_mate_range_witness :
  wf_board (board_of_fen start_fen) = true /\
  0 <= 2 < Z.of_nat 3 /\
  exists q,
    minimax 3 (board_of_fen start_fen) 2 NegInf PosInf black = Ok (Fin q) /\
    - pawns 10000 <= q <= pawns 10000.
Proof.
  split; [reflexivity|]. split; [lia|].
  apply (minimax_score_in_mate_range 3 (board_of_fen start_fen) 2 black);
    [reflexivity|lia].
Defined.

(* ------------------------------------------------------------------ *)
(** ** The maximizing color *)

Lemma smin_sneg (a b : Score) : smin (sneg a) (sneg b) = sneg (smax a b).
Proof.
  destruct a as [|q|], b as [|q0|]; try reflexivity.
  unfold smin, smax, slt, sneg.
  destruct (Z.ltb_spec q q0), (Z.ltb_spec (- q0) (- q));
    try reflexivity; exfalso; lia.
Qed.

Lemma smax_sneg (a b : Score) : smax (sneg a) (sneg b) = sneg (smin a b).
Proof.
  destruct a as [|q|], b as [|q0|]; try reflexivity.
  unfold smin, smax, slt, sneg.
  destruct (Z.ltb_spec q0 q), (Z.ltb_spec (- q) (- q0));
    try reflexivity; exfalso; lia.
Qed.

Section ColorLoops.
Variable recw recb : Board -> result Score.
Variable board : Board.

Lemma full_loops_sneg (moves : list Move) :
  Forall (fun m => exists child s,
            apply_move board m true = Ok child /\
            recw child = Ok s /\ recb child = Ok (sneg s)) moves ->
  forall value,
    (exists W, full_max_loop recw board moves value = Ok W /\
               full_min_loop recb board moves (sneg value) = Ok (sneg W)) /\
    (exists W, full_min_loop recw board moves value = Ok W /\
               full_max_loop recb board moves (sneg value) = Ok (sneg W)).
Proof.
  induction 1 as [|m rest [child [s [Happ [Hw Hb]]]] _ IH]; intros value.
  - split; exists value; auto.
  - cbn [full_max_loop full_min_loop]. rewrite Happ. cbn [bind].
    rewrite Hw, Hb. cbn [bind]. rewrite smin_sneg, smax_sneg.
    split; apply IH.
Qed.
End ColorLoops.

Lemma full_minimax_colors (fuel : nat) :
  forall (board : Board) (depth : Z),
    wf_board board = true ->
    0 <= depth < Z.of_nat fuel ->
    exists s,
      full_minimax fuel board depth white = Ok s /\
      full_minimax fuel board depth black = Ok (sneg s).
Proof.
  induction fuel as [|fuel IH]; intros board depth Hwf Hdepth; [lia|].
  cbn [full_minimax].
  destruct (Z.eqb_spec depth 0) as [->|Hnz].
  - exists (Fin (evaluate_board board)). cbn [color_eqb sneg]. auto.
  - destruct (generate_legal_moves_ok board (Some (turn board)) Hwf)
      as [legal [E Hall]].
    rewrite E. cbn [bind].
    destruct legal as [|m0 rest] eqn:El.
    + exists (no_moves_score board (turn board) white). split; [reflexivity|].
      unfold no_moves_score. destruct (is_in_check board (turn board));
        [destruct (turn board)|]; reflexivity.
    + rewrite <- El in *. clear El m0 rest.
      set (recw := fun child => full_minimax fuel child (depth - 1) white).
      set (recb := fun child => full_minimax fuel child (depth - 1) black).
      assert (Hchildren :
        Forall (fun m => exists child s,
                  apply_move board m true = Ok child /\
                  recw child = Ok s /\ recb child = Ok (sneg s)) legal).
      { eapply Forall_impl; [|exact Hall].
        intros m [Hf [Ht _]].
        destruct (apply_move board m true) as [child|] eqn:Happ;
          [|rewrite apply_move_on_board in Happ by auto; discriminate].
        pose proof (apply_move_wf _ _ _ _ Hwf Hf Ht Happ) as Hwfc.
        destruct (IH child (depth - 1) Hwfc ltac:(lia)) as [s [Hs Hn]].
        exists child, s. auto. }
      destruct (turn board); cbn [color_eqb].
      * destruct (full_loops_sneg recw recb board legal Hchildren NegInf)
          as [[W [H1 H2]] _]. exists W. auto.
      * destruct (full_loops_sneg recw recb board legal Hchildren PosInf)
          as [_ [W [H1 H2]]]. exists W. auto.
Qed.

(** X14: the maximizing color only fixes the sign of the result: for a
    depth of zero or more plies, the score of a position for Black as
    maximizing color is the negation of its score for White, in the full
    minimax and in the search with cut-offs on the open window. *)
Theorem minimax_black_negates_white (fuel : nat) (board : Board) (depth : Z) :
  wf_board board = true ->
  0 <= depth < Z.of_nat fuel ->
  exists s,
    minimax fuel board depth NegInf PosInf white = Ok s /\
    minimax fuel board depth NegInf PosInf black = Ok (sneg s) /\
    full_minimax fuel board depth white = Ok s /\
    full_minimax fuel board depth black = Ok (sneg s).
Proof.
  intros Hwf Hdepth.
  destruct (full_minimax_colors fuel board depth Hwf Hdepth) as [s [Hw Hb]].
  destruct (minimax_open_window fuel board depth white Hwf Hdepth)
    as [sw [Ew [Fw _]]].
  destruct (minimax_open_window fuel board depth black Hwf Hdepth)
    as [sb [Eb [Fb _]]].
  rewrite Hw in Fw. injection Fw as <-.
  rewrite Hb in Fb. injection Fb as <-.
  exists s. auto.
Qed.

Lemma minimax_black_negates_white_witness :
  wf_board hanging_queen = true /\
  0 <= 2 < Z.of_nat 3 /\
  exists s,
    minimax 3 hanging_queen 2 NegInf PosInf white = Ok s /\
    minimax 3 hanging_queen 2 NegInf PosInf black = Ok (sneg s) /\
    full_minimax 3 hanging_queen 2 white = Ok s /\
    full_minimax 3 hanging_queen 2 black = Ok (sneg s).
Proof.
  split; [reflexivity|]. split; [lia|].
  apply (minimax_black_negates_white 3 hanging_queen 2); [reflexivity|lia].
Defined.

(* ------------------------------------------------------------------ *)
(** ** The loop of [find_best_move] *)

Lemma beats_trans (side : Color) (r s best : Score) :
  beats side r s = true -> beats side s best = true -> beats side r best = true.
Proof. unfold beats. destruct side; cbn [color_eqb]; intros; score_order. Qed.

Lemma beats_over (side : Color) (r s best : Score) :
  beats side r best = true -> beats side s best = false -> beats side r s = true.
Proof. unfold beats. destruct side; cbn [color_eqb]; intros; score_order. Qed.

Lemma beats_initial (side : Color) (s : Score) :
  in_mate_range s ->
  beats side s (if color_eqb side white then NegInf else PosInf) = true.
Proof. intros [q [-> _]]. destruct side; reflexivity. Qed.

Lemma legal_move_scored (fuel : nat) (board : Board) (max_depth : Z)
  (side : Color) (m : Move) :
  wf_board board = true ->
  1 <= max_depth <= Z.of_nat fuel ->
  move_ok m ->
  exists s, scored fuel board max_depth side m s.
Proof.
  intros Hwf Hd [Hf [Ht _]].
  destruct (apply_move board m true) as [child|] eqn:Happ;
    [|rewrite apply_move_on_board in Happ by auto; discriminate].
  pose proof (apply_move_wf _ _ _ _ Hwf Hf Ht Happ) as Hwfc.
  destruct (minimax_open_window fuel child (max_depth - 1) side Hwfc ltac:(lia))
    as [s [E [F R]]].
  exists s. unfold scored, child_value. rewrite Happ. cbn [bind]. eauto.
Qed.

Section BestLoop.
Variable fuel : nat.
Variable board : Board.
Variable max_depth : Z.
Variable side : Color.

Lemma best_loop_spec (moves : list Move) :
  Forall (fun m => exists s, scored fuel board max_depth side m s) moves ->
  forall best_move best_score,
  exists r,
    best_loop fuel board max_depth side moves best_move best_score = Ok r /\
    ((move r = best_move /\ score r = best_score /\
      forall m s, In m moves ->
        child_value fuel board (max_depth - 1) side m = Ok s ->
        beats side s best_score = false)
     \/
     (exists pre m post,
        moves = pre ++ m :: post /\
        move r = Some m /\
        scored fuel board max_depth side m (score r) /\
        beats side (score r) best_score = true /\
        (forall m' s', In m' pre ->
           child_value fuel board (max_depth - 1) side m' = Ok s' ->
           beats side (score r) s' = true) /\
        (forall m' s', In m' post ->
           child_value fuel board (max_depth - 1) side m' = Ok s' ->
           beats side s' (score r) = false))).
Proof.
  induction 1 as [|m rest [s Hs] _ IH]; intros best_move best_score.
  - eexists. split; [reflexivity|]. left. cbn [move score].
    split; [reflexivity|]. split; [reflexivity|]. intros m s [].
  - pose proof Hs as [[child [Happ Hmm]] [Hval Hrange]].
    cbn [best_loop]. rewrite Happ. cbn [bind]. rewrite Hmm. cbn [bind].
    assert (Hbeats :
      (if color_eqb side white then slt best_score s else slt s best_score)
      = beats side s best_score) by reflexivity.
    destruct (beats side s best_score) eqn:Hb.
    + assert (E : best_loop fuel board max_depth side rest (Some m) s =
                  (if color_eqb side white
                   then if slt best_score s
                        then best_loop fuel board max_depth side rest (Some m) s
                        else best_loop fuel board max_depth side rest
                               best_move best_score
                   else if slt s best_score
                        then best_loop fuel board max_depth side rest (Some m) s
                        else best_loop fuel board max_depth side rest
                               best_move best_score)).
      { destruct (color_eqb side white); rewrite Hbeats; reflexivity. }
      rewrite <- E. clear E.
      destruct (IH (Some m) s) as [r [Er [[Hm [Hsc Hall]] | Hrepl]]].
      * exists r. split; [exact Er|]. right.
        exists [], m, rest. rewrite Hsc.
        split; [reflexivity|]. split; [exact Hm|]. split; [exact Hs|].
        split; [exact Hb|]. split; [intros m' s' []|exact Hall].
      * destruct Hrepl as [pre [m2 [post [-> [Hm2 [Hs2 [Hb2 [Hpre Hpost]]]]]]]].
        exists r. split; [exact Er|]. right.
        exists (m :: pre), m2, post.
        split; [reflexivity|]. split; [exact Hm2|]. split; [exact Hs2|].
        split; [eapply beats_trans; eauto|]. split; [|exact Hpost].
        intros m' s' [<-|Hin] Hv; [|eauto].
        rewrite Hval in Hv. injection Hv as <-. exact Hb2.
    + assert (E : best_loop fuel board max_depth side rest best_move best_score =
                  (if color_eqb side white
                   then if slt best_score s
                        then best_loop fuel board max_depth side rest (Some m) s
                        else best_loop fuel board max_depth side rest
                               best_move best_score
                   else if slt s best_score
                        then best_loop fuel board max_depth side rest (Some m) s
                        else best_loop fuel board max_depth side rest
                               best_move best_score)).
      { destruct (color_eqb side white); rewrite Hbeats; reflexivity. }
      rewrite <- E. clear E.
      destruct (IH best_move best_score) as [r [Er [[Hm [Hsc Hall]] | Hrepl]]].
      * exists r. split; [exact Er|]. left.
        split; [exact Hm|]. split; [exact Hsc|].
        intros m' s' [<-|Hin] Hv; [|eauto].
        rewrite Hval in Hv. injection Hv as <-. exact Hb.
      * destruct Hrepl as [pre [m2 [post [-> [Hm2 [Hs2 [Hb2 [Hpre Hpost]]]]]]]].
        exists r. split; [exact Er|]. right.
        exists (m :: pre), m2, post.
        split; [reflexivity|]. split; [exact Hm2|]. split; [exact Hs2|].
        split; [exact Hb2|]. split; [|exact Hpost].
        intros m' s' [<-|Hin] Hv; [|eauto].
        rewrite Hval in Hv. injection Hv as <-.
        eapply beats_over; eauto.
Qed.
End BestLoop.

Lemma find_best_move_spec (fuel : nat) (board : Board) (max_depth : Z)
  (legal : list Move) :
  wf_board board = true ->
  generate_legal_moves board (Some (turn board)) = Ok legal ->
  legal <> [] ->
  1 <= max_depth <= Z.of_nat fuel ->
  exists pre m post s,
    legal = pre ++ m :: post /\
    find_best_move fuel board max_depth = Ok (mkSearchResult (Some m) s) /\
    scored fuel board max_depth (turn board) m s /\
    (forall m' s', In m' pre ->
       child_value fuel board (max_depth - 1) (turn board) m' = Ok s' ->
       beats (turn board) s s' = true) /\
    (forall m' s', In m' post ->
       child_value fuel board (max_depth - 1) (turn board) m' = Ok s' ->
       beats (turn board) s' s = false).
Proof.
  intros Hwf Hlegal Hne Hd.
  destruct (generate_legal_moves_ok board (Some (turn board)) Hwf)
    as [legal' [E Hall]].
  rewrite Hlegal in E. injection E as <-.
  assert (Hscored : Forall (fun m => exists s,
                      scored fuel board max_depth (turn board) m s) legal).
  { eapply Forall_impl; [|exact Hall]. intros m Hm.
    apply legal_move_scored; auto. }
  unfold find_best_move. rewrite Hlegal. cbn [bind].
  destruct legal as [|m0 rest] eqn:El; [contradiction|]. rewrite <- El in *.
  destruct (best_loop_spec fuel board max_depth (turn board) legal Hscored None
              (if color_eqb (turn board) white then NegInf else PosInf))
    as [r [Er [[Hm [Hsc Hnone]] | Hrepl]]].
  - exfalso.
    assert (Hin : In m0 legal) by (rewrite El; left; reflexivity).
    rewrite Forall_forall in Hscored.
    destruct (Hscored m0 Hin) as [s0 [_ [Hv Hr]]].
    specialize (Hnone m0 s0 Hin Hv).
    rewrite (beats_initial (turn board) s0 Hr) in Hnone. discriminate.
  - destruct Hrepl as [pre [m [post [Esplit [Hm [Hs [_ [Hpre Hpost]]]]]]]].
    exists pre, m, post, (score r).
    destruct r as [rm rs]. cbn [move score] in *. subst rm.
    split; [exact Esplit|]. split; [exact Er|]. split; [exact Hs|].
    split; [exact Hpre|exact Hpost].
Qed.

(** X15: when the side to move has a legal move, the depth is at least
    one ply and the recursion budget is not below the depth,
    [find_best_move] returns one of the legal moves, never an absent
    move, with a finite score between -10000 and +10000 pawns. *)
Theorem find_best_move_returns_legal_move (fuel : nat) (board : Board)
  (max_depth : Z) (m0 : Move) (rest : list Move) :
  wf_board board = true ->
  generate_legal_moves board (Some (turn board)) = Ok (m0 :: rest) ->
  1 <= max_depth <= Z.of_nat fuel ->
  exists m q,
    find_best_move fuel board max_depth = Ok (mkSearchResult (Some m) (Fin q)) /\
    In m (m0 :: rest) /\
    - pawns 10000 <= q <= pawns 10000.
Proof.
  intros Hwf Hlegal Hd.
  destruct (find_best_move_spec fuel board max_depth (m0 :: rest) Hwf Hlegal
              ltac:(discriminate) Hd)
    as [pre [m [post [s [Esplit [E [[_ [_ [q [-> Hq]]]] _]]]]]]].
  exists m, q. split; [exact E|]. split; [|exact Hq].
  rewrite Esplit. apply in_or_app. right. left. reflexivity.
Qed.

Lemma find_best_move_returns_legal_move_witness :
  wf_board corner_kings = true /\
  generate_legal_moves corner_kings (Some (turn corner_kings)) =
    Ok (mkMove (7, 0) (6, 0) None
        :: [mkMove (7, 0) (6, 1) None; mkMove (7, 0) (7, 1) None]) /\
  1 <= 2 <= Z.of_nat 2 /\
  exists m q,
    find_best_move 2 corner_kings 2 = Ok (mkSearchResult (Some m) (Fin q)) /\
    In m (mkMove (7, 0) (6, 0) None
          :: [mkMove (7, 0) (6, 1) None; mkMove (7, 0) (7, 1) None]) /\
    - pawns 10000 <= q <= pawns 10000.
Proof.
  split; [reflexivity|]. split; [vm_compute; reflexivity|]. split; [lia|].
  apply (find_best_move_returns_legal_move 2 corner_kings 2);
    [reflexivity | vm_compute; reflexivity | lia].
Defined.

(** X16: with White to move, [find_best_move] returns the first legal
    move whose child has the greatest full-minimax value at depth
    [max_depth - 1]: every move generated before it has a strictly
    smaller value, no move generated after it a greater one, and the
    score returned is that value. *)
Theorem find_best_move_white_optimal (fuel : nat) (board : Board)
  (max_depth : Z) (m0 : Move) (rest : list Move) :
  wf_board board = true ->
  turn board = white ->
  generate_legal_moves board (Some white) = Ok (m0 :: rest) ->
  1 <= max_depth <= Z.of_nat fuel ->
  exists pre m post s,
    m0 :: rest = pre ++ m :: post /\
    find_best_move fuel board max_depth = Ok (mkSearchResult (Some m) s) /\
    child_value fuel board (max_depth - 1) white m = Ok s /\
    (forall m', In m' pre ->
       exists s', child_value fuel board (max_depth - 1) white m' = Ok s' /\
                  slt s' s = true) /\
    (forall m', In m' post ->
       exists s', child_value fuel board (max_depth - 1) white m' = Ok s' /\
                  sle s' s = true).
Proof.
  intros Hwf Hturn Hlegal Hd.
  rewrite <- Hturn in Hlegal.
  destruct (find_best_move_spec fuel board max_depth (m0 :: rest) Hwf Hlegal
              ltac:(discriminate) Hd)
    as [pre [m [post [s [Esplit [E [[_ [Hv _]] [Hpre Hpost]]]]]]]].
  destruct (generate_legal_moves_ok board (Some (turn board)) Hwf)
    as [legal' [E' Hall]].
  rewrite Hlegal in E'. injection E' as <-.
  rewrite Hturn in *.
  exists pre, m, post, s.
  split; [exact Esplit|]. split; [exact E|]. split; [exact Hv|]. split.
  - intros m' Hin.
    assert (Hok : move_ok m').
    { rewrite Forall_forall in Hall. apply Hall. rewrite Esplit.
      apply in_or_app. left. exact Hin. }
    destruct (legal_move_scored fuel board max_depth white m' Hwf Hd Hok)
      as [s' [_ [Hv' _]]].
    exists s'. split; auto. apply (Hpre m' s' Hin Hv').
  - intros m' Hin.
    assert (Hok : move_ok m').
    { rewrite Forall_forall in Hall. apply Hall. rewrite Esplit.
      apply in_or_app. right. right. exact Hin. }
    destruct (legal_move_scored fuel board max_depth white m' Hwf Hd Hok)
      as [s' [_ [Hv' _]]].
    exists s'. split; auto.
    pose proof (Hpost m' s' Hin Hv') as H. unfold beats in H.
    cbn [color_eqb] in H. unfold sle. rewrite H. reflexivity.
Qed.

Lemma find_best_move_white_optimal_witness :
  wf_board corner_kings = true /\
  turn corner_kings = white /\
  generate_legal_moves corner_kings (Some white) =
    Ok (mkMove (7, 0) (6, 0) None
        :: [mkMove (7, 0) (6, 1) None; mkMove (7, 0) (7, 1) None]) /\
  1 <= 2 <= Z.of_nat 2 /\
  exists pre m post s,
    mkMove (7, 0) (6, 0) None
      :: [mkMove (7, 0) (6, 1) None; mkMove (7, 0) (7, 1) None]
    = pre ++ m :: post /\
    find_best_move 2 corner_kings 2 = Ok (mkSearchResult (Some m) s) /\
    child_value 2 corner_kings (2 - 1) white m = Ok s /\
    (forall m', In m' pre ->
       exists s', child_value 2 corner_kings (2 - 1) white m' = Ok s' /\
                  slt s' s = true) /\
    (forall m', In m' post ->
       exists s', child_value 2 corner_kings (2 - 1) white m' = Ok s' /\
                  sle s' s = true).
Proof.
  split; [reflexivity|]. split; [reflexivity|].
  split; [vm_compute; reflexivity|]. split; [lia|].
  apply (find_best_move_white_optimal 2 corner_kings 2);
    [reflexivity | reflexivity | vm_compute; reflexivity | lia].
Defined.

(* ------------------------------------------------------------------ *)
(** ** The end of the game *)

Lemma length_zero_nil {A : Type} (l : list A) :
  (List.length l =? 0)%nat = true <-> l = [].
Proof. destruct l; simpl; split; intros; try discriminate; auto. Qed.

(** X17: on a board of 8 by 8 cells [is_checkmate] and [is_stalemate]
    both return; they are never both true, one of them is true exactly
    when the side has no legal move, and then checkmate is the case with
    the king in check and stalemate the case without. *)
Theorem checkmate_or_stalemate (b : Board) (color : Color) :
  wf_board b = true ->
  exists legal mate stale,
    generate_legal_moves b (Some color) = Ok legal /\
    is_checkmate b color = Ok mate /\
    is_stalemate b color = Ok stale /\
    (mate && stale = false) /\
    (mate || stale = true <-> legal = []) /\
    (mate = true -> is_in_check b color = true) /\
    (stale = true -> is_in_check b color = false).
Proof.
  intros Hwf.
  destruct (generate_legal_moves_ok b (Some color) Hwf) as [legal [E _]].
  unfold is_checkmate, is_stalemate. rewrite E.
  exists legal. destruct (is_in_check b color); cbn [negb bind];
    do 2 eexists; (split; [reflexivity|]); (split; [reflexivity|]);
    (split; [reflexivity|]); rewrite ?andb_false_r, ?orb_false_r;
    cbn [andb orb]; rewrite length_zero_nil;
    repeat split; auto; try discriminate; tauto.
Qed.

Lemma checkmate_or_stalemate_witness :
  wf_board fools_mate = true /\
  exists legal mate stale,
    generate_legal_moves fools_mate (Some white) = Ok legal /\
    is_checkmate fools_mate white = Ok mate /\
    is_stalemate fools_mate white = Ok stale /\
    (mate && stale = false) /\
    (mate || stale = true <-> legal = []) /\
    (mate = true -> is_in_check fools_mate white = true) /\
    (stale = true -> is_in_check fools_mate white = false).
Proof.
  split; [reflexivity|].
  apply (checkmate_or_stalemate fools_mate white). reflexivity.
Defined.

Lemma is_finished_spec (g : Game.t) (legal : list Move) :
  generate_legal_moves (Game.board g) (Some (turn (Game.board g))) = Ok legal ->
  Game.is_finished g =
  Ok (match legal with
      | _ :: _ => None
      | [] =>
          if is_in_check (Game.board g) (turn (Game.board g))
          then Some (mkGameResult (Some (opposite (turn (Game.board g))))
                                  "checkmate")
          else Some (mkGameResult None "stalemate")
      end).
Proof.
  intros E. unfold Game.is_finished, is_checkmate, is_stalemate. rewrite E.
  destruct (is_in_check (Game.board g) (turn (Game.board g)));
    destruct legal; reflexivity.
Qed.

(** X18: [Game.is_finished] and the engine agree.  On a board of 8 by 8
    cells, for a depth of at least one ply within the recursion budget:
    when the side to move has no legal move the game is finished, won by
    the opponent if the side to move is in check and drawn otherwise, and
    [ai_move] returns no move; otherwise the game is not finished,
    [ai_move] returns one of the legal moves and [Game.apply_move] accepts
    it, giving again a board of 8 by 8 cells with the other side to
    move. *)
Theorem engine_moves_until_finished (fuel : nat) (g : Game.t) (depth : Z)
  (legal : list Move) :
  wf_board (Game.board g) = true ->
  generate_legal_moves (Game.board g) (Some (Game.turn g)) = Ok legal ->
  1 <= depth <= Z.of_nat fuel ->
  match legal with
  | [] =>
      Game.is_finished g =
        Ok (Some (if is_in_check (Game.board g) (Game.turn g)
                  then mkGameResult (Some (opposite (Game.turn g))) "checkmate"
                  else mkGameResult None "stalemate")) /\
      exists s, Game.ai_move fuel g depth = Ok (mkSearchResult None s)
  | _ :: _ =>
      Game.is_finished g = Ok None /\
      exists m s g',
        Game.ai_move fuel g depth = Ok (mkSearchResult (Some m) s) /\
        In m legal /\
        Game.apply_move g m = Ok g' /\
        wf_board (Game.board g') = true /\
        Game.turn g' = opposite (Game.turn g)
  end.
Proof.
  unfold Game.turn, Game.ai_move. intros Hwf Hlegal Hd.
  rewrite (is_finished_spec g legal Hlegal).
  destruct legal as [|m0 rest] eqn:El.
  - split; [destruct (is_in_check _ _); reflexivity|].
    unfold find_best_move. rewrite Hlegal. cbn [bind]. eauto.
  - split; [reflexivity|]. rewrite <- El in *.
    destruct (find_best_move_spec fuel (Game.board g) depth legal Hwf Hlegal
                ltac:(rewrite El; discriminate) Hd)
      as [pre [m [post [s [Esplit [E _]]]]]].
    assert (Hin : In m legal).
    { rewrite Esplit. apply in_or_app. right. left. reflexivity. }
    destruct (generate_legal_moves_ok (Game.board g)
                (Some (turn (Game.board g))) Hwf) as [legal' [E' Hall]].
    rewrite Hlegal in E'. injection E' as <-.
    rewrite Forall_forall in Hall. destruct (Hall m Hin) as [Hf [Ht _]].
    pose proof (apply_move_on_board (Game.board g) m true Hwf Hf Ht) as Happ.
    exists m, s. eexists.
    split; [exact E|]. split; [exact Hin|].
    unfold Game.apply_move. rewrite Happ. cbn [bind].
    split; [reflexivity|]. cbn [Game.board].
    split; [|reflexivity].
    eapply apply_move_wf; [exact Hwf | exact Hf | exact Ht | exact Happ].
Qed.

Lemma engine_moves_until_finished_witness :
  wf_board (Game.board (Game.mk fools_mate)) = true /\
  generate_legal_moves (Game.board (Game.mk fools_mate))
    (Some (Game.turn (Game.mk fools_mate))) = Ok [] /\
  1 <= 3 <= Z.of_nat 3 /\
  Game.is_finished (Game.mk fools_mate) =
    Ok (Some (if is_in_check (Game.board (Game.mk fools_mate))
                             (Game.turn (Game.mk fools_mate))
              then mkGameResult
                     (Some (opposite (Game.turn (Game.mk fools_mate))))
                     "checkmate"
              else mkGameResult None "stalemate")) /\
  exists s, Game.ai_move 3 (Game.mk fools_mate) 3 = Ok (mkSearchResult None s).
Proof.
  split; [reflexivity|]. split; [vm_compute; reflexivity|]. split; [lia|].
  apply (engine_moves_until_finished 3 (Game.mk fools_mate) 3 []);
    [reflexivity | vm_compute; reflexivity | lia].
Defined.

(** The fool's mate is a win for Black. *)
Example fools_mate_finished :
  Game.is_finished (Game.mk fools_mate) =
  Ok (Some (mkGameResult (Some black) "checkmate")).
Proof. vm_compute. reflexivity. Qed.

(* ------------------------------------------------------------------ *)
(** ** Entering a move *)

Lemma move_eta (m : Move) : mkMove (from_sq m) (to_sq m) (promotion m) = m.
Proof. destruct m. reflexivity. Qed.

Lemma match_move_spec (legal : list Move) (typed m : Move) :
  Game.match_move legal typed = Some m ->
  exists m',
    In m' legal /\
    from_sq m' = from_sq typed /\ to_sq m' = to_sq typed /\
    (if is_none (promotion typed) then m = m' else m = typed).
Proof.
  induction legal as [|m' rest IH]; cbn [Game.match_move]; [discriminate|].
  destruct (square_eqb (from_sq m') (from_sq typed)
            && square_eqb (to_sq m') (to_sq typed)) eqn:Hsq.
  - apply andb_true_iff in Hsq as [Hf Ht].
    apply square_eqb_eq in Hf. apply square_eqb_eq in Ht.
    intros E. exists m'. split; [left; reflexivity|]. split; [exact Hf|].
    split; [exact Ht|].
    destruct (promotion typed) as [c|] eqn:Hp; cbn [is_none] in *.
    + rewrite andb_false_r in E. injection E as <-. reflexivity.
    + rewrite andb_true_r in E.
      destruct (promotion m') as [c'|] eqn:Hp'; cbn [is_none negb] in E;
        injection E as <-.
      * rewrite <- Hp'. apply move_eta.
      * rewrite <- (move_eta typed), <- (move_eta m'). congruence.
  - intros E. destruct (IH E) as [m2 [Hin H]]. exists m2. split; [right|]; auto.
Qed.

Lemma str_to_square_raises (s : list ascii) (e : exn) :
  str_to_square s = Raise e -> e = ValueError.
Proof.
  destruct s as [|f [|r [|x t]]]; simpl; try congruence.
  destruct (_ || _); congruence.
Qed.

Lemma from_long_algebraic_raises (s : string) (e : exn) :
  from_long_algebraic s = Raise e -> e = ValueError.
Proof.
  unfold from_long_algebraic.
  destruct (negb _); [congruence|].
  destruct (str_to_square (firstn 2 _)) as [sq1|e1] eqn:E1; cbn [bind];
    [|intros E; injection E as <-; eapply str_to_square_raises; eauto].
  destruct (str_to_square (firstn 2 (skipn 2 _))) as [sq2|e2] eqn:E2; cbn [bind];
    [|intros E; injection E as <-; eapply str_to_square_raises; eauto].
  destruct (_ =? 5)%nat; [|discriminate].
  destruct (negb _); congruence.
Qed.

(** X19: on a board of 8 by 8 cells [parse_and_validate_move] never
    raises.  When it returns a move, the trimmed text was accepted by
    [from_long_algebraic] and names the origin and destination of a legal
    move; if the text has no promotion letter the move returned is that
    legal move itself, with the legal move's promotion, and if it has one
    the move returned is the typed move with the uppercase letter. *)
Theorem parse_and_validate_move_sound (g : Game.t) (move_str : string) :
  wf_board (Game.board g) = true ->
  exists legal r,
    generate_legal_moves (Game.board g) (Some (Game.turn g)) = Ok legal /\
    Game.parse_and_validate_move g move_str = Ok r /\
    forall m, r = Some m ->
      exists typed m',
        from_long_algebraic (text (strip (chars move_str))) = Ok typed /\
        In m' legal /\
        from_sq m' = from_sq typed /\ to_sq m' = to_sq typed /\
        (if is_none (promotion typed) then m = m' else m = typed).
Proof.
  intros Hwf.
  destruct (generate_legal_moves_ok (Game.board g) (Some (Game.turn g)) Hwf)
    as [legal [E _]].
  exists legal. unfold Game.parse_and_validate_move. rewrite E. cbn [bind].
  destruct (from_long_algebraic (text (strip (chars move_str))))
    as [typed|e] eqn:Ep.
  - eexists. split; [reflexivity|]. split; [reflexivity|].
    intros m Hm. apply match_move_spec in Hm as [m' H].
    exists typed, m'. tauto.
  - rewrite (from_long_algebraic_raises _ _ Ep).
    eexists. split; [reflexivity|]. split; [reflexivity|]. discriminate.
Qed.

Lemma parse_and_validate_move_sound_witness :
  wf_board (Game.board (Game.mk promotion_board)) = true /\
  exists legal r,
    generate_legal_moves (Game.board (Game.mk promotion_board))
      (Some (Game.turn (Game.mk promotion_board))) = Ok legal /\
    Game.parse_and_validate_move (Game.mk promotion_board) " a7a8 " = Ok r /\
    forall m, r = Some m ->
      exists typed m',
        from_long_algebraic (text (strip (chars " a7a8 "))) = Ok typed /\
        In m' legal /\
        from_sq m' = from_sq typed /\ to_sq m' = to_sq typed /\
        (if is_none (promotion typed) then m = m' else m = typed).
Proof.
  split; [reflexivity|].
  apply (parse_and_validate_move_sound (Game.mk promotion_board) " a7a8 ").
  reflexivity.
Defined.

(** A push to the last rank typed without a letter promotes to the first
    generated choice, the queen. *)
Example parse_defaults_to_queen :
  Game.parse_and_validate_move (Game.mk promotion_board) " a7a8 " =
  Ok (Some (mkMove (1, 0) (0, 0) (Some "Q"%char))).
Proof. vm_compute. reflexivity. Qed.

(* ------------------------------------------------------------------ *)
(** ** Any window *)

(** X20: on any window with alpha below beta, for a depth of zero or
    more plies within the recursion budget, the search with cut-offs
    returns a value that is the full-minimax value when it lies strictly
    inside the window, a value not below the full-minimax value when it is
    at or below alpha, and a value not above it when it is at or above
    beta. *)
Theorem minimax_window_bounds (fuel : nat) (board : Board) (depth : Z)
  (alpha beta : Score) (maximizing_color : Color) :
  wf_board board = true ->
  0 <= depth < Z.of_nat fuel ->
  slt alpha beta = true ->
  exists v w,
    minimax fuel board depth alpha beta maximizing_color = Ok v /\
    full_minimax fuel board depth maximizing_color = Ok w /\
    (slt alpha v = true -> slt v beta = true -> v = w) /\
    (sle v alpha = true -> sle w v = true) /\
    (sle beta v = true -> sle v w = true).
Proof.
  intros Hwf Hdepth Hwin.
  destruct (minimax_bounds fuel board depth maximizing_color Hwf Hdepth)
    as [w [Hw Hv]].
  destruct (Hv alpha beta Hwin) as [v [Ev Hb]].
  exists v, w. split; [exact Ev|]. split; [exact Hw|]. exact Hb.
Qed.

Lemma minimax_window_bounds_witness :
  wf_board hanging_queen = true /\
  0 <= 2 < Z.of_nat 3 /\
  slt (Fin 0) (Fin 4) = true /\
  exists v w,
    minimax 3 hanging_queen 2 (Fin 0) (Fin 4) black = Ok v /\
    full_minimax 3 hanging_queen 2 black = Ok w /\
    (slt (Fin 0) v = true -> slt v (Fin 4) = true -> v = w) /\
    (sle v (Fin 0) = true -> sle w v = true) /\
    (sle (Fin 4) v = true -> sle v w = true).
Proof.
  split; [reflexivity|]. split; [lia|]. split; [reflexivity|].
  apply (minimax_window_bounds 3 hanging_queen 2 (Fin 0) (Fin 4) black);
    [reflexivity | lia | reflexivity].
Defined.

(** Outside the window the returned value is only a bound. *)
Example minimax_narrow_window :
  minimax 3 hanging_queen 2 (Fin 0) (Fin 4) black = Ok (Fin 20) /\
  full_minimax 3 hanging_queen 2 black = Ok (Fin 20).
Proof. vm_compute. split; reflexivity. Qed.

(* ------------------------------------------------------------------ *)
(** ** Material after a move *)

Lemma evaluate_fold_total (b : Board) (l : list Square) (acc : Z) :
  fold_left
    (fun material sq =>
       match piece_at b sq with
       | None => material
       | Some piece =>
           let base := piece_value (upper piece) in
           if isupper piece then material + base else material - base
       end) l acc
  = acc + total (fun sq => cell_value (piece_at b sq)) l.
Proof.
  revert acc. induction l as [|sq l IH]; intros acc; cbn [fold_left total fold_right].
  - lia.
  - rewrite IH. unfold total, cell_value.
    destruct (piece_at b sq) as [piece|]; [|lia].
    cbv zeta. destruct (isupper piece); lia.
Qed.

Lemma evaluate_total (b : Board) :
  evaluate_board b = total (fun sq => cell_value (piece_at b sq)) all_squares.
Proof. unfold evaluate_board. rewrite evaluate_fold_total. lia. Qed.

Lemma total_update (f g : Square -> Z) (a c : Square) (da dc : Z)
  (l : list Square) :
  (forall x, In x l ->
     g x = f x + (if square_eqb a x then da else 0)
               + (if square_eqb c x then dc else 0)) ->
  total g l = total f l + da * count_square a l + dc * count_square c l.
Proof.
  unfold count_square. induction l as [|x l IH]; intros H.
  - simpl. lia.
  - cbn [total fold_right filter].
    fold (total g l). fold (total f l).
    rewrite IH by (intros y Hy; apply H; right; exact Hy).
    rewrite (H x (or_introl eq_refl)).
    destruct (square_eqb a x), (square_eqb c x); cbn [List.length];
      rewrite ?Nat2Z.inj_succ; lia.
Qed.

Lemma count_square_board (sq : Square) :
  is_on_board sq = true -> count_square sq all_squares = 1.
Proof.
  destruct sq as [r c]. intros H. apply on_board_cases in H as [Hr Hc].
  unfold range8 in *. simpl in Hr, Hc.
  repeat (destruct Hr as [<-|Hr]);
    try contradiction;
    repeat (destruct Hc as [<-|Hc]); try contradiction; reflexivity.
Qed.

Lemma square_eqb_refl (a : Square) : square_eqb a a = true.
Proof. apply square_eqb_eq. reflexivity. Qed.

Lemma square_eqb_neq (a b : Square) : a <> b -> square_eqb a b = false.
Proof.
  intros H. destruct (square_eqb a b) eqn:E; auto.
  apply square_eqb_eq in E. contradiction.
Qed.

(** X21: applying a move whose origin and destination are two different
    squares of the board changes the static evaluation by exactly the
    material involved: the values of the two cells before the move are
    removed and the value of what is written on the destination is added.
    For a move without promotion the evaluation therefore changes only by
    the value of the captured piece, and not at all for a move to an empty
    square. *)
Theorem evaluate_after_move (b b' : Board) (m : Move) (switch_turn : bool) :
  wf_board b = true ->
  is_on_board (from_sq m) = true ->
  is_on_board (to_sq m) = true ->
  square_eqb (from_sq m) (to_sq m) = false ->
  apply_move b m switch_turn = Ok b' ->
  evaluate_board b' =
    evaluate_board b
    - cell_value (piece_at b (from_sq m))
    - cell_value (piece_at b (to_sq m))
    + cell_value (moved_piece b m)
  /\ (promotion m = None ->
      evaluate_board b' = evaluate_board b - cell_value (piece_at b (to_sq m))).
Proof.
  intros Hwf Hf Ht Hne Happ.
  assert (Hneq : from_sq m <> to_sq m).
  { intros E. apply square_eqb_eq in E. congruence. }
  assert (Hmain :
    evaluate_board b' =
      evaluate_board b
      - cell_value (piece_at b (from_sq m))
      - cell_value (piece_at b (to_sq m))
      + cell_value (moved_piece b m)).
  { rewrite apply_move_on_board in Happ by auto. injection Happ as <-.
    rewrite !evaluate_total.
    rewrite (total_update
               (fun sq => cell_value (piece_at b sq)) _
               (from_sq m) (to_sq m)
               (- cell_value (piece_at b (from_sq m)))
               (cell_value (moved_piece b m) - cell_value (piece_at b (to_sq m)))).
    - rewrite !count_square_board by auto. lia.
    - intros [r c] Hin. apply in_all_squares in Hin as [Hr Hc].
      destruct (from_sq m) as [fr fc] eqn:Efrom, (to_sq m) as [tr tc] eqn:Eto.
      apply on_board_bounds in Hf as [Hfr Hfc].
      apply on_board_bounds in Ht as [Htr Htc].
      unfold wf_board in Hwf.
      pose proof (wf_set_cell (grid b) fr fc None Hwf Hfr) as Hwf1.
      unfold piece_at at 1. cbn [grid fst snd].
      destruct (square_eqb (tr, tc) (r, c)) eqn:E2.
      + apply square_eqb_eq in E2. injection E2 as <- <-.
        rewrite cell_set_cell_same by auto.
        rewrite (square_eqb_neq (fr, fc) (tr, tc)) by auto.
        unfold piece_at. lia.
      + assert (N2 : (r, c) <> (tr, tc)).
        { intros E. rewrite E, square_eqb_refl in E2. discriminate. }
        rewrite cell_set_cell_other by (auto; lia).
        destruct (square_eqb (fr, fc) (r, c)) eqn:E1.
        * apply square_eqb_eq in E1. injection E1 as <- <-.
          rewrite cell_set_cell_same by auto. unfold piece_at, cell_value. lia.
        * assert (N1 : (r, c) <> (fr, fc)).
          { intros E. rewrite E, square_eqb_refl in E1. discriminate. }
          rewrite cell_set_cell_other by (auto; lia). unfold piece_at. lia. }
  split; [exact Hmain|].
  intros Hp. rewrite Hmain. unfold moved_piece. rewrite Hp. lia.
Qed.

Lemma evaluate_after_move_witness :
  wf_board hanging_queen = true /\
  is_on_board (from_sq (mkMove (7, 0) (7, 3) None)) = true /\
  is_on_board (to_sq (mkMove (7, 0) (7, 3) None)) = true /\
  square_eqb (from_sq (mkMove (7, 0) (7, 3) None))
             (to_sq (mkMove (7, 0) (7, 3) None)) = false /\
  apply_move hanging_queen (mkMove (7, 0) (7, 3) None) true =
    Ok (board_of_fen "k7/8/8/8/8/8/8/3r3K w") /\
  evaluate_board (board_of_fen "k7/8/8/8/8/8/8/3r3K w") =
    evaluate_board hanging_queen
    - cell_value (piece_at hanging_queen (from_sq (mkMove (7, 0) (7, 3) None)))
    - cell_value (piece_at hanging_queen (to_sq (mkMove (7, 0) (7, 3) None)))
    + cell_value (moved_piece hanging_queen (mkMove (7, 0) (7, 3) None))
  /\ (promotion (mkMove (7, 0) (7, 3) None) = None ->
      evaluate_board (board_of_fen "k7/8/8/8/8/8/8/3r3K w") =
      evaluate_board hanging_queen
      - cell_value (piece_at hanging_queen (to_sq (mkMove (7, 0) (7, 3) None)))).
Proof.
  split; [reflexivity|]. split; [reflexivity|]. split; [reflexivity|].
  split; [reflexivity|]. split; [vm_compute; reflexivity|].
  apply (evaluate_after_move hanging_queen
           (board_of_fen "k7/8/8/8/8/8/8/3r3K w")
           (mkMove (7, 0) (7, 3) None) true);
    first [reflexivity | vm_compute; reflexivity].
Defined.

(* ------------------------------------------------------------------ *)
(** ** Kings in legal play *)

Lemma ray_same_grid (fuel : nat) (g : Grid) (t1 t2 : Color) (square : Square)
  (color : Color) (dr dc : Z) :
  forall r c,
    ray fuel (mkBoard g t1) square color dr dc r c =
    ray fuel (mkBoard g t2) square color dr dc r c.
Proof.
  induction fuel as [|fuel IH]; intros r c; cbn [ray grid]; [reflexivity|].
  rewrite IH. reflexivity.
Qed.

Lemma moves_for_piece_same_grid (g : Grid) (t1 t2 : Color) (square : Square)
  (piece : Piece) :
  moves_for_piece (mkBoard g t1) square piece =
  moves_for_piece (mkBoard g t2) square piece.
Proof.
  unfold moves_for_piece, sliding_moves. destruct square as [row col].
  repeat match goal with
         | |- (if ?c then _ else _) = _ => destruct c
         end;
    first [ reflexivity
          | apply flat_map_ext; intros [dr dc]; apply ray_same_grid ].
Qed.

Lemma is_in_check_same_grid (g : Grid) (t1 t2 : Color) (color : Color) :
  is_in_check (mkBoard g t1) color = is_in_check (mkBoard g t2) color.
Proof.
  unfold is_in_check.
  change (find_king (mkBoard g t1) color) with (find_king (mkBoard g t2) color).
  destruct (find_king (mkBoard g t2) color); [|reflexivity].
  apply f_equal. unfold generate_pseudo_moves. cbn [grid].
  apply flat_map_ext. intros row. apply flat_map_ext. intros col.
  destruct (cell g row col); [|reflexivity].
  rewrite (moves_for_piece_same_grid g t1 t2). reflexivity.
Qed.

Lemma own_not_enemy_king (color : Color) (piece : Piece) :
  own color piece = true -> piece <> king_symbol (opposite color).
Proof.
  intros Hown E. subst piece. destruct color; discriminate.
Qed.

Lemma is_in_check_false (b : Board) (color : Color) :
  is_in_check b color = false ->
  exists king_sq,
    find_king b color = Some king_sq /\
    forall m, In m (generate_pseudo_moves b (opposite color)) ->
              to_sq m <> king_sq.
Proof.
  unfold is_in_check. destruct (find_king b color) as [ksq|]; [|discriminate].
  intros H. exists ksq. split; [reflexivity|]. intros m Hin E.
  assert (Hex : existsb (fun m => square_eqb (to_sq m) ksq)
                        (generate_pseudo_moves b (opposite color)) = true).
  { apply existsb_exists. exists m. split; auto. apply square_eqb_eq. exact E. }
  congruence.
Qed.

Lemma opposite_involutive (color : Color) : opposite (opposite color) = color.
Proof. destruct color; reflexivity. Qed.

Lemma legal_move_keeps_kings (p p' : Board) (legal : list Move) (m : Move) :
  wf_board p = true ->
  kings_safe p ->
  generate_legal_moves p None = Ok legal ->
  In m legal ->
  apply_move p m true = Ok p' ->
  kings_safe p'.
Proof.
  intros Hwf [Hkw [Hkb Hsafe]] Hlegal Hin Happ.
  set (c := turn p) in *.
  (* the move is pseudo-legal and keeps the mover's king safe *)
  destruct (filter_legal_spec p c (generate_pseudo_moves p c) Hwf
              (generate_pseudo_moves_ok p c)) as [legal' [E Hspec]].
  unfold generate_legal_moves in Hlegal. fold c in Hlegal.
  rewrite Hlegal in E. injection E as <-.
  apply Hspec in Hin as [Hpseudo [nb [Hnb Hcheck]]].
  pose proof (generate_pseudo_moves_shape p c) as Hshape.
  rewrite Forall_forall in Hshape.
  destruct (Hshape m Hpseudo) as [Hf [Ht [Hne [[piece [Hpiece [Hown _]]] _]]]].
  rewrite apply_move_on_board in Happ, Hnb by auto.
  injection Happ as <-. injection Hnb as <-.
  set (g' := set_cell (set_cell (grid p) (fst (from_sq m)) (snd (from_sq m)) None)
                      (fst (to_sq m)) (snd (to_sq m)) (moved_piece p m)) in *.
  assert (Hmover : is_in_check (mkBoard g' (next_turn p true)) c = false).
  { rewrite (is_in_check_same_grid g' _ (next_turn p false)). exact Hcheck. }
  (* the king of the other side is neither captured nor moved *)
  destruct (is_in_check_false p (opposite c) Hsafe) as [ksq [Hk Hfree]].
  rewrite opposite_involutive in Hfree.
  pose proof (find_king_some _ _ _ Hk) as [Hkon Hkp].
  assert (Hother : exists sq,
            find_king (mkBoard g' (next_turn p true)) (opposite c) = Some sq).
  { destruct (find_king (mkBoard g' (next_turn p true)) (opposite c)) eqn:Ef;
      [eauto|exfalso].
    apply find_king_none in Ef. destruct ksq as [kr kc].
    apply on_board_bounds in Hkon as Hb. destruct Hb as [Hkr Hkc].
    apply (Ef kr kc Hkr Hkc).
    unfold piece_at. cbn [grid]. subst g'.
    destruct (from_sq m) as [fr fc] eqn:Efrom, (to_sq m) as [tr tc] eqn:Eto.
    apply on_board_bounds in Hf as [Hfr Hfc].
    apply on_board_bounds in Ht as [Htr Htc].
    unfold wf_board in Hwf.
    pose proof (wf_set_cell (grid p) fr fc None Hwf Hfr) as Hwf1.
    cbn [fst snd].
    rewrite cell_set_cell_other; auto; try lia.
    - rewrite cell_set_cell_other; auto; try lia.
      intros E. rewrite <- E in Hpiece. rewrite Hkp in Hpiece.
      injection Hpiece as <-. eapply own_not_enemy_king; eauto.
    - intros E. apply (Hfree m Hpseudo). rewrite Eto. symmetry. exact E. }
  destruct (is_in_check_false _ _ Hmover) as [msq [Hm _]].
  destruct Hother as [osq Ho].
  change (next_turn p true) with (opposite c) in Hmover, Hm, Ho |- *.
  unfold kings_safe. cbn [turn]. rewrite opposite_involutive. fold c.
  clear Hshape Hspec Hfree Hlegal Hpseudo Hcheck Hsafe Hkw Hkb Hk.
  clearbody g' c.
  destruct c; cbn [opposite] in Ho.
  - split; [exists msq; exact Hm|]. split; [exists osq; exact Ho|exact Hmover].
  - split; [exists osq; exact Ho|]. split; [exists msq; exact Hm|exact Hmover].
Qed.

Lemma reachable_kings_safe (p : Board) : reachable p -> kings_safe p.
Proof.
  induction 1 as [|p legal m p' Hreach IH Hlegal Hin Happ].
  - unfold kings_safe.
    split; [eexists; vm_compute; reflexivity|].
    split; [eexists; vm_compute; reflexivity|].
    vm_compute. reflexivity.
  - apply (legal_move_keeps_kings p p' legal m); auto.
    apply good_board_wf. apply reachable_good. exact Hreach.
Qed.

(** X22: in every position reachable by legal play from the start
    position both kings are on the board and the side that has just moved
    is not in check: a king is never captured, and the fallback of
    [is_in_check] for a missing king is never taken. *)
Theorem reachable_keeps_kings (p : Board) :
  reachable p ->
  (exists sq, find_king p white = Some sq) /\
  (exists sq, find_king p black = Some sq) /\
  is_in_check p (opposite (turn p)) = false.
Proof. apply reachable_kings_safe. Qed.

Lemma reachable_keeps_kings_witness :
  reachable after_e4 /\
  (exists sq, find_king after_e4 white = Some sq) /\
  (exists sq, find_king after_e4 black = Some sq) /\
  is_in_check after_e4 (opposite (turn after_e4)) = false.
Proof.
  split; [exact after_e4_reachable|].
  apply (reachable_keeps_kings after_e4). exact after_e4_reachable.
Defined.
